(** * Spatial restriction functions for temporal points

    A shallow embedding of [meos/src/point/tpoint_restrfuncs.c]
    (MobilityDB / MEOS) together with the properties stated about it.

    Numeric model.  The C code computes on [double] coordinates and on
    [TimestampTz] (64-bit integer) timestamps.  The arithmetic on doubles
    is given two readings.  In the exact reading coordinates are
    rationals [Q] and the formulas are evaluated without rounding: the
    comparisons, the epsilon thresholds and the control flow of the
    source are kept as written.  In the reading on doubles (the section
    on binary64 arithmetic) every operation rounds its exact result to
    the nearest binary64 number; it is given for the clipping, whose loop
    depends on the rounding.  Infinities and NaN are outside both
    readings.  Timestamps are embedded as [Z]: the wrap-around of 64-bit
    integers is outside the model. *)

From Stdlib Require Import QArith Qabs ZArith List Bool Lia Lqa Permutation.
Import ListNotations.
Open Scope Q_scope.

(* ================================================================== *)
(** ** C comparison operators and macros on doubles *)
(* ================================================================== *)

(** [a < b] on doubles. *)
Definition Qltb (a b : Q) : bool :=
  (Qnum a * QDen b <? Qnum b * QDen a)%Z.

(** [a > b] on doubles. *)
Definition Qgtb (a b : Q) : bool := Qltb b a.

(** [a == b] on doubles. *)
Definition Qeqb (a b : Q) : bool := Qeq_bool a b.

(** PostgreSQL [Min] and [Max] macros (PostGIS [FP_MIN], [FP_MAX] are the
    same expressions): [((x) < (y) ? (x) : (y))], [((x) > (y) ? (x) : (y))]. *)
Definition Min (x y : Q) : Q := if Qltb x y then x else y.
Definition Max (x y : Q) : Q := if Qgtb x y then x else y.

(** Modelled from the spec: the epsilon threshold [MEOS_EPSILON] "around
    zero to absorb roundoff" is declared in [meos_internal.h], which is not
    among the sources; its value there is [1.0E-06]. *)
Definition MEOS_EPSILON : Q := 1 # 1000000.

(** Modelled from the spec: the tolerance of the PostGIS comparison macros
    [FP_GT] and [FP_LT] used by the bounding-box pretest; [liblwgeom]
    declares [FP_TOLERANCE] as [1e-12], [FP_GT(A,B)] as
    [((A) - (B)) > FP_TOLERANCE] and [FP_LT(A,B)] as
    [((A) + FP_TOLERANCE) < (B)]. *)
Definition FP_TOLERANCE : Q := 1 # 1000000000000.
Definition FP_GT (a b : Q) : bool := Qgtb (a - b) FP_TOLERANCE.
Definition FP_LT (a b : Q) : bool := Qltb (a + FP_TOLERANCE) b.

(** [SIGNUM(n)]: [((n) < 0 ? -1 : ((n) > 0 ? 1 : 0))]. *)
Definition SIGNUM (n : Q) : Z :=
  if Qltb n 0 then (-1)%Z else if Qgtb n 0 then 1%Z else 0%Z.

(* ================================================================== *)
(** ** 2D segment geometry kernel *)
(* ================================================================== *)

Record POINT2D : Type := mkPOINT2D { p2x : Q; p2y : Q }.

(** The possible ways a pair of segments can interact
    ([MEOS_SEG_INTER_TYPE]). *)
Inductive MEOS_SEG_INTER_TYPE : Type :=
| MEOS_SEG_NO_INTERSECTION
| MEOS_SEG_OVERLAP
| MEOS_SEG_CROSS
| MEOS_SEG_TOUCH_END
| MEOS_SEG_TOUCH.

(** The integer value of the enumeration constant. *)
Definition inter_type_code (k : MEOS_SEG_INTER_TYPE) : Z :=
  match k with
  | MEOS_SEG_NO_INTERSECTION => 0
  | MEOS_SEG_OVERLAP => 1
  | MEOS_SEG_CROSS => 2
  | MEOS_SEG_TOUCH_END => 3
  | MEOS_SEG_TOUCH => 4
  end%Z.

(** [a->x == b->x && a->y == b->y]. *)
Definition point2d_same (a b : POINT2D) : bool :=
  Qeqb (p2x a) (p2x b) && Qeqb (p2y a) (p2y b).

(** [parseg2d_intersection]: the unique point of intersection of two
    closed collinear segments; the point is returned only with
    [MEOS_SEG_TOUCH_END]. *)
Definition parseg2d_intersection (a b c d : POINT2D)
  : MEOS_SEG_INTER_TYPE * option POINT2D :=
  let xmin := Max (Min (p2x a) (p2x b)) (Min (p2x c) (p2x d)) in
  let xmax := Min (Max (p2x a) (p2x b)) (Max (p2x c) (p2x d)) in
  let ymin := Max (Min (p2y a) (p2y b)) (Min (p2y c) (p2y d)) in
  let ymax := Min (Max (p2y a) (p2y b)) (Max (p2y c) (p2y d)) in
  if Qltb xmin xmax || Qltb ymin ymax then (MEOS_SEG_OVERLAP, None)
  else if point2d_same b c || point2d_same b d
  then (MEOS_SEG_TOUCH_END, Some (mkPOINT2D (p2x b) (p2y b)))
  else if point2d_same a c || point2d_same a d
  then (MEOS_SEG_TOUCH_END, Some (mkPOINT2D (p2x a) (p2y a)))
  else (MEOS_SEG_NO_INTERSECTION, None).

(** The cross product evaluated by [seg2d_side], in the exact reading:
    on doubles the sign of a product close to zero can differ from the
    one computed here. *)
Definition side_value (p1 p2 q : POINT2D) : Q :=
  (p2x q - p2x p1) * (p2y p2 - p2y p1)
  - (p2x p2 - p2x p1) * (p2y q - p2y p1).

(** [seg2d_side]: the side of segment [p1 p2] where [q] lies. *)
Definition seg2d_side (p1 p2 q : POINT2D) : Z :=
  let side := side_value p1 p2 q in
  if Qltb (Qabs side) MEOS_EPSILON then 0%Z else SIGNUM side.

(** [lw_seg_interact]: do the envelopes of the two segments interact? *)
Definition lw_seg_interact (p1 p2 q1 q2 : POINT2D) : bool :=
  let minq := Min (p2x q1) (p2x q2) in
  let maxq := Max (p2x q1) (p2x q2) in
  let minp := Min (p2x p1) (p2x p2) in
  let maxp := Max (p2x p1) (p2x p2) in
  if FP_GT minp maxq || FP_LT maxp minq then false
  else
    let minq := Min (p2y q1) (p2y q2) in
    let maxq := Max (p2y q1) (p2y q2) in
    let minp := Min (p2y p1) (p2y p2) in
    let maxp := Max (p2y p1) (p2y p2) in
    if FP_GT minp maxq || FP_LT maxp minq then false
    else true.

(** [seg2d_intersection]: classification of the interaction of the closed
    segments [ab] and [cd]. *)
Definition seg2d_intersection (a b c d : POINT2D)
  : MEOS_SEG_INTER_TYPE * option POINT2D :=
  if negb (lw_seg_interact a b c d) then (MEOS_SEG_NO_INTERSECTION, None)
  else
    let pq1 := seg2d_side a b c in
    let pq2 := seg2d_side a b d in
    if ((pq1 >? 0) && (pq2 >? 0) || (pq1 <? 0) && (pq2 <? 0))%Z
    then (MEOS_SEG_NO_INTERSECTION, None)
    else
      let qp1 := seg2d_side c d a in
      let qp2 := seg2d_side c d b in
      if ((qp1 >? 0) && (qp2 >? 0) || (qp1 <? 0) && (qp2 <? 0))%Z
      then (MEOS_SEG_NO_INTERSECTION, None)
      else if ((pq1 =? 0) && (pq2 =? 0) && (qp1 =? 0) && (qp2 =? 0))%Z
      then parseg2d_intersection a b c d
      else if ((pq1 =? 0) || (pq2 =? 0) || (qp1 =? 0) || (qp2 =? 0))%Z
      then
        if point2d_same b c || point2d_same b d
        then (MEOS_SEG_TOUCH_END, Some (mkPOINT2D (p2x b) (p2y b)))
        else if point2d_same a c || point2d_same a d
        then (MEOS_SEG_TOUCH_END, Some (mkPOINT2D (p2x a) (p2y a)))
        else (MEOS_SEG_TOUCH, None)
      else (MEOS_SEG_CROSS, None).

(* ================================================================== *)
(** ** Trajectory value model *)
(* ================================================================== *)

(** A point value ([GSERIALIZED] point): coordinates, the Z and geodetic
    flags and the spatial reference identifier.  [gspoint_make] stores no Z
    coordinate in a 2D point. *)
Record Point : Type := mkPoint {
  pt_x : Q; pt_y : Q; pt_z : Q;
  pt_hasz : bool; pt_geodetic : bool; pt_srid : Z }.

Definition gspoint_make (x y z : Q) (hasz geodetic : bool) (srid : Z) : Point :=
  mkPoint x y (if hasz then z else 0) hasz geodetic srid.

(** [datum_point2d]: the planar coordinates of a point value. *)
Definition datum_point2d (p : Point) : POINT2D := mkPOINT2D (pt_x p) (pt_y p).

(** Modelled from the spec: [datum_point_eq] lives in the spatial helper
    file, which is not among the sources.  "Two positions are compared for
    exact equality (not epsilon)": same reference system, same
    dimensionality and equal coordinates. *)
Definition datum_point_eq (p q : Point) : bool :=
  (pt_srid p =? pt_srid q)%Z && Bool.eqb (pt_hasz p) (pt_hasz q)
  && Bool.eqb (pt_geodetic p) (pt_geodetic q)
  && Qeqb (pt_x p) (pt_x q) && Qeqb (pt_y p) (pt_y q)
  && (if pt_hasz p then Qeqb (pt_z p) (pt_z q) else true).

(** A span: one-dimensional interval with inclusive or exclusive bounds. *)
Record Span (A : Type) : Type := mkSpan {
  lower : A; upper : A; lower_inc : bool; upper_inc : bool }.
Arguments mkSpan {A} _ _ _ _.
Arguments lower {A} _.
Arguments upper {A} _.
Arguments lower_inc {A} _.
Arguments upper_inc {A} _.

(** Timestamps ([TimestampTz]) are 64-bit integers. *)
Definition TimestampTz : Type := Z.
Definition Period : Type := Span TimestampTz.

(** [span_set]. *)
Definition span_set {A : Type} (l u : A) (linc uinc : bool) : Span A :=
  mkSpan l u linc uinc.

(** Modelled from the spec: the span operations are in the span files,
    which are not among the sources.  A span is "a generic one-dimensional
    interval with inclusive/exclusive bounds at each end"; a value is
    contained when it lies between the bounds, a bound itself only when it
    is inclusive. *)
Definition contains_span_value_gen {A : Type} (cmp : A -> A -> comparison)
  (s : Span A) (d : A) : bool :=
  match cmp (lower s) d with
  | Gt => false
  | Eq => if lower_inc s then
            match cmp (upper s) d with
            | Lt => false | Eq => upper_inc s | Gt => true end
          else false
  | Lt => match cmp (upper s) d with
          | Lt => false | Eq => upper_inc s | Gt => true end
  end.

Definition contains_period_timestamp (s : Period) (t : TimestampTz) : bool :=
  contains_span_value_gen Z.compare s t.

Definition contains_floatspan_value (s : Span Q) (d : Q) : bool :=
  contains_span_value_gen Qcompare s d.

(** Modelled from the spec: two spans overlap when they share a point, a
    common bound counting only when inclusive on both sides. *)
Definition overlaps_span_span_gen {A : Type} (cmp : A -> A -> comparison)
  (s1 s2 : Span A) : bool :=
  let c1 := cmp (lower s1) (upper s2) in
  let c2 := cmp (lower s2) (upper s1) in
  (match c1 with Lt => true | Eq => lower_inc s1 && upper_inc s2 | Gt => false end)
  && (match c2 with Lt => true | Eq => lower_inc s2 && upper_inc s1 | Gt => false end).

Definition overlaps_span_span (s1 s2 : Period) : bool :=
  overlaps_span_span_gen Z.compare s1 s2.

Definition overlaps_floatspan_floatspan (s1 s2 : Span Q) : bool :=
  overlaps_span_span_gen Qcompare s1 s2.

(** Modelled from the spec: the intersection of two periods, none when
    they do not overlap. *)
Definition inter_span_span (s1 s2 : Period) : option Period :=
  if negb (overlaps_span_span s1 s2) then None
  else
    let '(l, li) :=
      match (lower s1 ?= lower s2)%Z with
      | Lt => (lower s2, lower_inc s2)
      | Eq => (lower s1, lower_inc s1 && lower_inc s2)
      | Gt => (lower s1, lower_inc s1)
      end in
    let '(u, ui) :=
      match (upper s1 ?= upper s2)%Z with
      | Lt => (upper s1, upper_inc s1)
      | Eq => (upper s1, upper_inc s1 && upper_inc s2)
      | Gt => (upper s2, upper_inc s2)
      end in
    Some (mkSpan l u li ui).

(** Interpolation modes ([interpType]). *)
Inductive interpType : Type := INTERP_NONE | DISCRETE | STEP | LINEAR.

(** The enumeration value a C [bool] converts to when it is passed where
    an [interpType] is expected ([INTERP_NONE] is 0 and [DISCRETE] is 1). *)
Definition interp_of_bool (b : bool) : interpType :=
  if b then DISCRETE else INTERP_NONE.

Record TInstant : Type := mkTInstant { inst_value : Point; inst_t : TimestampTz }.

Record TSequence : Type := mkTSequence {
  seq_instants : list TInstant;
  seq_period : Period;
  seq_interp : interpType }.

Record TSequenceSet : Type := mkTSequenceSet { ss_sequences : list TSequence }.

Inductive Temporal : Type :=
| TINSTANT (inst : TInstant)
| TSEQUENCE (seq : TSequence)
| TSEQUENCESET (ss : TSequenceSet).

Definition default_point : Point := mkPoint 0 0 0 false false 0%Z.
Definition default_instant : TInstant := mkTInstant default_point 0%Z.

Definition tinstant_value (inst : TInstant) : Point := inst_value inst.
Definition tinstant_make (value : Point) (t : TimestampTz) : TInstant :=
  mkTInstant value t.

(** [seq->count] and [TSEQUENCE_INST_N]. *)
Definition seq_count (seq : TSequence) : nat := length (seq_instants seq).
Definition TSEQUENCE_INST_N (seq : TSequence) (n : nat) : TInstant :=
  nth n (seq_instants seq) default_instant.

Definition MEOS_FLAGS_GET_LINEAR (seq : TSequence) : bool :=
  match seq_interp seq with LINEAR => true | _ => false end.

(** The Z flag of a value is the Z flag of its points. *)
Definition inst_hasz (inst : TInstant) : bool := pt_hasz (inst_value inst).
Definition seq_hasz (seq : TSequence) : bool :=
  inst_hasz (TSEQUENCE_INST_N seq 0).

(** Modelled from the spec: [tsequence_make] is in the sequence file,
    which is not among the sources.  A sequence is "an ordered, non-empty
    array of Instants sharing one interpolation mode" that "carries
    inclusive/exclusive flags for its first and last instant (the time
    period's bounds)".  No normalization is requested by the callers
    modelled here. *)
Definition tsequence_make (instants : list TInstant) (lower_inc upper_inc : bool)
  (interp : interpType) : TSequence :=
  mkTSequence instants
    (mkSpan (inst_t (hd default_instant instants))
            (inst_t (last instants default_instant)) lower_inc upper_inc)
    interp.

Definition tinstant_copy (inst : TInstant) : TInstant := inst.
Definition tsequence_copy (seq : TSequence) : TSequence := seq.
Definition temporal_copy (temp : Temporal) : Temporal := temp.

(** [tsequence_to_tsequenceset]: the sequence set of one sequence. *)
Definition tsequence_to_tsequenceset (seq : TSequence) : TSequenceSet :=
  mkTSequenceSet [seq].

(** The instants [start], ..., [start + n - 1] of an array. *)
Definition subarray {A : Type} (l : list A) (start n : nat) : list A :=
  firstn n (skipn start l).

(** [arr[k] = v]. *)
Fixpoint array_set {A : Type} (l : list A) (k : nat) (v : A) : list A :=
  match l, k with
  | [], _ => []
  | _ :: tl, O => v :: tl
  | h :: tl, S k' => h :: array_set tl k' v
  end.

(* ================================================================== *)
(** ** Self-intersection splitter *)
(* ================================================================== *)

(** The values of the instants of a sequence, in order. *)
Definition seq_values (seq : TSequence) : list Point :=
  map tinstant_value (seq_instants seq).

(** Inner scan of [tpointseq_discstep_find_splits]: the pairs [(j, k)] of
    the piece are visited breadth first.  The result is [Some (Some k)]
    when the values at [j] and [k] coincide (a split at [k]),
    [Some None] when [k] has passed [end], and [None] when the fuel is
    exhausted. *)
Fixpoint discstep_scan (fuel : nat) (vals : list Point) (start end_ j k : nat)
  : option (option nat) :=
  match fuel with
  | O => None
  | S fuel' =>
      if datum_point_eq (nth j vals default_point) (nth k vals default_point)
      then Some (Some k)
      else if (j <? k - 1)%nat
      then discstep_scan fuel' vals start end_ (S j) k
      else
        let k' := S k in
        if (end_ <? k')%nat then Some None
        else discstep_scan fuel' vals start end_ start k'
  end.

(** Outer loop of [tpointseq_discstep_find_splits]. *)
Fixpoint discstep_loop (fuel : nat) (vals : list Point) (bitarr : list bool)
  (numsplits start end_ : nat) : option (list bool * nat) :=
  match fuel with
  | O => None
  | S fuel' =>
      if (start <? end_)%nat then
        match discstep_scan (S (length vals * length vals)) vals start end_
                start (S start) with
        | None => None
        | Some (Some k) =>
            discstep_loop fuel' vals (array_set bitarr k true) (S numsplits)
              k end_
        | Some None => Some (bitarr, numsplits)
        end
      else Some (bitarr, numsplits)
  end.

(** [tpointseq_discstep_find_splits]: the boolean array of the instant
    numbers at which a discrete or step sequence must be split, and the
    number of splits. *)
Definition tpointseq_discstep_find_splits (seq : TSequence)
  : option (list bool * nat) :=
  let count := seq_count seq in
  discstep_loop (S count) (seq_values seq) (repeat false count) 0 0 (count - 1).

(** First loop of [tpointseq_linear_find_splits]: the splits forced by
    stationary segments, for [i] from 1 to [count - 1]. *)
Definition stationary_step (points : list POINT2D) (count : nat)
  (st : list bool * nat) (i : nat) : list bool * nat :=
  let '(bitarr, numsplits) := st in
  let p := nth (i - 1) points (mkPOINT2D 0 0) in
  let q := nth i points (mkPOINT2D 0 0) in
  if Qeqb (p2x p) (p2x q) && Qeqb (p2y p) (p2y q) then
    let '(bitarr1, numsplits1) :=
      if (1 <? i)%nat && negb (nth (i - 1) bitarr false)
      then (array_set bitarr (i - 1) true, S numsplits)
      else (bitarr, numsplits) in
    if (i <? count - 1)%nat
    then (array_set bitarr1 i true, S numsplits1)
    else (bitarr1, numsplits1)
  else st.

(** [while (end < seq->count - 1 && ! bitarr[end]) end++]. *)
Fixpoint advance_end (fuel : nat) (bitarr : list bool) (limit end_ : nat) : nat :=
  match fuel with
  | O => end_
  | S fuel' =>
      if (end_ <? limit)%nat && negb (nth end_ bitarr false)
      then advance_end fuel' bitarr limit (S end_)
      else end_
  end.

(** Breadth-first search for an intersection in the piece from [start] to
    [end]: [Some (Some j)] is a split found at [j], [Some None] is none
    found. *)
Fixpoint linear_scan (fuel : nat) (points : list POINT2D) (start end_ i j : nat)
  : option (option nat) :=
  match fuel with
  | O => None
  | S fuel' =>
      if (j <? end_)%nat then
        let pi := nth i points (mkPOINT2D 0 0) in
        let pi1 := nth (i + 1) points (mkPOINT2D 0 0) in
        let pj := nth j points (mkPOINT2D 0 0) in
        let pj1 := nth (j + 1) points (mkPOINT2D 0 0) in
        let hit :=
          if lw_seg_interact pi pi1 pj pj1 then
            let '(intertype, po) := seg2d_intersection pi pi1 pj pj1 in
            let p := match po with Some p => p | None => mkPOINT2D 0 0 end in
            (0 <? inter_type_code intertype)%Z
            && (negb (inter_type_code intertype =? inter_type_code MEOS_SEG_TOUCH_END)%Z
                || negb (j =? i + 1)%nat
                || negb (Qeqb (p2x p) (p2x pj))
                || negb (Qeqb (p2y p) (p2y pj)))
          else false in
        if hit then Some (Some j)
        else if (i <? j - 1)%nat
        then linear_scan fuel' points start end_ (S i) j
        else linear_scan fuel' points start end_ start (S j)
      else Some None
  end.

(** Main loop of [tpointseq_linear_find_splits]. *)
Fixpoint linear_loop (fuel : nat) (points : list POINT2D) (count : nat)
  (bitarr : list bool) (numsplits start : nat) : option (list bool * nat) :=
  match fuel with
  | O => None
  | S fuel' =>
      if (start <? count - 2)%nat then
        let end_ := advance_end count bitarr (count - 1) (start + 1) in
        if (end_ =? start + 1)%nat
        then linear_loop fuel' points count bitarr numsplits end_
        else
          match linear_scan (S (count * count)) points start end_
                  start (start + 1) with
          | None => None
          | Some (Some j) =>
              linear_loop fuel' points count (array_set bitarr j true)
                (S numsplits) j
          | Some None => linear_loop fuel' points count bitarr numsplits end_
          end
      else Some (bitarr, numsplits)
  end.

(** [tpointseq_linear_find_splits]. *)
Definition tpointseq_linear_find_splits (seq : TSequence)
  : option (list bool * nat) :=
  let count := seq_count seq in
  let points := map datum_point2d (seq_values seq) in
  let '(bitarr, numsplits) :=
    fold_left (stationary_step points count) (List.seq 1 (count - 1))
      (repeat false count, 0%nat) in
  linear_loop (S count) points count bitarr numsplits 0.

(** Modelled from the spec: [datumarr_sort] is in the utility file, which
    is not among the sources; it sorts the values so that coinciding
    positions become neighbours.  The order used here is the
    lexicographic order of the coordinates. *)
Definition point_leb (p q : Point) : bool :=
  match Qcompare (pt_x p) (pt_x q) with
  | Lt => true
  | Gt => false
  | Eq =>
      match Qcompare (pt_y p) (pt_y q) with
      | Lt => true
      | Gt => false
      | Eq => match Qcompare (pt_z p) (pt_z q) with Gt => false | _ => true end
      end
  end.

Fixpoint point_insert (p : Point) (l : list Point) : list Point :=
  match l with
  | [] => [p]
  | q :: tl => if point_leb p q then p :: l else q :: point_insert p tl
  end.

Definition datumarr_sort (l : list Point) : list Point :=
  fold_right point_insert [] l.

(** [for (i = 1; i < count; i++) if (datum_point_eq(points[i - 1], points[i]))]. *)
Fixpoint adjacent_equal (l : list Point) : bool :=
  match l with
  | p :: (q :: _) as tl => datum_point_eq p q || adjacent_equal tl
  | _ => false
  end.

(** [tpointseq_discstep_is_simple]. *)
Definition tpointseq_discstep_is_simple (seq : TSequence) : bool :=
  let points := datumarr_sort (seq_values seq) in
  let found := adjacent_equal points in
  negb found.

(** [tpointseq_is_simple]; the result is [None] only if the search for
    splits runs out of fuel. *)
Definition tpointseq_is_simple (seq : TSequence) : option bool :=
  if (seq_count seq =? 1)%nat then Some true
  else if negb (MEOS_FLAGS_GET_LINEAR seq)
  then Some (tpointseq_discstep_is_simple seq)
  else
    match tpointseq_linear_find_splits seq with
    | None => None
    | Some (_, numsplits) => Some (numsplits =? 0)%nat
    end.

(** [tpointseqset_is_simple]. *)
Fixpoint seqs_all_simple (l : list TSequence) : option bool :=
  match l with
  | [] => Some true
  | seq :: tl =>
      match tpointseq_is_simple seq with
      | None => None
      | Some false => Some false
      | Some true => seqs_all_simple tl
      end
  end.

Definition tpointseqset_is_simple (ss : TSequenceSet) : option bool :=
  seqs_all_simple (ss_sequences ss).

(** [tpoint_is_simple]. *)
Definition tpoint_is_simple (temp : Temporal) : option bool :=
  match temp with
  | TINSTANT _ => Some true
  | TSEQUENCE seq => tpointseq_is_simple seq
  | TSEQUENCESET ss => tpointseqset_is_simple ss
  end.

(** [while (end < seq->count && ! splits[end]) end++], with the bound of
    the caller. *)
Definition next_split (splits : list bool) (limit start : nat) : nat :=
  advance_end limit splits limit (start + 1).

(** [tpointseq_disc_split]. *)
Fixpoint disc_split_loop (fuel : nat) (seq : TSequence) (splits : list bool)
  (start : nat) : option (list TSequence) :=
  match fuel with
  | O => None
  | S fuel' =>
      if (start <? seq_count seq)%nat then
        let end_ := next_split splits (seq_count seq) start in
        let piece :=
          tsequence_make (subarray (seq_instants seq) start (end_ - start))
            true true DISCRETE in
        match disc_split_loop fuel' seq splits end_ with
        | None => None
        | Some rest => Some (piece :: rest)
        end
      else Some []
  end.

Definition tpointseq_disc_split (seq : TSequence) (splits : list bool)
  : option (list TSequence) :=
  disc_split_loop (S (seq_count seq)) seq splits 0.

(** [for (j = 0; j < n; j++) dst[j] = src[j]]: the first cells of the
    scratch array [dst] are overwritten. *)
Definition array_blit {A : Type} (src dst : list A) : list A :=
  src ++ skipn (length src) dst.

(** One fragment of [tpointseq_cont_split], from [start] to [end]
    inclusive; [instants] is the scratch array of the function, returned
    as the fragment leaves it. *)
Definition cont_fragment (seq : TSequence) (splits : list bool)
  (instants : list TInstant) (start end_ : nat) : TSequence * list TInstant :=
  let linear := MEOS_FLAGS_GET_LINEAR seq in
  let count := seq_count seq in
  let instants1 :=
    array_blit (subarray (seq_instants seq) start (end_ - start + 1)) instants in
  let lower_inc1 :=
    if (start =? 0)%nat then lower_inc (seq_period seq) else true in
  let upper_inc1 :=
    if (end_ =? count - 1)%nat
    then upper_inc (seq_period seq) && negb (nth (count - 1) splits false)
    else false in
  let before_last := nth (end_ - start - 1) instants1 default_instant in
  let last_inst := nth (end_ - start) instants1 default_instant in
  if negb linear && negb upper_inc1
     && negb (datum_point_eq (tinstant_value before_last)
                (tinstant_value last_inst))
  then
    let value := tinstant_value before_last in
    let t := inst_t last_inst in
    let instants2 :=
      array_set instants1 (end_ - start) (tinstant_make value t) in
    (tsequence_make (firstn (end_ - start + 1) instants2)
       lower_inc1 false (if linear then LINEAR else STEP), instants2)
  else
    (tsequence_make (firstn (end_ - start + 1) instants1)
       lower_inc1 upper_inc1 (if linear then LINEAR else STEP), instants1).

(** The loop of [tpointseq_cont_split]: the fragments, the scratch array
    and the value of [start] at the exit. *)
Fixpoint cont_split_loop (fuel : nat) (seq : TSequence) (splits : list bool)
  (instants : list TInstant) (start : nat)
  : option (list TSequence * list TInstant * nat) :=
  match fuel with
  | O => None
  | S fuel' =>
      if (start <? seq_count seq - 1)%nat then
        let end_ := next_split splits (seq_count seq - 1) start in
        let '(frag, instants') := cont_fragment seq splits instants start end_ in
        match cont_split_loop fuel' seq splits instants' end_ with
        | None => None
        | Some (rest, scratch, last_start) =>
            Some (frag :: rest, scratch, last_start)
        end
      else Some ([], instants, start)
  end.

(** [tpointseq_cont_split]; [count] is the number of fragments expected.
    The last fragment, when there is one, starts with the last instant of
    the sequence; its interpolation argument is the boolean [linear]. *)
Definition tpointseq_cont_split (seq : TSequence) (splits : list bool)
  (count : nat) : option (list TSequence) :=
  match cont_split_loop (S (seq_count seq)) seq splits
          (repeat default_instant (seq_count seq)) 0 with
  | None => None
  | Some (frags, instants, start) =>
      if (length frags <? count)%nat then
        let instants1 :=
          array_set instants 0 (TSEQUENCE_INST_N seq (seq_count seq - 1)) in
        Some (frags ++
              [tsequence_make (firstn (seq_count seq - start) instants1)
                 true (upper_inc (seq_period seq))
                 (interp_of_bool (MEOS_FLAGS_GET_LINEAR seq))])
      else Some frags
  end.

(** [tpointseq_make_simple]. *)
Definition tpointseq_make_simple (seq : TSequence) : option (list TSequence) :=
  let interp := seq_interp seq in
  let is_discrete := match interp with DISCRETE => true | _ => false end in
  if (is_discrete && (seq_count seq =? 1)%nat)
     || (negb is_discrete && (seq_count seq <=? 2)%nat)
  then Some [tsequence_copy seq]
  else
    match (if MEOS_FLAGS_GET_LINEAR seq
           then tpointseq_linear_find_splits seq
           else tpointseq_discstep_find_splits seq) with
    | None => None
    | Some (splits, numsplits) =>
        if (numsplits =? 0)%nat then Some [tsequence_copy seq]
        else if is_discrete
        then tpointseq_disc_split seq splits
        else tpointseq_cont_split seq splits (numsplits + 1)
    end.

(** [tpointseqset_make_simple]. *)
Fixpoint seqs_make_simple (l : list TSequence) : option (list TSequence) :=
  match l with
  | [] => Some []
  | seq :: tl =>
      match tpointseq_make_simple seq, seqs_make_simple tl with
      | Some frags, Some rest => Some (frags ++ rest)
      | _, _ => None
      end
  end.

Definition tpointseqset_make_simple (ss : TSequenceSet)
  : option (list TSequence) :=
  match ss_sequences ss with
  | [seq] => tpointseq_make_simple seq
  | l => seqs_make_simple l
  end.

(** [tpoint_make_simple]. *)
Definition tpoint_make_simple (temp : Temporal) : option (list Temporal) :=
  match temp with
  | TINSTANT inst => Some [TINSTANT (tinstant_copy inst)]
  | TSEQUENCE seq => option_map (map TSEQUENCE) (tpointseq_make_simple seq)
  | TSEQUENCESET ss => option_map (map TSEQUENCE) (tpointseqset_make_simple ss)
  end.

(* ================================================================== *)
(** ** Spatiotemporal boxes and the Cohen-Sutherland clipping *)
(* ================================================================== *)

(** [STBox]: an axis-aligned box with optional X, Z and T dimensions. *)
Record STBox : Type := mkSTBox {
  xmin : Q; xmax : Q; ymin : Q; ymax : Q; zmin : Q; zmax : Q;
  box_period : Period;
  box_srid : Z;
  box_hasx : bool; box_hasz : bool; box_hast : bool; box_geodetic : bool }.

(** Region codes. *)
Definition INSIDE : Z := 0%Z.
Definition LEFT : Z := 1%Z.
Definition RIGHT : Z := 2%Z.
Definition BOTTOM : Z := 4%Z.
Definition TOP : Z := 8%Z.
Definition FRONT : Z := 16%Z.
Definition BACK : Z := 32%Z.

(** Border codes. *)
Definition XMAX : Z := 1%Z.
Definition YMAX : Z := 2%Z.
Definition ZMAX : Z := 4%Z.

(** [computeCode]: region code for a point [(x, y, z)]. *)
Definition computeCode (x y z : Q) (hasz : bool) (box : STBox) : Z :=
  let code := INSIDE in
  let code :=
    if Qltb x (xmin box) then Z.lor code LEFT
    else if Qgtb x (xmax box) then Z.lor code RIGHT
    else code in
  let code :=
    if Qltb y (ymin box) then Z.lor code BOTTOM
    else if Qgtb y (ymax box) then Z.lor code TOP
    else code in
  if hasz then
    if Qltb z (zmin box) then Z.lor code FRONT
    else if Qgtb z (zmax box) then Z.lor code BACK
    else code
  else code.

(** [computeMaxBorderCode]: max border code for a point [(x, y, z)]. *)
Definition computeMaxBorderCode (x y z : Q) (hasz : bool) (box : STBox) : Z :=
  let code := INSIDE in
  let code :=
    if Qltb (xmax box - x) MEOS_EPSILON then Z.lor code XMAX else code in
  let code :=
    if Qltb (ymax box - y) MEOS_EPSILON then Z.lor code YMAX else code in
  if hasz && Qltb (zmax box - z) MEOS_EPSILON then Z.lor code ZMAX else code.

(** [code & FACE] as a C condition. *)
Definition has_bit (code face : Z) : bool := negb (Z.land code face =? 0)%Z.

(** The intersection of the segment with the face selected by [code_out],
    in the exact reading ([clip_intersection_rounded] is the one on
    doubles); [None] when no branch of the cascade assigns the point. *)
Definition clip_intersection (x1 y1 z1 x2 y2 z2 : Q) (hasz : bool)
  (box : STBox) (code_out : Z) : option (Q * Q * Q) :=
  if has_bit code_out LEFT then
    Some (xmin box,
          y1 + (y2 - y1) * (xmin box - x1) / (x2 - x1),
          if hasz then z1 + (z2 - z1) * (xmin box - x1) / (x2 - x1) else 0)
  else if has_bit code_out RIGHT then
    Some (xmax box,
          y1 + (y2 - y1) * (xmax box - x1) / (x2 - x1),
          if hasz then z1 + (z2 - z1) * (xmax box - x1) / (x2 - x1) else 0)
  else if has_bit code_out BOTTOM then
    Some (x1 + (x2 - x1) * (ymin box - y1) / (y2 - y1),
          ymin box,
          if hasz then z1 + (z2 - z1) * (ymin box - y1) / (y2 - y1) else 0)
  else if has_bit code_out TOP then
    Some (x1 + (x2 - x1) * (ymax box - y1) / (y2 - y1),
          ymax box,
          if hasz then z1 + (z2 - z1) * (ymax box - y1) / (y2 - y1) else 0)
  else if hasz && has_bit code_out FRONT then
    Some (x1 + (x2 - x1) * (zmin box - z1) / (z2 - z1),
          y1 + (y2 - y1) * (zmin box - z1) / (z2 - z1),
          zmin box)
  else if hasz && has_bit code_out BACK then
    Some (x1 + (x2 - x1) * (zmax box - z1) / (z2 - z1),
          y1 + (y2 - y1) * (zmax box - z1) / (z2 - z1),
          zmax box)
  else None.

(** The variables of the clipping loop. *)
Record ClipState : Type := mkClipState {
  cs_x1 : Q; cs_y1 : Q; cs_z1 : Q; cs_code1 : Z;
  cs_x2 : Q; cs_y2 : Q; cs_z2 : Q; cs_code2 : Z }.

(** How the clipping loop ends: with [found] set or not, by reading an
    intersection point that no branch assigned, or not within the fuel. *)
Inductive ClipLoop : Type :=
| ClipEnd (found : bool) (st : ClipState)
| ClipUnassigned
| ClipOutOfFuel.

(** One pass of the body of [while (true)]: [inr] is a [break]. *)
Definition clip_step (hasz : bool) (box : STBox) (st : ClipState)
  : ClipState + ClipLoop :=
  let code1 := cs_code1 st in
  let code2 := cs_code2 st in
  if (Z.lor code1 code2 =? 0)%Z then inr (ClipEnd true st)
  else if negb (Z.land code1 code2 =? 0)%Z then inr (ClipEnd false st)
  else
    let code_out := if negb (code1 =? 0)%Z then code1 else code2 in
    match clip_intersection (cs_x1 st) (cs_y1 st) (cs_z1 st)
            (cs_x2 st) (cs_y2 st) (cs_z2 st) hasz box code_out with
    | None => inr ClipUnassigned
    | Some (x, y, z) =>
        if (code_out =? code1)%Z then
          let z1 := if hasz then z else cs_z1 st in
          inl (mkClipState x y z1 (computeCode x y z1 hasz box)
                 (cs_x2 st) (cs_y2 st) (cs_z2 st) code2)
        else
          let z2 := if hasz then z else cs_z2 st in
          inl (mkClipState (cs_x1 st) (cs_y1 st) (cs_z1 st) code1
                 x y z2 (computeCode x y z2 hasz box))
    end.

Fixpoint clip_loop (fuel : nat) (hasz : bool) (box : STBox) (st : ClipState)
  : ClipLoop :=
  match fuel with
  | O => ClipOutOfFuel
  | S fuel' =>
      match clip_step hasz box st with
      | inr r => r
      | inl st' => clip_loop fuel' hasz box st'
      end
  end.

(** What [cohenSutherlandClip] returns and writes through its output
    parameters; an output parameter that is not written is [None]. *)
Record ClipResult : Type := mkClipResult {
  clip_found : bool;
  clip_p3 : option Point; clip_p4 : option Point;
  clip_p3_inc : option bool; clip_p4_inc : option bool }.

(** The state of the loop at its entry. *)
Definition clip_init (p1 p2 : Point) (box : STBox) (hasz : bool) : ClipState :=
  let x1 := pt_x p1 in let y1 := pt_y p1 in
  let z1 := if hasz then pt_z p1 else 0 in
  let x2 := pt_x p2 in let y2 := pt_y p2 in
  let z2 := if hasz then pt_z p2 else 0 in
  mkClipState x1 y1 z1 (computeCode x1 y1 z1 hasz box)
              x2 y2 z2 (computeCode x2 y2 z2 hasz box).

(** The code after the loop. *)
Definition clip_finish (srid : Z) (box : STBox) (hasz border_inc : bool)
  (found : bool) (st : ClipState) : ClipResult :=
  if found then
    let p3 := gspoint_make (cs_x1 st) (cs_y1 st) (cs_z1 st) hasz false srid in
    let p4 := gspoint_make (cs_x2 st) (cs_y2 st) (cs_z2 st) hasz false srid in
    if negb border_inc then
      let max_code1 :=
        computeMaxBorderCode (cs_x1 st) (cs_y1 st) (cs_z1 st) hasz box in
      let max_code2 :=
        computeMaxBorderCode (cs_x2 st) (cs_y2 st) (cs_z2 st) hasz box in
      if negb (Z.land max_code1 max_code2 =? 0)%Z
      then mkClipResult false None None None None
      else mkClipResult true (Some p3) (Some p4)
             (Some (max_code1 =? 0)%Z) (Some (max_code2 =? 0)%Z)
    else mkClipResult true (Some p3) (Some p4) None None
  else mkClipResult false None None None None.

(** [cohenSutherlandClip] run with the given fuel for its loop: the
    result is [None] when the loop does not reach a [break] within the
    fuel or reads an unassigned intersection point. *)
Definition cohenSutherlandClip_fuel (fuel : nat) (p1 p2 : Point) (box : STBox)
  (hasz border_inc : bool) : option ClipResult :=
  match clip_loop fuel hasz box (clip_init p1 p2 box hasz) with
  | ClipEnd found st =>
      Some (clip_finish (pt_srid p1) box hasz border_inc found st)
  | ClipUnassigned | ClipOutOfFuel => None
  end.

(** Six faces can be clipped, each at most once, before the last test. *)
Definition clip_fuel : nat := 7.

(** [cohenSutherlandClip]. *)
Definition cohenSutherlandClip (p1 p2 : Point) (box : STBox)
  (hasz border_inc : bool) : option ClipResult :=
  cohenSutherlandClip_fuel clip_fuel p1 p2 box hasz border_inc.

(** [tpointinst_restrict_stbox_iter]. *)
Definition tpointinst_restrict_stbox_iter (inst : TInstant) (box : STBox)
  (border_inc atfunc : bool) : bool :=
  let hasz := inst_hasz inst && box_hasz box in
  let hast := box_hast box in
  if hast && negb (contains_period_timestamp (box_period box) (inst_t inst))
  then negb atfunc
  else
    let value := tinstant_value inst in
    let x := pt_x value in
    let y := pt_y value in
    let z := if hasz then pt_z value else 0 in
    let code := computeCode x y z hasz box in
    let max_code :=
      if negb border_inc then computeMaxBorderCode x y z hasz box else 0%Z in
    if negb (Z.lor code max_code =? 0)%Z then negb atfunc
    else atfunc.

(** [tpointinst_restrict_stbox]. *)
Definition tpointinst_restrict_stbox (inst : TInstant) (box : STBox)
  (border_inc atfunc : bool) : option TInstant :=
  if tpointinst_restrict_stbox_iter inst box border_inc atfunc
  then Some (tinstant_copy inst) else None.

(* ================================================================== *)
(** ** Collaborators and errors *)
(* ================================================================== *)

(** Time span sets ([SpanSet] of timestamps). *)
Definition SpanSet : Type := list Period.

(** The view of an intersection geometry used by the engine: a point, a
    line string, or a collection whose members are points, line strings
    or something else. *)
Inductive LWPART : Type :=
| PART_POINT (p : Point)
| PART_LINE (points : list Point)
| PART_OTHER.

Inductive LWGEOM : Type :=
| LWPOINT (p : Point)
| LWLINE (points : list Point)
| LWCOLLECTION (geoms : list LWPART).

(** The error kinds of the engine; [NoResult] stands for a run that gives
    no result: it reads a variable or a pointer that was not set, or a
    loop of the model runs out of fuel. *)
Inductive error_kind : Type :=
| InvalidArgument
| UnsupportedGeometry
| InternalInvariantViolation
| NoResult.

Inductive result (A : Type) : Type :=
| Ok (a : A)
| Error (e : error_kind).
Arguments Ok {A} _.
Arguments Error {A} _.

Definition bind {A B : Type} (r : result A) (f : A -> result B) : result B :=
  match r with
  | Ok a => f a
  | Error e => Error e
  end.

Notation "x <- c1 ;; c2" := (bind c1 (fun x => c2))
  (at level 61, c1 at next level, right associativity).

(** The collaborators of the engine that are outside the sources: the
    boundary geometry library, the bounding-box computation, the span-set
    normalizer and the restriction of a temporal value to time spans.
    They are parameters of the engine; nothing is assumed about them.
    A pointer argument that the engine may pass as [NULL] is an
    [option]. *)
Record Collaborators : Type := mkCollaborators {
  GSERIALIZED : Type;
  TFloat : Type;
  gserialized_is_empty : GSERIALIZED -> bool;
  gserialized_get_srid : GSERIALIZED -> Z;
  gserialized_has_z : GSERIALIZED -> bool;
  geom_intersects2d : Point -> GSERIALIZED -> bool;
  geom_intersection2d : GSERIALIZED -> GSERIALIZED -> GSERIALIZED;
  tpointseq_cont_trajectory : TSequence -> GSERIALIZED;
  lwgeom_from_gserialized : GSERIALIZED -> LWGEOM;
  geo_set_stbox : GSERIALIZED -> STBox;
  temporal_set_bbox : Temporal -> STBox;
  tsequence_set_bbox : TSequence -> STBox;
  tsequenceset_set_bbox : TSequenceSet -> STBox;
  overlaps_stbox_stbox : STBox -> STBox -> bool;
  spanarr_normalize : list Period -> list Period;
  spanarr_sort : list Period -> list Period;
  spanset_make_free : list Period -> bool -> SpanSet;
  tseqarr_normalize : list TSequence -> list TSequence;
  tseqsetarr_to_tseqset : list (option TSequenceSet) -> TSequenceSet;
  tsequenceset_time : option TSequenceSet -> SpanSet;
  tcontseq_restrict_periodset :
    TSequence -> SpanSet -> bool -> option TSequenceSet;
  tcontseq_at_period : TSequence -> Period -> option TSequence;
  tsequenceset_restrict_periodset :
    TSequenceSet -> SpanSet -> bool -> option TSequenceSet;
  temporal_restrict_period : Temporal -> Period -> bool -> option Temporal;
  tpoint_get_coord : TSequenceSet -> nat -> TFloat;
  tnumber_restrict_span : TFloat -> Span Q -> bool -> option TFloat;
  temporal_time : TFloat -> SpanSet }.

Definition REST_AT : bool := true.
Definition REST_MINUS : bool := false.
Definition NORMALIZE : bool := true.
Definition NORMALIZE_NO : bool := false.

(** Modelled from the spec: [tpoint_srid] is in the spatial helper file,
    which is not among the sources; a point value carries its "spatial
    reference identifier (SRID)", shared by the instants of a value. *)
Definition temporal_first_point (temp : Temporal) : Point :=
  match temp with
  | TINSTANT inst => inst_value inst
  | TSEQUENCE seq => inst_value (TSEQUENCE_INST_N seq 0)
  | TSEQUENCESET ss =>
      match ss_sequences ss with
      | seq :: _ => inst_value (TSEQUENCE_INST_N seq 0)
      | [] => default_point
      end
  end.

Definition tpoint_srid (temp : Temporal) : Z :=
  pt_srid (temporal_first_point temp).

(** The Z and geodetic flags of a temporal value. *)
Definition temporal_hasz (temp : Temporal) : bool :=
  pt_hasz (temporal_first_point temp).
Definition temporal_geodetic (temp : Temporal) : bool :=
  pt_geodetic (temporal_first_point temp).

(** Modelled from the spec: the [ensure_] checks are in the helper files,
    which are not among the sources.  "Mismatched spatial reference
    identifiers, mismatched dimensionality" are rejected with
    [InvalidArgument]. *)
Definition ensure_same_srid (srid1 srid2 : Z) : result unit :=
  if (srid1 =? srid2)%Z then Ok tt else Error InvalidArgument.
Definition ensure_has_not_Z_gs (hasz : bool) : result unit :=
  if hasz then Error InvalidArgument else Ok tt.
Definition ensure_has_Z (hasz : bool) : result unit :=
  if hasz then Ok tt else Error InvalidArgument.
Definition ensure_same_geodetic (g1 g2 : bool) : result unit :=
  if Bool.eqb g1 g2 then Ok tt else Error InvalidArgument.

(** Modelled from the spec: [tsequenceset_make_free] is in the sequence
    set file, which is not among the sources: it "recombines per-sequence
    results into sequence-set results, normalizing the result
    representation" on request; an empty array gives no sequence set. *)
Definition tsequenceset_make_free (E : Collaborators)
  (sequences : list TSequence) (normalize : bool) : option TSequenceSet :=
  match sequences with
  | [] => None
  | _ => Some (mkTSequenceSet
                 (if normalize then tseqarr_normalize E sequences
                  else sequences))
  end.

(** [(TimestampTz) d]: conversion of a double to an integer, towards zero. *)
Definition Qtrunc (q : Q) : Z := Z.quot (Qnum q) (Zpos (Qden q)).

(** Modelled from the spec: [tsegment_value_at_timestamp] is in the
    sequence file, which is not among the sources.  The value of a
    segment at a timestamp is the start value for step interpolation and
    the "linear interpolation of coordinates" for linear interpolation. *)
Definition tsegment_value_at_timestamp (inst1 inst2 : TInstant)
  (interp : interpType) (t : TimestampTz) : Point :=
  let p1 := inst_value inst1 in
  let p2 := inst_value inst2 in
  match interp with
  | LINEAR =>
      let ratio :=
        inject_Z (t - inst_t inst1) / inject_Z (inst_t inst2 - inst_t inst1) in
      mkPoint (pt_x p1 + (pt_x p2 - pt_x p1) * ratio)
              (pt_y p1 + (pt_y p2 - pt_y p1) * ratio)
              (if pt_hasz p1 then pt_z p1 + (pt_z p2 - pt_z p1) * ratio else 0)
              (pt_hasz p1) (pt_geodetic p1) (pt_srid p1)
  | _ => p1
  end.

(** Modelled from the spec: [geosegm_locate_point] is in the spatial
    helper file, which is not among the sources.  "Given a non-constant
    segment and a target point ..., compute its fractional position
    between the segment's endpoints": the fraction of the closest point of
    the segment, forced to 0 or 1 at the end points, and the distance to
    it.  The distance is returned squared, the model having no square
    root; the dimensionality is that of the start point. *)
Definition geosegm_locate_point (p1 p2 p : Point) : Q * Q :=
  let hasz := pt_hasz p1 in
  let dx := pt_x p2 - pt_x p1 in
  let dy := pt_y p2 - pt_y p1 in
  let dz := if hasz then pt_z p2 - pt_z p1 else 0 in
  let ex := pt_x p - pt_x p1 in
  let ey := pt_y p - pt_y p1 in
  let ez := if hasz then pt_z p - pt_z p1 else 0 in
  let len2 := dx * dx + dy * dy + dz * dz in
  let r := (ex * dx + ey * dy + ez * dz) / len2 in
  let fraction := if Qltb r 0 then 0 else if Qgtb r 1 then 1 else r in
  let qx := ex - dx * fraction in
  let qy := ey - dy * fraction in
  let qz := ez - dz * fraction in
  (fraction, qx * qx + qy * qy + qz * qz).

(** [point_force2d] and [tpoint_force2d] on an instant and on a sequence. *)
Definition point_force2d (p : Point) : Point :=
  gspoint_make (pt_x p) (pt_y p) 0 false false (pt_srid p).
Definition tinstant_force2d (inst : TInstant) : TInstant :=
  mkTInstant (point_force2d (inst_value inst)) (inst_t inst).
Definition tsequence_force2d (seq : TSequence) : TSequence :=
  mkTSequence (map tinstant_force2d (seq_instants seq)) (seq_period seq)
    (seq_interp seq).

(** A result of the model that may be missing, as a [result]. *)
Definition of_option {A : Type} (o : option A) : result A :=
  match o with
  | Some a => Ok a
  | None => Error NoResult
  end.

Fixpoint result_map {A B : Type} (f : A -> result B) (l : list A)
  : result (list B) :=
  match l with
  | [] => Ok []
  | a :: tl => b <- f a ;; bs <- result_map f tl ;; Ok (b :: bs)
  end.

(* ================================================================== *)
(** ** Geometry restriction engine *)
(* ================================================================== *)

Section GeometryEngine.

Variable E : Collaborators.

(** [tpointinst_restrict_geom_time_iter]. *)
Definition tpointinst_restrict_geom_time_iter (inst : TInstant)
  (gs : GSERIALIZED E) (zspan : option (Span Q)) (period : option Period)
  (atfunc : bool) : bool :=
  if match period with
     | Some p => negb (contains_period_timestamp p (inst_t inst))
     | None => false
     end
  then negb atfunc
  else
    let value := tinstant_value inst in
    if match zspan with
       | Some zs => negb (contains_floatspan_value zs (pt_z value))
       | None => false
       end
    then negb atfunc
    else if negb (geom_intersects2d E value gs) then negb atfunc
    else atfunc.

(** [tpointinst_restrict_geom_time]. *)
Definition tpointinst_restrict_geom_time (inst : TInstant)
  (gs : GSERIALIZED E) (zspan : option (Span Q)) (period : option Period)
  (atfunc : bool) : option TInstant :=
  if tpointinst_restrict_geom_time_iter inst gs zspan period atfunc
  then Some (tinstant_copy inst) else None.

(** [tpointseq_disc_restrict_geom_time]. *)
Definition tpointseq_disc_restrict_geom_time (seq : TSequence)
  (gs : GSERIALIZED E) (zspan : option (Span Q)) (period : option Period)
  (atfunc : bool) : option TSequence :=
  if (seq_count seq =? 1)%nat then
    if tpointinst_restrict_geom_time_iter (TSEQUENCE_INST_N seq 0) gs zspan
         period atfunc
    then Some (tsequence_copy seq) else None
  else
    let instants :=
      filter (fun inst =>
                tpointinst_restrict_geom_time_iter inst gs zspan period atfunc)
        (seq_instants seq) in
    if (0 <? length instants)%nat
    then Some (tsequence_make instants true true DISCRETE)
    else None.

(** The variables of the loop of the step iteration functions: the
    instants collected for the current sequence and the sequences built. *)
Definition StepAcc : Type := (list TInstant * list TSequence)%type.

(** What the loop does at an instant that fails the test, when instants
    have been collected: the last value is continued until the time of
    the failing instant, projected to [timespan] when there is one. *)
Definition step_close (seq : TSequence) (timespan : option Period)
  (instants : list TInstant) (inst : TInstant) : TSequence :=
  let last_inst := last instants default_instant in
  let value := tinstant_value last_inst in
  let '(instants1, upper_inc1) :=
    match timespan with
    | Some ts =>
        let extend := span_set (inst_t last_inst) (inst_t inst) true false in
        match inter_span_span ts extend with
        | Some inter =>
            if negb (lower inter =? upper inter)%Z
            then (instants ++ [tinstant_make value (upper inter)], false)
            else (instants, true)
        | None => (instants, false)
        end
    | None => (instants ++ [tinstant_make value (inst_t inst)], false)
    end in
  let start := lower (seq_period seq) in
  let lower_inc1 :=
    if (inst_t (hd default_instant instants1) =? start)%Z
    then lower_inc (seq_period seq) else true in
  tsequence_make instants1 lower_inc1 upper_inc1 STEP.

(** The body of the loop over the instants, for a membership test. *)
Definition step_iter_body (seq : TSequence) (timespan : option Period)
  (test : TInstant -> bool) (acc : StepAcc) (inst : TInstant) : StepAcc :=
  let '(instants, sequences) := acc in
  if test inst then (instants ++ [inst], sequences)
  else if (0 <? length instants)%nat
  then ([], sequences ++ [step_close seq timespan instants inst])
  else acc.

(** The last sequence, with the remaining instants. *)
Definition step_iter_finish (seq : TSequence) (acc : StepAcc) : list TSequence :=
  let '(instants, sequences) := acc in
  if (0 <? length instants)%nat then
    let start := lower (seq_period seq) in
    let lower_inc1 :=
      if (inst_t (hd default_instant instants) =? start)%Z
      then lower_inc (seq_period seq) else true in
    let end_ := upper (seq_period seq) in
    let upper_inc1 :=
      if (inst_t (last instants default_instant) =? end_)%Z
      then upper_inc (seq_period seq) else false in
    sequences ++ [tsequence_make instants lower_inc1 upper_inc1 STEP]
  else sequences.

(** The common shape of [tpointseq_step_at_geom_time_iter] and
    [tpointseq_step_at_stbox_iter]: [period] is the period of the
    restriction, if any; the result is the array of sequences, empty for
    [NULL]. *)
Definition step_at_iter (seq : TSequence) (period : option Period)
  (test : TInstant -> bool) : list TSequence :=
  match period with
  | Some p =>
      match inter_span_span (seq_period seq) p with
      | None => []
      | Some timespan =>
          step_iter_finish seq
            (fold_left (step_iter_body seq (Some timespan) test)
               (seq_instants seq) ([], []))
      end
  | None =>
      step_iter_finish seq
        (fold_left (step_iter_body seq None test) (seq_instants seq) ([], []))
  end.

(** [tpointseq_step_at_geom_time_iter]. *)
Definition tpointseq_step_at_geom_time_iter (seq : TSequence)
  (gs : GSERIALIZED E) (zspan : option (Span Q)) (period : option Period)
  : list TSequence :=
  step_at_iter seq period
    (fun inst => tpointinst_restrict_geom_time_iter inst gs zspan period REST_AT).

(** [tpointseq_step_restrict_geom_time]. *)
Definition tpointseq_step_restrict_geom_time (seq : TSequence)
  (gs : GSERIALIZED E) (zspan : option (Span Q)) (period : option Period)
  (atfunc : bool) : option TSequenceSet :=
  if (seq_count seq =? 1)%nat then
    if tpointinst_restrict_geom_time_iter (TSEQUENCE_INST_N seq 0) gs zspan
         period atfunc
    then Some (tsequence_to_tsequenceset seq) else None
  else
    let sequences := tpointseq_step_at_geom_time_iter seq gs zspan period in
    if (length sequences =? 0)%nat
    then if atfunc then None else Some (tsequence_to_tsequenceset seq)
    else
      let result_at := tsequenceset_make_free E sequences NORMALIZE_NO in
      if atfunc then result_at
      else
        let ps := tsequenceset_time E result_at in
        tcontseq_restrict_periodset E seq ps atfunc.

(** [tpointsegm_timestamp_at_value1]: the timestamp at which a segment
    takes a base value; [None] when the function returns false, in which
    case the output timestamp is not written.  The distance is compared
    with the epsilon through its square.  The duration is the difference
    of the timestamps in [Z], without the wrap-around of 64-bit
    integers. *)
Definition tpointsegm_timestamp_at_value1 (inst1 inst2 : TInstant)
  (value : Point) : option TimestampTz :=
  let value1 := tinstant_value inst1 in
  let value2 := tinstant_value inst2 in
  if datum_point_eq value1 value then Some (inst_t inst1)
  else if datum_point_eq value2 value then Some (inst_t inst2)
  else
    let '(fraction, dist2) := geosegm_locate_point value1 value2 value in
    if negb (Qltb dist2 (MEOS_EPSILON * MEOS_EPSILON)) then None
    else
      let duration := inject_Z (inst_t inst2 - inst_t inst1) in
      Some (inst_t inst1 + Qtrunc (duration * fraction))%Z.

(** [tpointseq_timestamp_at_value]. *)
Fixpoint timestamp_at_value_loop (inst1 : TInstant) (rest : list TInstant)
  (value : Point) : result TimestampTz :=
  match rest with
  | [] => Error InternalInvariantViolation
  | inst2 :: tl =>
      match tpointsegm_timestamp_at_value1 inst1 inst2 value with
      | Some t => Ok t
      | None => timestamp_at_value_loop inst2 tl value
      end
  end.

Definition tpointseq_timestamp_at_value (seq : TSequence) (value : Point)
  : result TimestampTz :=
  timestamp_at_value_loop (TSEQUENCE_INST_N seq 0) (tl (seq_instants seq)) value.

(** The periods of one member of the intersection in
    [tpointseq_interperiods]. *)
Definition interperiods_point (seq : TSequence) (p : Point)
  : result (list Period) :=
  let start := TSEQUENCE_INST_N seq 0 in
  let end_ := TSEQUENCE_INST_N seq (seq_count seq - 1) in
  t1 <- tpointseq_timestamp_at_value seq p ;;
  if (lower_inc (seq_period seq) || (inst_t start <? t1)%Z)
     && (upper_inc (seq_period seq) || (t1 <? inst_t end_)%Z)
  then Ok [span_set t1 t1 true true]
  else Ok [].

Definition interperiods_line (seq : TSequence) (points : list Point)
  : result (list Period) :=
  let start := TSEQUENCE_INST_N seq 0 in
  let end_ := TSEQUENCE_INST_N seq (seq_count seq - 1) in
  match points with
  | [] => Error NoResult
  | first :: _ =>
      t1 <- tpointseq_timestamp_at_value seq first ;;
      t2 <- tpointseq_timestamp_at_value seq (last points default_point) ;;
      if (t1 =? t2)%Z then
        if (lower_inc (seq_period seq) || (inst_t start <? t1)%Z)
           && (upper_inc (seq_period seq) || (t1 <? inst_t end_)%Z)
        then Ok [span_set t1 t1 true true]
        else Ok []
      else
        let lower1 := Z.min t1 t2 in
        let upper1 := Z.max t1 t2 in
        let lower_inc1 :=
          if (lower1 =? inst_t start)%Z then lower_inc (seq_period seq)
          else true in
        let upper_inc1 :=
          if (upper1 =? inst_t end_)%Z then upper_inc (seq_period seq)
          else true in
        Ok [span_set lower1 upper1 lower_inc1 upper_inc1]
  end.

Definition interperiods_part (seq : TSequence) (part : LWPART)
  : result (list Period) :=
  match part with
  | PART_POINT p => interperiods_point seq p
  | PART_LINE points => interperiods_line seq points
  | PART_OTHER => Error NoResult
  end.

(** [tpointseq_interperiods]: the periods at which a simple sequence with
    linear interpolation intersects a geometry, given the intersection.
    A collection of a single member is not taken apart by the source,
    which then reads a line pointer that was not set. *)
Definition tpointseq_interperiods (seq : TSequence) (gsinter : GSERIALIZED E)
  : result (list Period) :=
  let start := TSEQUENCE_INST_N seq 0 in
  let end_ := TSEQUENCE_INST_N seq (seq_count seq - 1) in
  if (seq_count seq =? 2)%nat
     && datum_point_eq (tinstant_value start) (tinstant_value end_)
  then Ok [seq_period seq]
  else
    periods <-
      match lwgeom_from_gserialized E gsinter with
      | LWPOINT p => interperiods_point seq p
      | LWLINE points => interperiods_line seq points
      | LWCOLLECTION geoms =>
          match geoms with
          | [] => Ok []
          | [_] => Error NoResult
          | _ =>
              l <- result_map (interperiods_part seq) geoms ;;
              Ok (concat l)
          end
      end ;;
    if (length periods <=? 1)%nat then Ok periods
    else Ok (spanarr_normalize E periods).

(** The periods of one simple fragment in [tpointseq_linear_at_geom]. *)
Definition fragment_periods (gs : GSERIALIZED E) (seq : TSequence)
  : result (list Period) :=
  let traj := tpointseq_cont_trajectory E seq in
  let gsinter := geom_intersection2d E traj gs in
  if negb (gserialized_is_empty E gsinter)
  then tpointseq_interperiods seq gsinter
  else Ok [].

(** [tpointseq_linear_at_geom]. *)
Definition tpointseq_linear_at_geom (seq : TSequence) (gs : GSERIALIZED E)
  : result (option TSequenceSet) :=
  if (seq_count seq =? 1)%nat then
    if negb (tpointinst_restrict_geom_time_iter (TSEQUENCE_INST_N seq 0) gs
               None None REST_AT)
    then Ok None
    else Ok (Some (tsequence_to_tsequenceset seq))
  else if negb (overlaps_stbox_stbox E (tsequence_set_bbox E seq)
                  (geo_set_stbox E gs))
  then Ok None
  else
    let hasz := seq_hasz seq in
    let seq2d := if hasz then tsequence_force2d seq else seq in
    simpleseqs <- of_option (tpointseq_make_simple seq2d) ;;
    allperiods <-
      (if (length simpleseqs =? 1)%nat then fragment_periods gs seq2d
       else
         l <- result_map (fragment_periods gs) simpleseqs ;;
         if (length (concat l) =? 0)%nat then Ok []
         else Ok (spanarr_sort E (concat l))) ;;
    if (length allperiods =? 0)%nat then Ok None
    else
      let ps := spanset_make_free E allperiods NORMALIZE in
      Ok (tcontseq_restrict_periodset E seq ps REST_AT).

(** [tpointseq_linear_at_geom_time]. *)
Definition tpointseq_linear_at_geom_time (seq : TSequence)
  (gs : GSERIALIZED E) (zspan : option (Span Q)) (period : option Period)
  : result (option TSequenceSet) :=
  if (seq_count seq =? 1)%nat then
    if tpointinst_restrict_geom_time_iter (TSEQUENCE_INST_N seq 0) gs zspan
         period REST_AT
    then Ok (Some (tsequence_to_tsequenceset seq))
    else Ok None
  else
    let at_t :=
      match period with
      | Some p =>
          if overlaps_span_span (seq_period seq) p
          then tcontseq_at_period E seq p else None
      | None => Some seq
      end in
    at_xt <-
      match at_t with
      | Some s => tpointseq_linear_at_geom s gs
      | None => Ok None
      end ;;
    match at_xt with
    | None => Ok None
    | Some xt =>
        match zspan with
        | None => Ok (Some xt)
        | Some zs =>
            let box1 := tsequenceset_set_bbox E xt in
            let zspan1 := span_set (zmin box1) (zmax box1) true true in
            if overlaps_floatspan_floatspan zspan1 zs
            then
              let tfloat_z := tpoint_get_coord E xt 2 in
              match tnumber_restrict_span E tfloat_z zs REST_AT with
              | Some tfloat_zspan =>
                  let ss := temporal_time E tfloat_zspan in
                  Ok (tsequenceset_restrict_periodset E xt ss REST_AT)
              | None => Ok None
              end
            else Ok None
        end
    end.

(** [tpointseq_linear_restrict_geom_time]. *)
Definition tpointseq_linear_restrict_geom_time (seq : TSequence)
  (gs : GSERIALIZED E) (zspan : option (Span Q)) (period : option Period)
  (atfunc : bool) : result (option TSequenceSet) :=
  result_at <- tpointseq_linear_at_geom_time seq gs zspan period ;;
  if atfunc then Ok result_at
  else
    match result_at with
    | None => Ok (Some (tsequence_to_tsequenceset seq))
    | Some _ =>
        let ps := tsequenceset_time E result_at in
        Ok (tcontseq_restrict_periodset E seq ps atfunc)
    end.

(** [tpointseq_restrict_geom_time]. *)
Definition tpointseq_restrict_geom_time (seq : TSequence)
  (gs : GSERIALIZED E) (zspan : option (Span Q)) (period : option Period)
  (atfunc : bool) : result (option Temporal) :=
  match seq_interp seq with
  | DISCRETE =>
      Ok (option_map TSEQUENCE
            (tpointseq_disc_restrict_geom_time seq gs zspan period atfunc))
  | STEP =>
      Ok (option_map TSEQUENCESET
            (tpointseq_step_restrict_geom_time seq gs zspan period atfunc))
  | _ =>
      r <- tpointseq_linear_restrict_geom_time seq gs zspan period atfunc ;;
      Ok (option_map TSEQUENCESET r)
  end.

(** The cast of the result of the sequence function to a sequence set:
    "we can safely cast since the composing sequences are continuous".
    The cast of a value of another subtype has no meaning. *)
Definition as_tsequenceset (r : option Temporal)
  : result (option TSequenceSet) :=
  match r with
  | Some (TSEQUENCESET ss) => Ok (Some ss)
  | None => Ok None
  | Some _ => Error NoResult
  end.

(** [tpointseqset_restrict_geom_time]. *)
Definition tpointseqset_restrict_geom_time (ss : TSequenceSet)
  (gs : GSERIALIZED E) (zspan : option (Span Q)) (period : option Period)
  (atfunc : bool) : result (option TSequenceSet) :=
  match ss_sequences ss with
  | [seq] =>
      r <- tpointseq_restrict_geom_time seq gs zspan period atfunc ;;
      as_tsequenceset r
  | sequences =>
      let box2 := geo_set_stbox E gs in
      seqsets <-
        result_map
          (fun seq =>
             let box1 := tsequence_set_bbox E seq in
             if atfunc && negb (overlaps_stbox_stbox E box1 box2)
             then Ok None
             else
               r <- tpointseq_restrict_geom_time seq gs zspan period atfunc ;;
               as_tsequenceset r)
          sequences ;;
      let totalseqs :=
        fold_left
          (fun n o =>
             match o with
             | Some s => (n + length (ss_sequences s))%nat
             | None => n
             end) seqsets 0%nat in
      if (0 <? totalseqs)%nat
      then Ok (Some (tseqsetarr_to_tseqset E seqsets))
      else Ok None
  end.

(** The bounding box of the restriction: that of the geometry, with the
    Z span and the period when they are given. *)
Definition restriction_box (gs : GSERIALIZED E) (zspan : option (Span Q))
  (period : option Period) : STBox :=
  let box2 := geo_set_stbox E gs in
  let box2 :=
    match zspan with
    | Some zs =>
        mkSTBox (xmin box2) (xmax box2) (ymin box2) (ymax box2)
          (lower zs) (upper zs) (box_period box2) (box_srid box2)
          (box_hasx box2) true (box_hast box2) (box_geodetic box2)
    | None => box2
    end in
  match period with
  | Some p =>
      mkSTBox (xmin box2) (xmax box2) (ymin box2) (ymax box2)
        (zmin box2) (zmax box2) p (box_srid box2)
        (box_hasx box2) (box_hasz box2) true (box_geodetic box2)
  | None => box2
  end.

(** [tpoint_restrict_geom_time]. *)
Definition tpoint_restrict_geom_time (temp : Temporal) (gs : GSERIALIZED E)
  (zspan : option (Span Q)) (period : option Period) (atfunc : bool)
  : result (option Temporal) :=
  if gserialized_is_empty E gs
  then Ok (if atfunc then None else Some (temporal_copy temp))
  else
    _ <- ensure_same_srid (tpoint_srid temp) (gserialized_get_srid E gs) ;;
    _ <- ensure_has_not_Z_gs (gserialized_has_z E gs) ;;
    _ <- match zspan with
         | Some _ => ensure_has_Z (temporal_hasz temp)
         | None => Ok tt
         end ;;
    let box1 := temporal_set_bbox E temp in
    let box2 := restriction_box gs zspan period in
    let overlaps := overlaps_stbox_stbox E box1 box2 in
    if negb overlaps
    then Ok (if atfunc then None else Some (temporal_copy temp))
    else
      match temp with
      | TINSTANT inst =>
          Ok (option_map TINSTANT
                (tpointinst_restrict_geom_time inst gs zspan period atfunc))
      | TSEQUENCE seq =>
          tpointseq_restrict_geom_time seq gs zspan period atfunc
      | TSEQUENCESET ss =>
          r <- tpointseqset_restrict_geom_time ss gs zspan period atfunc ;;
          Ok (option_map TSEQUENCESET r)
      end.

End GeometryEngine.

(* ================================================================== *)
(** ** Box restriction engine *)
(* ================================================================== *)

Section BoxEngine.

Variable E : Collaborators.

(** [tpointseq_disc_restrict_stbox]. *)
Definition tpointseq_disc_restrict_stbox (seq : TSequence) (box : STBox)
  (border_inc atfunc : bool) : option TSequence :=
  if (seq_count seq =? 1)%nat then
    if tpointinst_restrict_stbox_iter (TSEQUENCE_INST_N seq 0) box border_inc
         atfunc
    then Some (tsequence_copy seq) else None
  else
    let instants :=
      filter (fun inst => tpointinst_restrict_stbox_iter inst box border_inc atfunc)
        (seq_instants seq) in
    if (0 <? length instants)%nat
    then Some (tsequence_make instants true true DISCRETE)
    else None.

(** [tpointseq_step_at_stbox_iter]. *)
Definition tpointseq_step_at_stbox_iter (seq : TSequence) (box : STBox)
  (border_inc : bool) : list TSequence :=
  step_at_iter seq (if box_hast box then Some (box_period box) else None)
    (fun inst => tpointinst_restrict_stbox_iter inst box border_inc REST_AT).

(** [tpointseq_step_restrict_stbox]. *)
Definition tpointseq_step_restrict_stbox (seq : TSequence) (box : STBox)
  (border_inc atfunc : bool) : option TSequenceSet :=
  if (seq_count seq =? 1)%nat then
    if tpointinst_restrict_stbox_iter (TSEQUENCE_INST_N seq 0) box border_inc
         atfunc
    then Some (tsequence_to_tsequenceset seq) else None
  else
    let sequences := tpointseq_step_at_stbox_iter seq box border_inc in
    if (length sequences =? 0)%nat
    then if atfunc then None else Some (tsequence_to_tsequenceset seq)
    else
      let result_at := tsequenceset_make_free E sequences NORMALIZE_NO in
      if atfunc then result_at
      else
        let ps := tsequenceset_time E result_at in
        tcontseq_restrict_periodset E seq ps atfunc.

(** The fragment, if any, that a segment with distinct end values gives
    in [tpointseq_linear_at_stbox_xyz]. *)
Definition linear_segment_at_stbox (inst1 inst2 : TInstant) (box : STBox)
  (hasz_seq hasz border_inc lower_inc upper_inc : bool)
  : result (list TSequence) :=
  let p1 := tinstant_value inst1 in
  let p2 := tinstant_value inst2 in
  clip <- of_option (cohenSutherlandClip p1 p2 box hasz border_inc) ;;
  if clip_found clip then
    p3 <- of_option (clip_p3 clip) ;;
    p4 <- of_option (clip_p4 clip) ;;
    flags <-
      (if negb border_inc then
         p3_inc <- of_option (clip_p3_inc clip) ;;
         p4_inc <- of_option (clip_p4_inc clip) ;;
         Ok (lower_inc && p3_inc, upper_inc && p4_inc)
       else Ok (lower_inc, upper_inc)) ;;
    let '(lower_inc1, upper_inc1) := flags in
    let inst1_loc :=
      if hasz_seq && negb hasz then tinstant_force2d inst1 else inst1 in
    t1 <- of_option (tpointsegm_timestamp_at_value1 inst1_loc inst2 p3) ;;
    t2 <- of_option (tpointsegm_timestamp_at_value1 inst1_loc inst2 p4) ;;
    let inter1 :=
      if negb (t1 =? inst_t inst1)%Z
      then tsegment_value_at_timestamp inst1 inst2 LINEAR t1 else p1 in
    let inter2 :=
      if negb (t2 =? inst_t inst2)%Z
      then tsegment_value_at_timestamp inst1 inst2 LINEAR t2 else p2 in
    if negb (t1 =? t2)%Z || negb (t1 =? inst_t inst2)%Z || upper_inc1 then
      let instants :=
        tinstant_make inter1 t1 ::
        (if negb (datum_point_eq inter1 inter2)
         then [tinstant_make inter2 t2] else []) in
      let j := length instants in
      Ok [tsequence_make instants
            (if (j =? 1)%nat then true else lower_inc1)
            (if (j =? 1)%nat then true else upper_inc1) LINEAR]
    else Ok []
  else Ok [].

(** The fragment, if any, of a constant segment. *)
Definition constant_segment_at_stbox (inst1 inst2 : TInstant) (box : STBox)
  (hasz border_inc lower_inc upper_inc : bool) : list TSequence :=
  let p1 := tinstant_value inst1 in
  let x := pt_x p1 in
  let y := pt_y p1 in
  let z := if hasz then pt_z p1 else 0 in
  let code := computeCode x y z hasz box in
  let max_code :=
    if negb border_inc then computeMaxBorderCode x y z hasz box else 0%Z in
  if (Z.lor code max_code =? 0)%Z
  then [tsequence_make [inst1; inst2] lower_inc upper_inc LINEAR]
  else [].

(** The loop over the segments in [tpointseq_linear_at_stbox_xyz]; an
    instant is the last one when none remains after it. *)
Fixpoint linear_at_stbox_loop (seq : TSequence) (box : STBox)
  (hasz_seq hasz border_inc : bool) (inst1 : TInstant) (lower_inc : bool)
  (rest : list TInstant) : result (list TSequence) :=
  match rest with
  | [] => Ok []
  | inst2 :: tl =>
      let upper_inc :=
        match tl with
        | [] => upper_inc (seq_period seq)
        | _ => false
        end in
      frags <-
        (if datum_point_eq (tinstant_value inst1) (tinstant_value inst2)
         then Ok (constant_segment_at_stbox inst1 inst2 box hasz border_inc
                    lower_inc upper_inc)
         else linear_segment_at_stbox inst1 inst2 box hasz_seq hasz border_inc
                lower_inc upper_inc) ;;
      more <- linear_at_stbox_loop seq box hasz_seq hasz border_inc inst2 true tl ;;
      Ok (frags ++ more)
  end.

(** [tpointseq_linear_at_stbox_xyz]: the array of sequences, [None] for
    [NULL]. *)
Definition tpointseq_linear_at_stbox_xyz (seq : TSequence) (box : STBox)
  (border_inc : bool) : result (option (list TSequence)) :=
  if (seq_count seq =? 1)%nat then
    if tpointinst_restrict_stbox_iter (TSEQUENCE_INST_N seq 0) box border_inc
         REST_AT
    then Ok (Some [tsequence_copy seq])
    else Ok None
  else
    let hasz_seq := seq_hasz seq in
    let hasz_box := box_hasz box in
    let hasz := hasz_seq && hasz_box in
    sequences <-
      linear_at_stbox_loop seq box hasz_seq hasz border_inc
        (TSEQUENCE_INST_N seq 0) (lower_inc (seq_period seq))
        (tl (seq_instants seq)) ;;
    Ok (Some sequences).

(** [tpointseq_linear_at_stbox_iter]. *)
Definition tpointseq_linear_at_stbox_iter (seq : TSequence) (box : STBox)
  (border_inc : bool) : result (option (list TSequence)) :=
  let hast := box_hast box in
  if (seq_count seq =? 1)%nat then
    if tpointinst_restrict_stbox_iter (TSEQUENCE_INST_N seq 0) box border_inc
         REST_AT
    then Ok (Some [tsequence_copy seq])
    else Ok None
  else
    let seq_t :=
      if hast then tcontseq_at_period E seq (box_period box) else Some seq in
    match seq_t with
    | Some s => tpointseq_linear_at_stbox_xyz s box border_inc
    | None => Ok None
    end.

(** [tpointseq_linear_restrict_stbox]. *)
Definition tpointseq_linear_restrict_stbox (seq : TSequence) (box : STBox)
  (border_inc atfunc : bool) : result (option TSequenceSet) :=
  sequences <- tpointseq_linear_at_stbox_iter seq box border_inc ;;
  match sequences with
  | None => Ok (if atfunc then None else Some (tsequence_to_tsequenceset seq))
  | Some l =>
      let result_at := tsequenceset_make_free E l NORMALIZE in
      if atfunc then Ok result_at
      else
        let ps := tsequenceset_time E result_at in
        Ok (tcontseq_restrict_periodset E seq ps atfunc)
  end.

(** [tpointseq_restrict_stbox]. *)
Definition tpointseq_restrict_stbox (seq : TSequence) (box : STBox)
  (border_inc atfunc : bool) : result (option Temporal) :=
  match seq_interp seq with
  | DISCRETE =>
      Ok (option_map TSEQUENCE
            (tpointseq_disc_restrict_stbox seq box border_inc atfunc))
  | STEP =>
      Ok (option_map TSEQUENCESET
            (tpointseq_step_restrict_stbox seq box border_inc atfunc))
  | _ =>
      r <- tpointseq_linear_restrict_stbox seq box border_inc atfunc ;;
      Ok (option_map TSEQUENCESET r)
  end.

(** [tpointseqset_restrict_stbox]. *)
Definition tpointseqset_restrict_stbox (ss : TSequenceSet) (box : STBox)
  (border_inc atfunc : bool) : result (option TSequenceSet) :=
  match ss_sequences ss with
  | [seq] =>
      r <- tpointseq_restrict_stbox seq box border_inc atfunc ;;
      as_tsequenceset r
  | sequences =>
      seqsets <-
        result_map
          (fun seq =>
             let box1 := tsequence_set_bbox E seq in
             if atfunc && negb (overlaps_stbox_stbox E box1 box)
             then Ok None
             else
               r <- tpointseq_restrict_stbox seq box border_inc atfunc ;;
               as_tsequenceset r)
          sequences ;;
      let totalseqs :=
        fold_left
          (fun n o =>
             match o with
             | Some s => (n + length (ss_sequences s))%nat
             | None => n
             end) seqsets 0%nat in
      if (0 <? totalseqs)%nat
      then Ok (Some (tseqsetarr_to_tseqset E seqsets))
      else Ok None
  end.

(** [tpoint_restrict_stbox]. *)
Definition tpoint_restrict_stbox (temp : Temporal) (box : STBox)
  (border_inc atfunc : bool) : result (option Temporal) :=
  let hasx := box_hasx box in
  let hast := box_hast box in
  if hast && negb hasx
  then Ok (temporal_restrict_period E temp (box_period box) atfunc)
  else
    _ <- ensure_same_srid (tpoint_srid temp) (box_srid box) ;;
    _ <- ensure_same_geodetic (temporal_geodetic temp) (box_geodetic box) ;;
    let box1 := temporal_set_bbox E temp in
    let overlaps := overlaps_stbox_stbox E box1 box in
    if negb overlaps
    then Ok (if atfunc then None else Some (temporal_copy temp))
    else
      match temp with
      | TINSTANT inst =>
          Ok (option_map TINSTANT
                (tpointinst_restrict_stbox inst box border_inc atfunc))
      | TSEQUENCE seq => tpointseq_restrict_stbox seq box border_inc atfunc
      | TSEQUENCESET ss =>
          r <- tpointseqset_restrict_stbox ss box border_inc atfunc ;;
          Ok (option_map TSEQUENCESET r)
      end.

End BoxEngine.

(** The time extent of a sequence is its period; a time point [t] lies in
    it when it is between the bounds, a bound counting only when it is
    inclusive. *)
Definition tsequence_time_contains (seq : TSequence) (t : TimestampTz) : bool :=
  contains_period_timestamp (seq_period seq) t.

(* ================================================================== *)
(** ** A reference implementation of the collaborators *)
(* ================================================================== *)

(** Concrete runs of the engine need concrete collaborators.  In this
    implementation a geometry is an axis-aligned rectangle, possibly
    empty; bounding boxes are computed from the coordinates; the
    restrictions to time spans, which no run below reaches, give no
    value. *)
Record RectGeom : Type := mkRectGeom {
  rg_empty : bool; rg_srid : Z; rg_hasz : bool;
  rg_xmin : Q; rg_xmax : Q; rg_ymin : Q; rg_ymax : Q }.

Definition rect_intersects2d (p : Point) (g : RectGeom) : bool :=
  negb (rg_empty g)
  && negb (Qltb (pt_x p) (rg_xmin g)) && negb (Qgtb (pt_x p) (rg_xmax g))
  && negb (Qltb (pt_y p) (rg_ymin g)) && negb (Qgtb (pt_y p) (rg_ymax g)).

Definition rect_stbox (g : RectGeom) : STBox :=
  mkSTBox (rg_xmin g) (rg_xmax g) (rg_ymin g) (rg_ymax g) 0 0
    (mkSpan 0%Z 0%Z true true) (rg_srid g) true false false false.

Definition temporal_instants (temp : Temporal) : list TInstant :=
  match temp with
  | TINSTANT inst => [inst]
  | TSEQUENCE seq => seq_instants seq
  | TSEQUENCESET ss => flat_map seq_instants (ss_sequences ss)
  end.

Definition instants_stbox (l : list TInstant) : STBox :=
  let first := hd default_instant l in
  let p := inst_value first in
  let xs := map (fun i => pt_x (inst_value i)) l in
  let ys := map (fun i => pt_y (inst_value i)) l in
  let zs := map (fun i => pt_z (inst_value i)) l in
  let ts := map inst_t l in
  mkSTBox (fold_right Min (pt_x p) xs) (fold_right Max (pt_x p) xs)
    (fold_right Min (pt_y p) ys) (fold_right Max (pt_y p) ys)
    (fold_right Min (pt_z p) zs) (fold_right Max (pt_z p) zs)
    (mkSpan (fold_right Z.min (inst_t first) ts)
            (fold_right Z.max (inst_t first) ts) true true)
    (pt_srid p) true (pt_hasz p) true (pt_geodetic p).

Definition rect_overlaps_stbox_stbox (b1 b2 : STBox) : bool :=
  (negb (box_hasx b1 && box_hasx b2)
   || (negb (Qltb (xmax b1) (xmin b2)) && negb (Qltb (xmax b2) (xmin b1))
       && negb (Qltb (ymax b1) (ymin b2)) && negb (Qltb (ymax b2) (ymin b1))))
  && (negb (box_hasz b1 && box_hasz b2)
      || (negb (Qltb (zmax b1) (zmin b2)) && negb (Qltb (zmax b2) (zmin b1))))
  && (negb (box_hast b1 && box_hast b2)
      || overlaps_span_span (box_period b1) (box_period b2)).

Definition rect_collaborators : Collaborators :=
  mkCollaborators RectGeom unit
    rg_empty rg_srid rg_hasz rect_intersects2d
    (fun g _ => g)
    (fun _ => mkRectGeom true 0%Z false 0 0 0 0)
    (fun _ => LWCOLLECTION [])
    rect_stbox
    (fun temp => instants_stbox (temporal_instants temp))
    (fun seq => instants_stbox (seq_instants seq))
    (fun ss => instants_stbox (flat_map seq_instants (ss_sequences ss)))
    rect_overlaps_stbox_stbox
    (fun l => l) (fun l => l) (fun l _ => l) (fun l => l)
    (fun l =>
       mkTSequenceSet
         (flat_map (fun o => match o with
                             | Some s => ss_sequences s
                             | None => []
                             end) l))
    (fun o => match o with
              | Some s => map seq_period (ss_sequences s)
              | None => []
              end)
    (fun _ _ _ => None) (fun _ _ => None) (fun _ _ _ => None)
    (fun _ _ _ => None)
    (fun _ _ => tt) (fun _ _ _ => None) (fun _ => []).

(** Points, instants and boxes with integer coordinates, for the
    concrete runs. *)
Definition point2d_of_Z (x y : Z) : POINT2D :=
  mkPOINT2D (inject_Z x) (inject_Z y).
Definition point_of_Z (x y : Z) : Point :=
  mkPoint (inject_Z x) (inject_Z y) 0 false false 0%Z.
Definition instant_of_Z (x y t : Z) : TInstant :=
  mkTInstant (point_of_Z x y) t.
Definition stbox_of_Z (x0 x1 y0 y1 : Z) : STBox :=
  mkSTBox (inject_Z x0) (inject_Z x1) (inject_Z y0) (inject_Z y1) 0 0
    (mkSpan 0%Z 0%Z true true) 0%Z true false false false.
Definition rect_of_Z (x0 x1 y0 y1 : Z) : RectGeom :=
  mkRectGeom false 0%Z false (inject_Z x0) (inject_Z x1) (inject_Z y0)
    (inject_Z y1).

(* ================================================================== *)
(** ** Predicates used in the statements *)
(* ================================================================== *)

(** The two segments have an end point in common. *)
Definition shares_endpoint (a b c d : POINT2D) : bool :=
  point2d_same b c || point2d_same b d || point2d_same a c || point2d_same a d.

(** The four side tests of [seg2d_intersection] all give zero: the
    segments are collinear up to the epsilon. *)
Definition sides_all_zero (a b c d : POINT2D) : bool :=
  ((seg2d_side a b c =? 0) && (seg2d_side a b d =? 0)
   && (seg2d_side c d a =? 0) && (seg2d_side c d b =? 0))%Z.

(** The test of [parseg2d_intersection]: the intersection of the bounding
    boxes of the two segments is not a point. *)
Definition envelopes_beyond_point (a b c d : POINT2D) : bool :=
  Qltb (Max (Min (p2x a) (p2x b)) (Min (p2x c) (p2x d)))
       (Min (Max (p2x a) (p2x b)) (Max (p2x c) (p2x d)))
  || Qltb (Max (Min (p2y a) (p2y b)) (Min (p2y c) (p2y d)))
          (Min (Max (p2y a) (p2y b)) (Max (p2y c) (p2y d))).

(** The position of a coordinate with respect to the bounds of its axis,
    as [computeCode] tests it: below the minimum, else above the maximum,
    else within. *)
Inductive AxisPos : Type := Below | Within | Above.

Definition axis_pos (lo hi v : Q) : AxisPos :=
  if Qltb v lo then Below else if Qgtb v hi then Above else Within.

(** The region code of three axis positions. *)
Definition code_of_pos (px py pz : AxisPos) : Z :=
  let code := INSIDE in
  let code :=
    match px with
    | Below => Z.lor code LEFT | Above => Z.lor code RIGHT | Within => code
    end in
  let code :=
    match py with
    | Below => Z.lor code BOTTOM | Above => Z.lor code TOP | Within => code
    end in
  match pz with
  | Below => Z.lor code FRONT | Above => Z.lor code BACK | Within => code
  end.

(** The axis positions of a point; the Z axis counts only with [hasz]. *)
Definition pos_x (box : STBox) (x : Q) : AxisPos :=
  axis_pos (xmin box) (xmax box) x.
Definition pos_y (box : STBox) (y : Q) : AxisPos :=
  axis_pos (ymin box) (ymax box) y.
Definition pos_z (box : STBox) (hasz : bool) (z : Q) : AxisPos :=
  if hasz then axis_pos (zmin box) (zmax box) z else Within.

(** The number of faces of an axis that one of two positions violates. *)
Definition axis_open (p1 p2 : AxisPos) : nat :=
  (match p1, p2 with Below, _ | _, Below => 1 | _, _ => 0 end
   + match p1, p2 with Above, _ | _, Above => 1 | _, _ => 0 end)%nat.

(** The measure of the clipping loop: the number of faces of the box
    that an end point of the current segment violates. *)
Definition clip_measure (hasz : bool) (box : STBox) (st : ClipState) : nat :=
  (axis_open (pos_x box (cs_x1 st)) (pos_x box (cs_x2 st))
   + axis_open (pos_y box (cs_y1 st)) (pos_y box (cs_y2 st))
   + axis_open (pos_z box hasz (cs_z1 st)) (pos_z box hasz (cs_z2 st)))%nat.

(** The codes of a state are the region codes of its points. *)
Definition clip_state_ok (hasz : bool) (box : STBox) (st : ClipState) : Prop :=
  cs_code1 st = computeCode (cs_x1 st) (cs_y1 st) (cs_z1 st) hasz box
  /\ cs_code2 st = computeCode (cs_x2 st) (cs_y2 st) (cs_z2 st) hasz box.

(** The loop stops at a state: both codes are zero or they share a bit. *)
Definition clip_terminal (st : ClipState) : bool :=
  (Z.lor (cs_code1 st) (cs_code2 st) =? 0)%Z
  || negb (Z.land (cs_code1 st) (cs_code2 st) =? 0)%Z.

(** [n] lies in the closed interval spanned by [a] and [b]. *)
Definition between (a b n : Q) : Prop :=
  (a <= n /\ n <= b) \/ (b <= n /\ n <= a).

(** A point inside the closed box and a point at least [MEOS_EPSILON]
    below each maximum of the box. *)
Definition inside_box (x y z : Q) (hasz : bool) (box : STBox) : Prop :=
  xmin box <= x /\ x <= xmax box /\ ymin box <= y /\ y <= ymax box
  /\ (hasz = true -> zmin box <= z /\ z <= zmax box).

Definition clear_of_max (x y z : Q) (hasz : bool) (box : STBox) : Prop :=
  MEOS_EPSILON <= xmax box - x /\ MEOS_EPSILON <= ymax box - y
  /\ (hasz = true -> MEOS_EPSILON <= zmax box - z).

(** The coordinates read from a point value: the Z coordinate counts
    only with [hasz]. *)
Definition point_z (hasz : bool) (p : Point) : Q :=
  if hasz then pt_z p else 0.

(** The instant is within the time dimension of the box, if any. *)
Definition time_inside (inst : TInstant) (box : STBox) : bool :=
  negb (box_hast box)
  || contains_period_timestamp (box_period box) (inst_t inst).

(** A coordinate strictly between the bounds of its axis. *)
Definition strictly_within (lo hi v : Q) : Prop := lo < v /\ v < hi.

(** A point exactly on a maximum edge of the box, its other coordinates
    strictly inside; the bounds of the edge's axis are ordered. *)
Definition on_max_edge (x y z : Q) (hasz : bool) (box : STBox) : Prop :=
  (x == xmax box /\ xmin box <= xmax box
   /\ strictly_within (ymin box) (ymax box) y
   /\ (hasz = true -> strictly_within (zmin box) (zmax box) z))
  \/ (strictly_within (xmin box) (xmax box) x
      /\ y == ymax box /\ ymin box <= ymax box
      /\ (hasz = true -> strictly_within (zmin box) (zmax box) z))
  \/ (hasz = true
      /\ strictly_within (xmin box) (xmax box) x
      /\ strictly_within (ymin box) (ymax box) y
      /\ z == zmax box /\ zmin box <= zmax box).

(** A point exactly on a minimum edge of the box, its other coordinates
    strictly inside; the bounds of the edge's axis are ordered. *)
Definition on_min_edge (x y z : Q) (hasz : bool) (box : STBox) : Prop :=
  (x == xmin box /\ xmin box <= xmax box
   /\ strictly_within (ymin box) (ymax box) y
   /\ (hasz = true -> strictly_within (zmin box) (zmax box) z))
  \/ (strictly_within (xmin box) (xmax box) x
      /\ y == ymin box /\ ymin box <= ymax box
      /\ (hasz = true -> strictly_within (zmin box) (zmax box) z))
  \/ (hasz = true
      /\ strictly_within (xmin box) (xmax box) x
      /\ strictly_within (ymin box) (ymax box) y
      /\ z == zmin box /\ zmin box <= zmax box).

(** The step sequence that visits [(0,0)], [(1,1)] and [(0,0)] again. *)
Definition step_revisit : TSequence :=
  tsequence_make
    [instant_of_Z 0 0 1; instant_of_Z 1 1 2; instant_of_Z 0 0 3]
    true true STEP.

(** A box one tenth of a micro-unit wide. *)
Definition thin_box : STBox :=
  mkSTBox 0 (1 # 10000000) 0 10 0 0 (mkSpan 0%Z 0%Z true true) 0%Z
    true false false false.

(** The linear sequence from [(0,0)] at time 1, excluded, to [(1,1)] at
    time 2, included. *)
Definition open_start_segment : TSequence :=
  tsequence_make [instant_of_Z 0 0 1; instant_of_Z 1 1 2] false true LINEAR.

(** The step sequence of the scenario: [v1] from [t1], [v2] from [t2]
    until [t3], excluded. *)
Definition step_two_values (v1 v2 : Point) (t1 t2 t3 : TimestampTz)
  : TSequence :=
  tsequence_make
    [mkTInstant v1 t1; mkTInstant v2 t2; mkTInstant v2 t3] true false STEP.

(** A geometry far from the origin, in another reference system. *)
Definition far_rect_other_srid : RectGeom :=
  mkRectGeom false 4326%Z false 100 200 100 200.

(** The box that touches [open_start_segment] at its start point only,
    and the instantaneous sequence at that point. *)
Definition corner_box : STBox := stbox_of_Z (-1) 0 (-1) 0.
Definition start_point_sequence : TSequence :=
  tsequence_make [instant_of_Z 0 0 1] true true LINEAR.

(** The Z dimension counts when both the instant and the box have it. *)
Definition inst_box_hasz (inst : TInstant) (box : STBox) : bool :=
  inst_hasz inst && box_hasz box.

(** The coordinates of an instant as the box primitive reads them. *)
Definition inst_x (inst : TInstant) : Q := pt_x (inst_value inst).
Definition inst_y (inst : TInstant) : Q := pt_y (inst_value inst).
Definition inst_z (inst : TInstant) (box : STBox) : Q :=
  point_z (inst_box_hasz inst box) (inst_value inst).

(** The output point of the clipping for an end point left where it is;
    the reference system is that of the first input point. *)
Definition clip_output (hasz : bool) (srid : Z) (p : Point) : Point :=
  gspoint_make (pt_x p) (pt_y p) (point_z hasz p) hasz false srid.

(** Concrete values for the runs. *)
Definition origin_instant : Temporal := TINSTANT (instant_of_Z 0 0 1).
Definition empty_rect : RectGeom := mkRectGeom true 0%Z false 0 0 0 0.
Definition unit_square : STBox := stbox_of_Z 0 10 0 10.
Definition step_equal_pair : TSequence :=
  tsequence_make [instant_of_Z 0 0 1; instant_of_Z 0 0 2] true false STEP.
Definition discrete_single : TSequence :=
  tsequence_make [instant_of_Z 0 0 1] true true DISCRETE.
Definition linear_still_pair : TSequence :=
  tsequence_make [instant_of_Z 0 0 1; instant_of_Z 0 0 2] true true LINEAR.
Definition step_distinct_pair : TSequence :=
  tsequence_make [instant_of_Z 0 0 1; instant_of_Z 1 1 2] true true STEP.
Definition step_revisit_head : TSequence :=
  tsequence_make
    [instant_of_Z 0 0 1; instant_of_Z 1 1 2; instant_of_Z 1 1 3]
    true false STEP.
Definition step_revisit_tail : TSequence :=
  tsequence_make [instant_of_Z 0 0 3] true true INTERP_NONE.

(** The bits of a region code, read from the axis positions. *)
Definition is_below (p : AxisPos) : bool :=
  match p with Below => true | _ => false end.
Definition is_above (p : AxisPos) : bool :=
  match p with Above => true | _ => false end.
Definition is_within (p : AxisPos) : bool :=
  match p with Within => true | _ => false end.
Definition common_side (p q : AxisPos) : bool :=
  is_below p && is_below q || is_above p && is_above q.

(* ================================================================== *)
(** ** Entry points of the library *)
(* ================================================================== *)

(** [tpoint_at_geom_time] and [tpoint_minus_geom_time]. *)
Definition tpoint_at_geom_time (E : Collaborators) (temp : Temporal)
  (gs : GSERIALIZED E) (zspan : option (Span Q)) (period : option Period)
  : result (option Temporal) :=
  tpoint_restrict_geom_time E temp gs zspan period REST_AT.

Definition tpoint_minus_geom_time (E : Collaborators) (temp : Temporal)
  (gs : GSERIALIZED E) (zspan : option (Span Q)) (period : option Period)
  : result (option Temporal) :=
  tpoint_restrict_geom_time E temp gs zspan period REST_MINUS.

(** [tpoint_at_stbox] and [tpoint_minus_stbox]. *)
Definition tpoint_at_stbox (E : Collaborators) (temp : Temporal) (box : STBox)
  (border_inc : bool) : result (option Temporal) :=
  tpoint_restrict_stbox E temp box border_inc REST_AT.

Definition tpoint_minus_stbox (E : Collaborators) (temp : Temporal)
  (box : STBox) (border_inc : bool) : result (option Temporal) :=
  tpoint_restrict_stbox E temp box border_inc REST_MINUS.

(* ================================================================== *)
(** ** Further predicates used in the statements *)
(* ================================================================== *)

(** Two planar points have equal coordinates. *)
Definition point2d_equiv (p q : POINT2D) : Prop :=
  p2x p == p2x q /\ p2y p == p2y q.

(** An instant or a sequence with discrete interpolation: a temporal
    value defined at isolated timestamps only. *)
Definition is_discrete (temp : Temporal) : bool :=
  match temp with
  | TINSTANT _ => true
  | TSEQUENCE seq =>
      match seq_interp seq with DISCRETE => true | _ => false end
  | TSEQUENCESET _ => false
  end.

(** The instants of a result; a missing result has none. *)
Definition result_instants (r : option Temporal) : list TInstant :=
  match r with
  | Some temp => temporal_instants temp
  | None => []
  end.

(** The values at the positions [s], ..., [e - 1] of an array are
    pairwise different. *)
Definition values_distinct (vals : list Point) (s e : nat) : Prop :=
  forall j k, (s <= j)%nat -> (j < k)%nat -> (k < e)%nat ->
  datum_point_eq (nth j vals default_point) (nth k vals default_point) = false.

(** The number of cells of a boolean array that are set. *)
Definition count_set (l : list bool) : nat := length (filter (fun b => b) l).

(** The splits of a boolean array cut the values into pieces without
    repetition: the values at [s], ..., [e - 1] are pairwise different
    whenever no split lies strictly between [s] and [e]. *)
Definition pieces_distinct (vals : list Point) (bitarr : list bool)
  (count : nat) : Prop :=
  forall s e, (s < e)%nat -> (e <= count)%nat ->
  (forall i, (s < i)%nat -> (i < e)%nat -> nth i bitarr false = false) ->
  values_distinct vals s e.

(** The values of a list are pairwise different. *)
Fixpoint all_differ (l : list Point) : Prop :=
  match l with
  | [] => True
  | p :: tl => (forall q, In q tl -> datum_point_eq p q = false) /\ all_differ tl
  end.

(** The cells of a boolean array that are set lie strictly between the
    first and the last of [count] cells, and before the position [i]. *)
Definition splits_inside (bitarr : list bool) (count i : nat) : Prop :=
  forall k, nth k bitarr false = true ->
  (1 <= k)%nat /\ (k <= count - 2)%nat /\ (k < i)%nat.

(** The segment that ends at the position [i] is stationary: its end
    points have the same planar coordinates. *)
Definition stationary_at (points : list POINT2D) (i : nat) : bool :=
  Qeqb (p2x (nth (i - 1) points (mkPOINT2D 0 0)))
       (p2x (nth i points (mkPOINT2D 0 0)))
  && Qeqb (p2y (nth (i - 1) points (mkPOINT2D 0 0)))
          (p2y (nth i points (mkPOINT2D 0 0))).

(** The periods of a list follow one another from [lo] to [hi]: each
    starts at the upper bound of the previous one, a shared bound
    belonging to the later period only; the first starts at [lo] and the
    last ends at [hi], with the given inclusion flags. *)
Fixpoint periods_chain (lo : TimestampTz) (lo_inc : bool) (hi : TimestampTz)
  (hi_inc : bool) (l : list Period) : Prop :=
  match l with
  | [] => False
  | p :: rest =>
      lower p = lo /\ lower_inc p = lo_inc
      /\ match rest with
         | [] => upper p = hi /\ upper_inc p = hi_inc
         | _ => upper_inc p = false
                /\ periods_chain (upper p) true hi hi_inc rest
         end
  end.

(** The period of a sequence runs from its first to its last instant. *)
Definition period_of_instants (seq : TSequence) : Prop :=
  lower (seq_period seq) = inst_t (TSEQUENCE_INST_N seq 0)
  /\ upper (seq_period seq) = inst_t (TSEQUENCE_INST_N seq (seq_count seq - 1)).

(** The number of fragments that [tpointseq_make_simple] stores in its
    output parameter [count]. *)
Definition tpointseq_make_simple_count (seq : TSequence) : option nat :=
  let interp := seq_interp seq in
  let is_discrete := match interp with DISCRETE => true | _ => false end in
  if (is_discrete && (seq_count seq =? 1)%nat)
     || (negb is_discrete && (seq_count seq <=? 2)%nat)
  then Some 1%nat
  else
    match (if MEOS_FLAGS_GET_LINEAR seq
           then tpointseq_linear_find_splits seq
           else tpointseq_discstep_find_splits seq) with
    | None => None
    | Some (splits, numsplits) =>
        if (numsplits =? 0)%nat then Some 1%nat
        else Some (numsplits + 1)%nat
    end.

(** The discrete sequence that visits [(0,0)], [(1,1)] and [(0,0)]
    again, and the linear sequence through the same points. *)
Definition discrete_revisit : TSequence :=
  tsequence_make
    [instant_of_Z 0 0 1; instant_of_Z 1 1 2; instant_of_Z 0 0 3]
    true true DISCRETE.
Definition linear_revisit : TSequence :=
  tsequence_make
    [instant_of_Z 0 0 1; instant_of_Z 1 1 2; instant_of_Z 0 0 3]
    true true LINEAR.

(** A linear sequence that stays at [(1,1)] between its second and third
    instants. *)
Definition linear_pause : TSequence :=
  tsequence_make
    [instant_of_Z 0 0 1; instant_of_Z 1 1 2; instant_of_Z 1 1 3;
     instant_of_Z 2 0 4]
    true true LINEAR.

(** The box and the geometry reduced to the origin, and the two parts of
    [discrete_revisit] with respect to them. *)
Definition origin_box : STBox := stbox_of_Z 0 0 0 0.
Definition origin_rect : RectGeom := rect_of_Z 0 0 0 0.
Definition discrete_revisit_at_origin : TSequence :=
  tsequence_make [instant_of_Z 0 0 1; instant_of_Z 0 0 3] true true DISCRETE.
Definition discrete_revisit_away : TSequence :=
  tsequence_make [instant_of_Z 1 1 2] true true DISCRETE.

(** The fragments of a step iteration over [seq] with the membership
    test [test] fit the arrays allocated for them, with [seq->count]
    cells each: there are at most [seq->count] fragments of at most
    [seq->count] instants.  Every fragment has step interpolation and an
    instant at least, and takes its values from instants of [seq] that
    pass the test. *)
Definition step_fragments_ok (seq : TSequence) (test : TInstant -> bool)
  (frags : list TSequence) : Prop :=
  (length frags <= seq_count seq)%nat
  /\ Forall (fun f =>
       seq_interp f = STEP
       /\ (1 <= seq_count f)%nat /\ (seq_count f <= seq_count seq)%nat
       /\ forall inst, In inst (seq_instants f) ->
          exists inst0, In inst0 (seq_instants seq) /\ test inst0 = true
            /\ tinstant_value inst = tinstant_value inst0) frags.

(** A fragment of the linear restriction to a box: linear interpolation,
    one or two instants, and inclusive bounds when it is reduced to one
    instant. *)
Definition linear_fragment_ok (f : TSequence) : Prop :=
  seq_interp f = LINEAR
  /\ (seq_count f = 1%nat \/ seq_count f = 2%nat)
  /\ (seq_count f = 1%nat ->
      lower_inc (seq_period f) = true /\ upper_inc (seq_period f) = true).

(** The number of sequences of a temporal point, an instant counting
    for one. *)
Definition num_sequences (temp : Temporal) : nat :=
  match temp with
  | TINSTANT _ => 1%nat
  | TSEQUENCE _ => 1%nat
  | TSEQUENCESET ss => length (ss_sequences ss)
  end.

(** Every split of a boolean array is put where a value repeats: the
    value at a cell that is set is the value at an earlier position of
    the same piece, no cell being set strictly between the two. *)
Definition splits_repeat (vals : list Point) (bitarr : list bool) : Prop :=
  forall k, nth k bitarr false = true ->
  exists j, (j < k)%nat
    /\ (forall i, (j < i)%nat -> (i < k)%nat -> nth i bitarr false = false)
    /\ datum_point_eq (nth j vals default_point) (nth k vals default_point)
       = true.

(** A sequence set of two sequences. *)
Definition two_sequences : TSequenceSet :=
  mkTSequenceSet [step_distinct_pair; linear_revisit].

(** The fragments of a list are linked: the first one starts with the
    instant [first] and each of the others starts with the last instant
    of the one before. *)
Fixpoint fragments_linked (first : TInstant) (frags : list TSequence) : Prop :=
  match frags with
  | [] => True
  | f :: rest =>
      hd default_instant (seq_instants f) = first
      /\ fragments_linked (last (seq_instants f) default_instant) rest
  end.

(* ================================================================== *)
(** ** Binary64 arithmetic and the clipping on doubles *)
(* ================================================================== *)

(** The doubles of the C code are IEEE-754 binary64 numbers, and an
    operation on doubles gives the rounding of its exact result.
    [round_b64 q] is the binary64 number nearest to the rational [q],
    ties going to the even significand: the significand [m] has 53 bits,
    [2^52 <= m < 2^53], and the value is [m * 2^e].  The exponent is not
    bounded: overflow, subnormal numbers, infinities and NaN are outside
    this model.  The result is in lowest terms, so that equal doubles are
    equal terms. *)
Definition round_b64 (q : Q) : Q :=
  let n := Qnum q in
  let d := Zpos (Qden q) in
  if (n =? 0)%Z then 0
  else
    let a := Z.abs n in
    let scaled (e : Z) : Z * Z :=
      if (0 <=? e)%Z then (a, d * 2 ^ e)%Z else (a * 2 ^ (- e), d)%Z in
    let e0 := (Z.log2 a - Z.log2 d - 52)%Z in
    let e :=
      if (fst (scaled e0) / snd (scaled e0) <? 2 ^ 52)%Z
      then (e0 - 1)%Z else e0 in
    let '(num, den) := scaled e in
    let m := (num / den)%Z in
    let r := (num mod den)%Z in
    let m' :=
      match (2 * r ?= den)%Z with
      | Lt => m
      | Gt => (m + 1)%Z
      | Eq => if Z.even m then m else (m + 1)%Z
      end in
    let v := (Z.sgn n * m')%Z in
    Qred (if (0 <=? e)%Z then inject_Z (v * 2 ^ e)
          else Qmake v (Z.to_pos (2 ^ (- e)))).

Section Rounded.

(** The rounding applied to the exact result of each operation on
    doubles: [round_b64] for the C code, the identity for the exact
    reading of the formulas. *)
Variable rnd : Q -> Q.

Definition fl_add (a b : Q) : Q := rnd (a + b).
Definition fl_sub (a b : Q) : Q := rnd (a - b).
Definition fl_mul (a b : Q) : Q := rnd (a * b).
Definition fl_div (a b : Q) : Q := rnd (a / b).

(** [c1 + (c2 - c1) * (bound - b1) / (b2 - b1)] as C evaluates it: the
    two differences, their product, the quotient and the sum, each
    rounded. *)
Definition clip_coordinate (c1 c2 b1 b2 bound : Q) : Q :=
  fl_add c1 (fl_div (fl_mul (fl_sub c2 c1) (fl_sub bound b1)) (fl_sub b2 b1)).

(** The intersection of the segment with the face selected by
    [code_out], on doubles; [None] when no branch of the cascade assigns
    the point. *)
Definition clip_intersection_rounded (x1 y1 z1 x2 y2 z2 : Q) (hasz : bool)
  (box : STBox) (code_out : Z) : option (Q * Q * Q) :=
  if has_bit code_out LEFT then
    Some (xmin box,
          clip_coordinate y1 y2 x1 x2 (xmin box),
          if hasz then clip_coordinate z1 z2 x1 x2 (xmin box) else 0)
  else if has_bit code_out RIGHT then
    Some (xmax box,
          clip_coordinate y1 y2 x1 x2 (xmax box),
          if hasz then clip_coordinate z1 z2 x1 x2 (xmax box) else 0)
  else if has_bit code_out BOTTOM then
    Some (clip_coordinate x1 x2 y1 y2 (ymin box),
          ymin box,
          if hasz then clip_coordinate z1 z2 y1 y2 (ymin box) else 0)
  else if has_bit code_out TOP then
    Some (clip_coordinate x1 x2 y1 y2 (ymax box),
          ymax box,
          if hasz then clip_coordinate z1 z2 y1 y2 (ymax box) else 0)
  else if hasz && has_bit code_out FRONT then
    Some (clip_coordinate x1 x2 z1 z2 (zmin box),
          clip_coordinate y1 y2 z1 z2 (zmin box),
          zmin box)
  else if hasz && has_bit code_out BACK then
    Some (clip_coordinate x1 x2 z1 z2 (zmax box),
          clip_coordinate y1 y2 z1 z2 (zmax box),
          zmax box)
  else None.

(** One pass of the body of [while (true)] on doubles: [inr] is a
    [break]. *)
Definition clip_step_rounded (hasz : bool) (box : STBox) (st : ClipState)
  : ClipState + ClipLoop :=
  let code1 := cs_code1 st in
  let code2 := cs_code2 st in
  if (Z.lor code1 code2 =? 0)%Z then inr (ClipEnd true st)
  else if negb (Z.land code1 code2 =? 0)%Z then inr (ClipEnd false st)
  else
    let code_out := if negb (code1 =? 0)%Z then code1 else code2 in
    match clip_intersection_rounded (cs_x1 st) (cs_y1 st) (cs_z1 st)
            (cs_x2 st) (cs_y2 st) (cs_z2 st) hasz box code_out with
    | None => inr ClipUnassigned
    | Some (x, y, z) =>
        if (code_out =? code1)%Z then
          let z1 := if hasz then z else cs_z1 st in
          inl (mkClipState x y z1 (computeCode x y z1 hasz box)
                 (cs_x2 st) (cs_y2 st) (cs_z2 st) code2)
        else
          let z2 := if hasz then z else cs_z2 st in
          inl (mkClipState (cs_x1 st) (cs_y1 st) (cs_z1 st) code1
                 x y z2 (computeCode x y z2 hasz box))
    end.

(** The loop [while (true)] on doubles, run for [fuel] passes at most:
    [ClipOutOfFuel] when no [break] is reached within them. *)
Fixpoint clip_loop_rounded (fuel : nat) (hasz : bool) (box : STBox)
  (st : ClipState) : ClipLoop :=
  match fuel with
  | O => ClipOutOfFuel
  | S fuel' =>
      match clip_step_rounded hasz box st with
      | inr r => r
      | inl st' => clip_loop_rounded fuel' hasz box st'
      end
  end.

(** [computeMaxBorderCode] on doubles. *)
Definition computeMaxBorderCode_rounded (x y z : Q) (hasz : bool)
  (box : STBox) : Z :=
  let code := INSIDE in
  let code :=
    if Qltb (fl_sub (xmax box) x) (rnd MEOS_EPSILON)
    then Z.lor code XMAX else code in
  let code :=
    if Qltb (fl_sub (ymax box) y) (rnd MEOS_EPSILON)
    then Z.lor code YMAX else code in
  if hasz && Qltb (fl_sub (zmax box) z) (rnd MEOS_EPSILON)
  then Z.lor code ZMAX else code.

(** The code after the loop, on doubles. *)
Definition clip_finish_rounded (srid : Z) (box : STBox)
  (hasz border_inc : bool) (found : bool) (st : ClipState) : ClipResult :=
  if found then
    let p3 := gspoint_make (cs_x1 st) (cs_y1 st) (cs_z1 st) hasz false srid in
    let p4 := gspoint_make (cs_x2 st) (cs_y2 st) (cs_z2 st) hasz false srid in
    if negb border_inc then
      let max_code1 :=
        computeMaxBorderCode_rounded (cs_x1 st) (cs_y1 st) (cs_z1 st) hasz box in
      let max_code2 :=
        computeMaxBorderCode_rounded (cs_x2 st) (cs_y2 st) (cs_z2 st) hasz box in
      if negb (Z.land max_code1 max_code2 =? 0)%Z
      then mkClipResult false None None None None
      else mkClipResult true (Some p3) (Some p4)
             (Some (max_code1 =? 0)%Z) (Some (max_code2 =? 0)%Z)
    else mkClipResult true (Some p3) (Some p4) None None
  else mkClipResult false None None None None.

(** [cohenSutherlandClip] on doubles, its loop run for [fuel] passes at
    most: the result is [None] when the loop reaches no [break] within
    them, as for a call that does not return, or reads an unassigned
    intersection point. *)
Definition cohenSutherlandClip_rounded (fuel : nat) (p1 p2 : Point)
  (box : STBox) (hasz border_inc : bool) : option ClipResult :=
  match clip_loop_rounded fuel hasz box (clip_init p1 p2 box hasz) with
  | ClipEnd found st =>
      Some (clip_finish_rounded (pt_srid p1) box hasz border_inc found st)
  | ClipUnassigned | ClipOutOfFuel => None
  end.

End Rounded.

(** The doubles written [0.3] and [0.9] in C, and the double that
    follows [0.9]. *)
Definition b64_three_tenths : Q := round_b64 (3 # 10).
Definition b64_nine_tenths : Q := round_b64 (9 # 10).
Definition b64_above_nine_tenths : Q := 4053239664633447 # 4503599627370496.

(** The segment from [(0.3, 0.3)] to [(1, 1)] and the box
    [[0, 0.9] x [0, 0.9]], on doubles. *)
Definition three_tenths_point : Point :=
  mkPoint b64_three_tenths b64_three_tenths 0 false false 0%Z.
Definition unit_point : Point := point_of_Z 1 1.
Definition nine_tenths_box : STBox :=
  mkSTBox 0 b64_nine_tenths 0 b64_nine_tenths 0 0
    (mkSpan 0%Z 0%Z true true) 0%Z true false false false.

(** The two states between which the clipping of that segment
    alternates: the second point is above the box by one unit in the
    last place, then to its right by as much. *)
Definition clip_state_above : ClipState :=
  mkClipState b64_three_tenths b64_three_tenths 0 INSIDE
    b64_nine_tenths b64_above_nine_tenths 0 TOP.
Definition clip_state_right : ClipState :=
  mkClipState b64_three_tenths b64_three_tenths 0 INSIDE
    b64_above_nine_tenths b64_nine_tenths 0 RIGHT.


(* ================================================================== *)
(** * Properties *)
(* ================================================================== *)

(** ** Comparisons *)

Lemma Qltb_lt (a b : Q) : Qltb a b = true <-> a < b.
Proof. unfold Qltb, Qlt. apply Z.ltb_lt. Qed.

Lemma Qltb_ge (a b : Q) : Qltb a b = false <-> b <= a.
Proof. unfold Qltb, Qle. apply Z.ltb_ge. Qed.

Lemma Qltb_reflect (a b : Q) : reflect (a < b) (Qltb a b).
Proof. apply iff_reflect. symmetry. apply Qltb_lt. Qed.

Lemma Qeqb_eq (a b : Q) : Qeqb a b = true <-> a == b.
Proof. unfold Qeqb. apply Qeq_bool_iff. Qed.

Lemma Qeqb_neq (a b : Q) : Qeqb a b = false <-> ~ a == b.
Proof.
  unfold Qeqb. split; intros H.
  - intros E. apply Qeq_bool_iff in E. congruence.
  - destruct (Qeq_bool a b) eqn:B; [|reflexivity].
    apply Qeq_bool_iff in B. contradiction.
Qed.

(** Case analysis on every comparison of doubles in the goal. *)
Ltac qcases :=
  repeat match goal with
  | |- context [Qltb ?a ?b] =>
      let H := fresh "C" in
      destruct (Qltb a b) eqn:H;
      [apply Qltb_lt in H | apply Qltb_ge in H]
  | |- context [Qeqb ?a ?b] =>
      let H := fresh "C" in
      destruct (Qeqb a b) eqn:H;
      [apply Qeqb_eq in H | apply Qeqb_neq in H]
  end.

Lemma Min_le_l x y : Min x y <= x.
Proof. unfold Min. qcases; lra. Qed.
Lemma Min_le_r x y : Min x y <= y.
Proof. unfold Min. qcases; lra. Qed.
Lemma Max_ge_l x y : x <= Max x y.
Proof. unfold Max, Qgtb. qcases; lra. Qed.
Lemma Max_ge_r x y : y <= Max x y.
Proof. unfold Max, Qgtb. qcases; lra. Qed.
Lemma Min_cases x y : (Min x y = x /\ x <= y) \/ (Min x y = y /\ y <= x).
Proof. unfold Min. qcases; [left|right]; split; auto; lra. Qed.
Lemma Max_cases x y : (Max x y = x /\ y <= x) \/ (Max x y = y /\ x <= y).
Proof. unfold Max, Qgtb. qcases; [left|right]; split; auto; lra. Qed.

Lemma MEOS_EPSILON_pos : 0 < MEOS_EPSILON.
Proof. reflexivity. Qed.
Lemma FP_TOLERANCE_pos : 0 < FP_TOLERANCE.
Proof. reflexivity. Qed.

(** ** The side test *)

Lemma Qabs_cases (x : Q) :
  (0 <= x /\ Qabs x == x) \/ (x < 0 /\ Qabs x == - x).
Proof.
  destruct (Qlt_le_dec x 0) as [H|H].
  - right. split; [exact H|]. apply Qabs_neg. lra.
  - left. split; [exact H|]. apply Qabs_pos. exact H.
Qed.

Lemma seg2d_side_zero p1 p2 q :
  seg2d_side p1 p2 q = 0%Z <-> Qabs (side_value p1 p2 q) < MEOS_EPSILON.
Proof.
  unfold seg2d_side, SIGNUM, Qgtb. pose proof MEOS_EPSILON_pos as He.
  destruct (Qabs_cases (side_value p1 p2 q)) as [[H0 Ha]|[H0 Ha]];
    destruct (Qltb_reflect (Qabs (side_value p1 p2 q)) MEOS_EPSILON) as [H|H];
    try tauto;
    (split; [|tauto]); intros E; exfalso;
    destruct (Qltb_reflect (side_value p1 p2 q) 0) as [H1|H1]; try discriminate;
    destruct (Qltb_reflect 0 (side_value p1 p2 q)) as [H2|H2]; try discriminate;
    lra.
Qed.

Lemma seg2d_side_pos p1 p2 q :
  (0 < seg2d_side p1 p2 q)%Z <-> MEOS_EPSILON <= side_value p1 p2 q.
Proof.
  unfold seg2d_side, SIGNUM, Qgtb. pose proof MEOS_EPSILON_pos as He.
  destruct (Qabs_cases (side_value p1 p2 q)) as [[H0 Ha]|[H0 Ha]];
    destruct (Qltb_reflect (Qabs (side_value p1 p2 q)) MEOS_EPSILON) as [H|H];
    try (destruct (Qltb_reflect (side_value p1 p2 q) 0) as [H1|H1]);
    try (destruct (Qltb_reflect 0 (side_value p1 p2 q)) as [H2|H2]);
    split; intros; try lia; try lra.
Qed.

Lemma seg2d_side_neg p1 p2 q :
  (seg2d_side p1 p2 q < 0)%Z <-> side_value p1 p2 q <= - MEOS_EPSILON.
Proof.
  unfold seg2d_side, SIGNUM, Qgtb. pose proof MEOS_EPSILON_pos as He.
  destruct (Qabs_cases (side_value p1 p2 q)) as [[H0 Ha]|[H0 Ha]];
    destruct (Qltb_reflect (Qabs (side_value p1 p2 q)) MEOS_EPSILON) as [H|H];
    try (destruct (Qltb_reflect (side_value p1 p2 q) 0) as [H1|H1]);
    try (destruct (Qltb_reflect 0 (side_value p1 p2 q)) as [H2|H2]);
    split; intros; try lia; try lra.
Qed.

(** ** The envelope pretest *)

Lemma lw_seg_interact_true (p1 p2 q1 q2 : POINT2D) :
  Min (p2x p1) (p2x p2) <= Max (p2x q1) (p2x q2) ->
  Min (p2x q1) (p2x q2) <= Max (p2x p1) (p2x p2) ->
  Min (p2y p1) (p2y p2) <= Max (p2y q1) (p2y q2) ->
  Min (p2y q1) (p2y q2) <= Max (p2y p1) (p2y p2) ->
  lw_seg_interact p1 p2 q1 q2 = true.
Proof.
  intros Hx1 Hx2 Hy1 Hy2. pose proof FP_TOLERANCE_pos as Ht.
  unfold lw_seg_interact, FP_GT, FP_LT, Qgtb.
  repeat match goal with
  | |- context [Qltb ?a ?b] =>
      destruct (Qltb_reflect a b); try (exfalso; lra); simpl
  end. reflexivity.
Qed.

Lemma point2d_same_eq (a b : POINT2D) :
  point2d_same a b = true <-> p2x a == p2x b /\ p2y a == p2y b.
Proof.
  unfold point2d_same. rewrite andb_true_iff, !Qeqb_eq. tauto.
Qed.

Lemma shares_endpoint_interact (a b c d : POINT2D) :
  shares_endpoint a b c d = true -> lw_seg_interact a b c d = true.
Proof.
  unfold shares_endpoint. rewrite !orb_true_iff, !point2d_same_eq.
  intros H.
  pose proof (Min_le_l (p2x a) (p2x b)). pose proof (Min_le_r (p2x a) (p2x b)).
  pose proof (Max_ge_l (p2x a) (p2x b)). pose proof (Max_ge_r (p2x a) (p2x b)).
  pose proof (Min_le_l (p2x c) (p2x d)). pose proof (Min_le_r (p2x c) (p2x d)).
  pose proof (Max_ge_l (p2x c) (p2x d)). pose proof (Max_ge_r (p2x c) (p2x d)).
  pose proof (Min_le_l (p2y a) (p2y b)). pose proof (Min_le_r (p2y a) (p2y b)).
  pose proof (Max_ge_l (p2y a) (p2y b)). pose proof (Max_ge_r (p2y a) (p2y b)).
  pose proof (Min_le_l (p2y c) (p2y d)). pose proof (Min_le_r (p2y c) (p2y d)).
  pose proof (Max_ge_l (p2y c) (p2y d)). pose proof (Max_ge_r (p2y c) (p2y d)).
  apply lw_seg_interact_true; destruct H as [[[[E1 E2]|[E1 E2]]|[E1 E2]]|[E1 E2]]; lra.
Qed.

Lemma seg2d_side_of_zero (p1 p2 q : POINT2D) :
  side_value p1 p2 q == 0 -> seg2d_side p1 p2 q = 0%Z.
Proof.
  intros E. apply seg2d_side_zero. rewrite E. reflexivity.
Qed.

(** A shared end point makes one side test of each pair zero. *)
Lemma shares_endpoint_sides (a b c d : POINT2D) :
  shares_endpoint a b c d = true ->
  (seg2d_side a b c = 0%Z \/ seg2d_side a b d = 0%Z)
  /\ (seg2d_side c d a = 0%Z \/ seg2d_side c d b = 0%Z).
Proof.
  unfold shares_endpoint. rewrite !orb_true_iff, !point2d_same_eq.
  intros [[[[E1 E2]|[E1 E2]]|[E1 E2]]|[E1 E2]]; split;
    try (left; apply seg2d_side_of_zero; unfold side_value; rewrite ?E1, ?E2; ring);
    try (right; apply seg2d_side_of_zero; unfold side_value; rewrite ?E1, ?E2; ring);
    try (left; apply seg2d_side_of_zero; unfold side_value; rewrite <- ?E1, <- ?E2; ring);
    try (right; apply seg2d_side_of_zero; unfold side_value; rewrite <- ?E1, <- ?E2; ring).
Qed.

Lemma seg2d_intersection_shared (a b c d : POINT2D) :
  shares_endpoint a b c d = true ->
  fst (seg2d_intersection a b c d) =
    if sides_all_zero a b c d && envelopes_beyond_point a b c d
    then MEOS_SEG_OVERLAP else MEOS_SEG_TOUCH_END.
Proof.
  intros Hs.
  pose proof (shares_endpoint_interact _ _ _ _ Hs) as Hi.
  pose proof (shares_endpoint_sides _ _ _ _ Hs) as [Hp Hq].
  unfold seg2d_intersection, sides_all_zero. rewrite Hi. cbn [negb].
  unfold shares_endpoint in Hs.
  destruct (seg2d_side a b c) eqn:S1; destruct (seg2d_side a b d) eqn:S2;
    try (exfalso; destruct Hp; discriminate);
    destruct (seg2d_side c d a) eqn:S3; destruct (seg2d_side c d b) eqn:S4;
    try (exfalso; destruct Hq; discriminate);
    cbn [Z.gtb Z.ltb Z.eqb Z.compare andb orb];
    unfold parseg2d_intersection, envelopes_beyond_point;
    repeat match goal with
    | |- context [if ?b then _ else _] => destruct b eqn:?; cbn [fst andb orb] in *
    end; try reflexivity; try discriminate.
Qed.

(** ** Crossing segments *)

(** With interacting bounding boxes, side tests of opposite signs on
    both segments give [MEOS_SEG_CROSS]. *)
Lemma seg2d_intersection_cross (a b c d : POINT2D) :
  lw_seg_interact a b c d = true ->
  (seg2d_side a b c * seg2d_side a b d < 0)%Z ->
  (seg2d_side c d a * seg2d_side c d b < 0)%Z ->
  seg2d_intersection a b c d = (MEOS_SEG_CROSS, None).
Proof.
  intros Hi Hp Hq.
  unfold seg2d_intersection. rewrite Hi. cbn [negb].
  destruct (seg2d_side a b c) eqn:S1; destruct (seg2d_side a b d) eqn:S2;
    try (exfalso; lia);
    destruct (seg2d_side c d a) eqn:S3; destruct (seg2d_side c d b) eqn:S4;
    try (exfalso; lia); reflexivity.
Qed.

(** ** Identical segments *)

Lemma Min_same_lt_Max (x y u v : Q) :
  ~ x == y -> u == x -> v == y ->
  Qltb (Max (Min x y) (Min u v)) (Min (Max x y) (Max u v)) = true.
Proof.
  intros Hn Hu Hv. apply Qltb_lt.
  destruct (Min_cases x y) as [[E1 L1]|[E1 L1]];
    destruct (Max_cases x y) as [[E2 L2]|[E2 L2]];
    destruct (Min_cases u v) as [[E3 L3]|[E3 L3]];
    destruct (Max_cases u v) as [[E4 L4]|[E4 L4]];
    rewrite E1, E2, E3, E4; unfold Max, Min, Qgtb; qcases; lra.
Qed.

Lemma seg2d_intersection_identical (a b c d : POINT2D) :
  point2d_same a b = false ->
  point2d_same a c = true -> point2d_same b d = true ->
  fst (seg2d_intersection a b c d) = MEOS_SEG_OVERLAP.
Proof.
  intros Hab Hac Hbd.
  assert (shares_endpoint a b c d = true) as Hs.
  { unfold shares_endpoint. rewrite Hac, !orb_true_r. reflexivity. }
  rewrite (seg2d_intersection_shared _ _ _ _ Hs).
  apply point2d_same_eq in Hac. destruct Hac as [Hx1 Hy1].
  apply point2d_same_eq in Hbd. destruct Hbd as [Hx2 Hy2].
  assert (sides_all_zero a b c d = true) as ->.
  { unfold sides_all_zero.
    rewrite (seg2d_side_of_zero a b c), (seg2d_side_of_zero a b d),
      (seg2d_side_of_zero c d a), (seg2d_side_of_zero c d b);
      [reflexivity| | | |]; unfold side_value;
      rewrite <- ?Hx1, <- ?Hy1, <- ?Hx2, <- ?Hy2; ring. }
  assert (envelopes_beyond_point a b c d = true) as ->; [|reflexivity].
  unfold envelopes_beyond_point. apply orb_true_iff.
  unfold point2d_same in Hab. apply andb_false_iff in Hab.
  destruct Hab as [Hx|Hy].
  - left. apply Min_same_lt_Max; [apply Qeqb_neq; exact Hx|lra|lra].
  - right. apply Min_same_lt_Max; [apply Qeqb_neq; exact Hy|lra|lra].
Qed.

(** C5 (amended).  [seg2d_intersection] returns [MEOS_SEG_TOUCH_END] for
    every pair of segments that have an end point in common, except that
    it returns [MEOS_SEG_OVERLAP] when the four side tests are zero (the
    segments are collinear up to the epsilon) and the intersection of
    their bounding boxes is more than a point; it returns
    [MEOS_SEG_CROSS] for every pair of segments whose bounding boxes
    interact ([lw_seg_interact]) and whose side tests are of opposite
    non-zero signs on both segments; it returns [MEOS_SEG_OVERLAP] for
    two identical segments (same start point, same end point) of
    non-zero length. *)
Theorem seg2d_intersection_classification (a b c d : POINT2D) :
  (shares_endpoint a b c d = true ->
   fst (seg2d_intersection a b c d) =
     if sides_all_zero a b c d && envelopes_beyond_point a b c d
     then MEOS_SEG_OVERLAP else MEOS_SEG_TOUCH_END)
  /\ (lw_seg_interact a b c d = true ->
      (seg2d_side a b c * seg2d_side a b d < 0)%Z ->
      (seg2d_side c d a * seg2d_side c d b < 0)%Z ->
      seg2d_intersection a b c d = (MEOS_SEG_CROSS, None))
  /\ (point2d_same a b = false ->
      point2d_same a c = true -> point2d_same b d = true ->
      fst (seg2d_intersection a b c d) = MEOS_SEG_OVERLAP).
Proof.
  split; [|split].
  - apply seg2d_intersection_shared.
  - apply seg2d_intersection_cross.
  - apply seg2d_intersection_identical.
Qed.

Lemma seg2d_shared_endpoint_counterexample :
  point2d_same (point2d_of_Z 2 0) (point2d_of_Z 2 0) = true
  /\ point2d_same (point2d_of_Z 2 0) (point2d_of_Z 1 0) = false
  /\ point2d_same (point2d_of_Z 0 0) (point2d_of_Z 1 0) = false
  /\ point2d_same (point2d_of_Z 0 0) (point2d_of_Z 2 0) = false
  /\ fst (seg2d_intersection (point2d_of_Z 0 0) (point2d_of_Z 2 0)
            (point2d_of_Z 1 0) (point2d_of_Z 2 0)) = MEOS_SEG_OVERLAP
  /\ fst (seg2d_intersection (point2d_of_Z 0 0) (point2d_of_Z 2 0)
            (point2d_of_Z 1 0) (point2d_of_Z 2 0)) <> MEOS_SEG_TOUCH_END.
Proof. repeat split. discriminate. Qed.

Lemma seg2d_intersection_classification_witness :
  fst (seg2d_intersection (point2d_of_Z 0 0) (point2d_of_Z 1 0)
         (point2d_of_Z 1 0) (point2d_of_Z 1 1)) = MEOS_SEG_TOUCH_END
  /\ seg2d_intersection (point2d_of_Z 0 0) (point2d_of_Z 2 2)
       (point2d_of_Z 0 2) (point2d_of_Z 2 0) = (MEOS_SEG_CROSS, None)
  /\ fst (seg2d_intersection (point2d_of_Z 0 0) (point2d_of_Z 2 2)
            (point2d_of_Z 0 0) (point2d_of_Z 2 2)) = MEOS_SEG_OVERLAP.
Proof.
  split; [|split].
  - destruct (seg2d_intersection_classification (point2d_of_Z 0 0)
                (point2d_of_Z 1 0) (point2d_of_Z 1 0) (point2d_of_Z 1 1))
      as (H & _ & _).
    rewrite (H eq_refl). reflexivity.
  - destruct (seg2d_intersection_classification (point2d_of_Z 0 0)
                (point2d_of_Z 2 2) (point2d_of_Z 0 2) (point2d_of_Z 2 0))
      as (_ & H & _).
    apply H; reflexivity.
  - destruct (seg2d_intersection_classification (point2d_of_Z 0 0)
                (point2d_of_Z 2 2) (point2d_of_Z 0 0) (point2d_of_Z 2 2))
      as (_ & _ & H).
    apply H; reflexivity.
Defined.

(** ** Region codes *)

Lemma axis_pos_below lo hi v : axis_pos lo hi v = Below <-> v < lo.
Proof.
  unfold axis_pos, Qgtb.
  destruct (Qltb_reflect v lo); destruct (Qltb_reflect hi v);
    split; intros; try discriminate; try reflexivity; try lra; contradiction.
Qed.

Lemma axis_pos_above lo hi v : axis_pos lo hi v = Above <-> lo <= v /\ hi < v.
Proof.
  unfold axis_pos, Qgtb.
  destruct (Qltb_reflect v lo); destruct (Qltb_reflect hi v);
    split; intros; try discriminate; try reflexivity; try lra;
    try (split; lra).
Qed.

Lemma axis_pos_within lo hi v : axis_pos lo hi v = Within <-> lo <= v /\ v <= hi.
Proof.
  unfold axis_pos, Qgtb.
  destruct (Qltb_reflect v lo); destruct (Qltb_reflect hi v);
    split; intros; try discriminate; try reflexivity; try lra;
    try (split; lra).
Qed.

Lemma computeCode_pos x y z hasz box :
  computeCode x y z hasz box =
  code_of_pos (pos_x box x) (pos_y box y) (pos_z box hasz z).
Proof.
  unfold computeCode, code_of_pos, pos_x, pos_y, pos_z, axis_pos.
  destruct (Qltb x (xmin box)); destruct (Qgtb x (xmax box));
    destruct (Qltb y (ymin box)); destruct (Qgtb y (ymax box));
    destruct hasz; try reflexivity;
    destruct (Qltb z (zmin box)); destruct (Qgtb z (zmax box)); reflexivity.
Qed.

Lemma code_of_pos_zero px py pz :
  code_of_pos px py pz = 0%Z <-> px = Within /\ py = Within /\ pz = Within.
Proof.
  destruct px, py, pz; cbn; split; intros H;
    try discriminate; try (destruct H as (? & ? & ?); discriminate); auto.
Qed.

Lemma inside_box_code x y z hasz box :
  inside_box x y z hasz box -> computeCode x y z hasz box = 0%Z.
Proof.
  intros (Hx1 & Hx2 & Hy1 & Hy2 & Hz). rewrite computeCode_pos.
  apply code_of_pos_zero. repeat split.
  - apply axis_pos_within. split; assumption.
  - apply axis_pos_within. split; assumption.
  - unfold pos_z. destruct hasz; [|reflexivity].
    apply axis_pos_within. apply Hz. reflexivity.
Qed.

Lemma clear_of_max_code x y z hasz box :
  clear_of_max x y z hasz box -> computeMaxBorderCode x y z hasz box = 0%Z.
Proof.
  intros (Hx & Hy & Hz). unfold computeMaxBorderCode.
  destruct (Qltb_reflect (xmax box - x) MEOS_EPSILON); [lra|].
  destruct (Qltb_reflect (ymax box - y) MEOS_EPSILON); [lra|].
  destruct hasz; [|reflexivity]. specialize (Hz eq_refl).
  destruct (Qltb_reflect (zmax box - z) MEOS_EPSILON); [lra|]. reflexivity.
Qed.

(** ** Clipping a segment that is inside the box *)

Lemma clip_inside_loop p1 p2 box hasz :
  inside_box (pt_x p1) (pt_y p1) (point_z hasz p1) hasz box ->
  inside_box (pt_x p2) (pt_y p2) (point_z hasz p2) hasz box ->
  clip_loop clip_fuel hasz box (clip_init p1 p2 box hasz) =
  ClipEnd true (mkClipState (pt_x p1) (pt_y p1) (point_z hasz p1) 0%Z
                            (pt_x p2) (pt_y p2) (point_z hasz p2) 0%Z).
Proof.
  intros H1 H2. unfold clip_init. fold (point_z hasz p1) (point_z hasz p2).
  rewrite (inside_box_code _ _ _ _ _ H1), (inside_box_code _ _ _ _ _ H2).
  reflexivity.
Qed.

Lemma clip_inside_inclusive p1 p2 box hasz :
  inside_box (pt_x p1) (pt_y p1) (point_z hasz p1) hasz box ->
  inside_box (pt_x p2) (pt_y p2) (point_z hasz p2) hasz box ->
  cohenSutherlandClip p1 p2 box hasz true =
  Some (mkClipResult true
          (Some (clip_output hasz (pt_srid p1) p1))
          (Some (clip_output hasz (pt_srid p1) p2))
          None None).
Proof.
  intros H1 H2. unfold cohenSutherlandClip, cohenSutherlandClip_fuel.
  rewrite (clip_inside_loop _ _ _ _ H1 H2). reflexivity.
Qed.

Lemma clip_inside_exclusive p1 p2 box hasz :
  inside_box (pt_x p1) (pt_y p1) (point_z hasz p1) hasz box ->
  inside_box (pt_x p2) (pt_y p2) (point_z hasz p2) hasz box ->
  clear_of_max (pt_x p1) (pt_y p1) (point_z hasz p1) hasz box ->
  clear_of_max (pt_x p2) (pt_y p2) (point_z hasz p2) hasz box ->
  cohenSutherlandClip p1 p2 box hasz false =
  Some (mkClipResult true
          (Some (clip_output hasz (pt_srid p1) p1))
          (Some (clip_output hasz (pt_srid p1) p2))
          (Some true) (Some true)).
Proof.
  intros H1 H2 M1 M2. unfold cohenSutherlandClip, cohenSutherlandClip_fuel.
  rewrite (clip_inside_loop _ _ _ _ H1 H2). unfold clip_finish.
  cbn [negb cs_x1 cs_y1 cs_z1 cs_x2 cs_y2 cs_z2].
  rewrite (clear_of_max_code _ _ _ _ _ M1), (clear_of_max_code _ _ _ _ _ M2).
  reflexivity.
Qed.

(** ** Membership of a point in a box *)

Lemma on_max_edge_inside x y z hasz box :
  on_max_edge x y z hasz box -> inside_box x y z hasz box.
Proof.
  unfold on_max_edge, inside_box, strictly_within.
  intros [(E & W & Hy & Hz)|[(Hx & E & W & Hz)|(Hh & Hx & Hy & E & W)]];
    (split; [|split; [|split; [|split]]]); try lra;
    intros Hh'; try specialize (Hz Hh'); split; lra.
Qed.

Lemma on_min_edge_inside x y z hasz box :
  on_min_edge x y z hasz box -> inside_box x y z hasz box.
Proof.
  unfold on_min_edge, inside_box, strictly_within.
  intros [(E & W & Hy & Hz)|[(Hx & E & W & Hz)|(Hh & Hx & Hy & E & W)]];
    (split; [|split; [|split; [|split]]]); try lra;
    intros Hh'; try specialize (Hz Hh'); split; lra.
Qed.

Lemma on_max_edge_border x y z hasz box :
  on_max_edge x y z hasz box -> computeMaxBorderCode x y z hasz box <> 0%Z.
Proof.
  pose proof MEOS_EPSILON_pos as He.
  unfold on_max_edge, computeMaxBorderCode.
  intros [(E & W & Hy & Hz)|[(Hx & E & W & Hz)|(Hh & Hx & Hy & E & W)]].
  - destruct (Qltb_reflect (xmax box - x) MEOS_EPSILON); [|lra].
    destruct (Qltb (ymax box - y) MEOS_EPSILON);
      destruct (hasz && Qltb (zmax box - z) MEOS_EPSILON); discriminate.
  - destruct (Qltb_reflect (ymax box - y) MEOS_EPSILON); [|lra].
    destruct (Qltb (xmax box - x) MEOS_EPSILON);
      destruct (hasz && Qltb (zmax box - z) MEOS_EPSILON); discriminate.
  - subst hasz. destruct (Qltb_reflect (zmax box - z) MEOS_EPSILON); [|lra].
    destruct (Qltb (xmax box - x) MEOS_EPSILON);
      destruct (Qltb (ymax box - y) MEOS_EPSILON); discriminate.
Qed.

Lemma stbox_iter_at inst box border_inc :
  time_inside inst box = true ->
  tpointinst_restrict_stbox_iter inst box border_inc REST_AT =
  (Z.lor (computeCode (inst_x inst) (inst_y inst) (inst_z inst box)
            (inst_box_hasz inst box) box)
         (if negb border_inc
          then computeMaxBorderCode (inst_x inst) (inst_y inst)
                 (inst_z inst box) (inst_box_hasz inst box) box
          else 0) =? 0)%Z.
Proof.
  unfold time_inside, tpointinst_restrict_stbox_iter, REST_AT, tinstant_value,
    inst_x, inst_y, inst_z, inst_box_hasz, point_z.
  intros Ht. destruct (box_hast box); cbn [negb orb andb] in *.
  - rewrite Ht. cbn [negb]. destruct (_ =? _)%Z; reflexivity.
  - destruct (_ =? _)%Z; reflexivity.
Qed.

(** C6 (amended).  In the instant primitive of the box engine, in "at"
    mode and for an instant within the time dimension of the box: a point
    exactly on a maximum edge, its other coordinates strictly inside, is
    inside with an inclusive border and outside with an exclusive one; a
    point exactly on a minimum edge, its other coordinates strictly
    inside, is inside with an inclusive border, and with an exclusive
    border provided each of its coordinates is at least [MEOS_EPSILON]
    below the maximum of its axis. *)
Theorem stbox_border_semantics (inst : TInstant) (box : STBox) :
  time_inside inst box = true ->
  (on_max_edge (inst_x inst) (inst_y inst) (inst_z inst box)
     (inst_box_hasz inst box) box ->
   tpointinst_restrict_stbox_iter inst box true REST_AT = true
   /\ tpointinst_restrict_stbox_iter inst box false REST_AT = false)
  /\ (on_min_edge (inst_x inst) (inst_y inst) (inst_z inst box)
        (inst_box_hasz inst box) box ->
      tpointinst_restrict_stbox_iter inst box true REST_AT = true
      /\ (clear_of_max (inst_x inst) (inst_y inst) (inst_z inst box)
            (inst_box_hasz inst box) box ->
          tpointinst_restrict_stbox_iter inst box false REST_AT = true)).
Proof.
  intros Ht. rewrite !(stbox_iter_at _ _ _ Ht).
  unfold inst_x, inst_y, inst_z, inst_box_hasz. cbn [negb]. split.
  - intros Hm. rewrite (inside_box_code _ _ _ _ _ (on_max_edge_inside _ _ _ _ _ Hm)).
    split; [reflexivity|]. cbn [Z.lor].
    apply Z.eqb_neq. apply on_max_edge_border. exact Hm.
  - intros Hm. rewrite (inside_box_code _ _ _ _ _ (on_min_edge_inside _ _ _ _ _ Hm)).
    split; [reflexivity|]. intros Hc.
    rewrite (clear_of_max_code _ _ _ _ _ Hc). reflexivity.
Qed.

Lemma stbox_min_edge_counterexample :
  time_inside (instant_of_Z 0 5 1) thin_box = true
  /\ on_min_edge (inst_x (instant_of_Z 0 5 1)) (inst_y (instant_of_Z 0 5 1))
       (inst_z (instant_of_Z 0 5 1) thin_box)
       (inst_box_hasz (instant_of_Z 0 5 1) thin_box) thin_box
  /\ ~ (inst_x (instant_of_Z 0 5 1) == xmax thin_box)
  /\ tpointinst_restrict_stbox_iter (instant_of_Z 0 5 1) thin_box false REST_AT
     = false.
Proof.
  split; [reflexivity|]. split; [|split; [|reflexivity]].
  - left. unfold strictly_within, thin_box. cbn.
    split; [reflexivity|]. split; [discriminate|].
    split; [split; reflexivity | discriminate].
  - discriminate.
Qed.

Lemma stbox_border_semantics_witness :
  (tpointinst_restrict_stbox_iter (instant_of_Z 10 5 1) unit_square true REST_AT
   = true
   /\ tpointinst_restrict_stbox_iter (instant_of_Z 10 5 1) unit_square false
        REST_AT = false)
  /\ (tpointinst_restrict_stbox_iter (instant_of_Z 0 5 1) unit_square true
        REST_AT = true
      /\ tpointinst_restrict_stbox_iter (instant_of_Z 0 5 1) unit_square false
           REST_AT = true).
Proof.
  split.
  - apply (stbox_border_semantics (instant_of_Z 10 5 1) unit_square eq_refl).
    left. unfold strictly_within. cbn.
    split; [reflexivity|]. split; [discriminate|].
    split; [split; reflexivity | discriminate].
  - destruct (stbox_border_semantics (instant_of_Z 0 5 1) unit_square eq_refl)
      as [_ Hmin].
    destruct Hmin as [Hinc Hexc].
    + left. unfold strictly_within. cbn.
      split; [reflexivity|]. split; [discriminate|].
      split; [split; reflexivity | discriminate].
    + split; [exact Hinc|]. apply Hexc.
      unfold clear_of_max. cbn.
      split; [discriminate|]. split; [discriminate|discriminate].
Defined.

(** A segment whose end points are both inside the box is returned as
    it is: [cohenSutherlandClip] returns true and its output points have
    the coordinates of the input points.  With an inclusive border it
    does not write the inclusion flags; with an exclusive border, when
    both end points are at least [MEOS_EPSILON] below each maximum of the
    box, it sets both flags to true. *)
Lemma cohenSutherlandClip_inside (p1 p2 : Point) (box : STBox) (hasz : bool) :
  inside_box (pt_x p1) (pt_y p1) (point_z hasz p1) hasz box ->
  inside_box (pt_x p2) (pt_y p2) (point_z hasz p2) hasz box ->
  cohenSutherlandClip p1 p2 box hasz true =
    Some (mkClipResult true
            (Some (clip_output hasz (pt_srid p1) p1))
            (Some (clip_output hasz (pt_srid p1) p2)) None None)
  /\ (clear_of_max (pt_x p1) (pt_y p1) (point_z hasz p1) hasz box ->
      clear_of_max (pt_x p2) (pt_y p2) (point_z hasz p2) hasz box ->
      cohenSutherlandClip p1 p2 box hasz false =
        Some (mkClipResult true
                (Some (clip_output hasz (pt_srid p1) p1))
                (Some (clip_output hasz (pt_srid p1) p2))
                (Some true) (Some true))).
Proof.
  intros H1 H2. split.
  - apply clip_inside_inclusive; assumption.
  - intros M1 M2. apply clip_inside_exclusive; assumption.
Qed.

(** C7 (the code at the failing input).  For the segment from [(1,1)] to
    [(2,3)], inside the box [[0,10] x [0,10]], [cohenSutherlandClip]
    returns true and the input points.  With an inclusive border
    ([border_inc] true) it writes neither inclusion flag; with an
    exclusive border it writes both.  The note of the function says the
    opposite: that the flags are only written when [border_inc] is
    true. *)
Theorem cohenSutherlandClip_flags_unwritten :
  cohenSutherlandClip (point_of_Z 1 1) (point_of_Z 2 3) unit_square false true =
    Some (mkClipResult true (Some (point_of_Z 1 1)) (Some (point_of_Z 2 3))
            None None)
  /\ cohenSutherlandClip (point_of_Z 1 1) (point_of_Z 2 3) unit_square false
       false =
       Some (mkClipResult true (Some (point_of_Z 1 1)) (Some (point_of_Z 2 3))
               (Some true) (Some true)).
Proof.
  assert (inside_box (inject_Z 1) (inject_Z 1) 0 false unit_square) as H1
    by (unfold inside_box; cbn; repeat split; discriminate).
  assert (inside_box (inject_Z 2) (inject_Z 3) 0 false unit_square) as H2
    by (unfold inside_box; cbn; repeat split; discriminate).
  destruct (cohenSutherlandClip_inside (point_of_Z 1 1) (point_of_Z 2 3)
              unit_square false H1 H2) as [Hi He].
  split; [exact Hi|]. apply He; unfold clear_of_max; cbn;
    repeat split; discriminate.
Qed.

(** ** Termination of the clipping loop *)

(** The intersection with a face is a point of the segment: every
    coordinate computed by the parametric formula lies between the
    coordinates of the end points. *)
Lemma ratio_unit (c1 c2 bound : Q) :
  ~ c1 == c2 -> between c1 c2 bound ->
  0 <= (bound - c1) / (c2 - c1) /\ (bound - c1) / (c2 - c1) <= 1.
Proof.
  intros Hne [[H1 H2]|[H1 H2]].
  - assert (0 < c2 - c1) as Hd by lra. split.
    + apply Qle_shift_div_l; [exact Hd|lra].
    + apply Qle_shift_div_r; [exact Hd|lra].
  - assert (0 < c1 - c2) as Hd by lra.
    assert ((bound - c1) / (c2 - c1) == (c1 - bound) / (c1 - c2)) as ->
      by (field; split; lra).
    split.
    + apply Qle_shift_div_l; [exact Hd|lra].
    + apply Qle_shift_div_r; [exact Hd|lra].
Qed.

Lemma interp_between (b1 b2 c1 c2 bound : Q) :
  ~ c1 == c2 -> between c1 c2 bound ->
  between b1 b2 (b1 + (b2 - b1) * (bound - c1) / (c2 - c1)).
Proof.
  intros Hne Hb. destruct (ratio_unit c1 c2 bound Hne Hb) as [T0 T1].
  assert (b1 + (b2 - b1) * (bound - c1) / (c2 - c1)
          == b1 + (b2 - b1) * ((bound - c1) / (c2 - c1))) as E
    by (field; lra).
  set (t := (bound - c1) / (c2 - c1)) in *.
  unfold between. rewrite E.
  destruct (Qlt_le_dec b2 b1) as [H|H]; [right|left]; split; nra.
Qed.

(** A point of the segment violates a face only if an end point does. *)
Lemma between_open_l (lo hi b1 b2 n : Q) :
  between b1 b2 n ->
  (axis_open (axis_pos lo hi n) (axis_pos lo hi b2)
   <= axis_open (axis_pos lo hi b1) (axis_pos lo hi b2))%nat.
Proof.
  intros Hb.
  destruct (axis_pos lo hi n) eqn:Pn; destruct (axis_pos lo hi b1) eqn:P1;
    destruct (axis_pos lo hi b2) eqn:P2; cbn; try lia; exfalso;
    repeat match goal with
    | H : axis_pos _ _ _ = Below |- _ => apply axis_pos_below in H
    | H : axis_pos _ _ _ = Above |- _ => apply axis_pos_above in H
    | H : axis_pos _ _ _ = Within |- _ => apply axis_pos_within in H
    end; destruct Hb as [Hb|Hb]; lra.
Qed.

Lemma between_sym (a b n : Q) : between a b n -> between b a n.
Proof. unfold between. tauto. Qed.

Lemma axis_open_comm (p q : AxisPos) : axis_open p q = axis_open q p.
Proof. destruct p, q; reflexivity. Qed.

Lemma between_open_r (lo hi b1 b2 n : Q) :
  between b1 b2 n ->
  (axis_open (axis_pos lo hi b1) (axis_pos lo hi n)
   <= axis_open (axis_pos lo hi b1) (axis_pos lo hi b2))%nat.
Proof.
  intros Hb. rewrite (axis_open_comm _ (axis_pos lo hi n)),
    (axis_open_comm _ (axis_pos lo hi b2)).
  apply between_open_l. apply between_sym. exact Hb.
Qed.

(** Clipping at the minimum of an axis: the end point below the minimum
    is moved onto it. *)
Lemma clip_low_axis (lo hi c_out c_other : Q) :
  axis_pos lo hi c_out = Below -> axis_pos lo hi c_other <> Below ->
  between c_out c_other lo /\ ~ c_out == c_other
  /\ (axis_open (axis_pos lo hi lo) (axis_pos lo hi c_other)
      < axis_open (axis_pos lo hi c_out) (axis_pos lo hi c_other))%nat.
Proof.
  intros Ho Hn. rewrite Ho. apply axis_pos_below in Ho.
  assert (lo <= c_other) as Hge.
  { destruct (Qlt_le_dec c_other lo) as [H|H]; [|exact H].
    exfalso. apply Hn. apply axis_pos_below. exact H. }
  split; [left; lra|]. split; [lra|].
  destruct (axis_pos lo hi lo) eqn:Pl; destruct (axis_pos lo hi c_other) eqn:Pc;
    cbn; try lia; try congruence; exfalso;
    repeat match goal with
    | H : axis_pos _ _ _ = Below |- _ => apply axis_pos_below in H
    | H : axis_pos _ _ _ = Above |- _ => apply axis_pos_above in H
    | H : axis_pos _ _ _ = Within |- _ => apply axis_pos_within in H
    end; lra.
Qed.

(** Clipping at the maximum of an axis: either the maximum lies between
    the end points and a face is gained, or both points end below the
    minimum. *)
Lemma clip_high_axis (lo hi c_out c_other : Q) :
  axis_pos lo hi c_out = Above -> axis_pos lo hi c_other <> Above ->
  ~ c_out == c_other
  /\ ((between c_out c_other hi
       /\ (axis_open (axis_pos lo hi hi) (axis_pos lo hi c_other)
           < axis_open (axis_pos lo hi c_out) (axis_pos lo hi c_other))%nat)
      \/ (axis_pos lo hi hi = Below /\ axis_pos lo hi c_other = Below)).
Proof.
  intros Ho Hn. rewrite Ho. apply axis_pos_above in Ho.
  destruct (axis_pos lo hi hi) eqn:Ph; destruct (axis_pos lo hi c_other) eqn:Pc;
    try congruence;
    repeat match goal with
    | H : axis_pos _ _ _ = Below |- _ => apply axis_pos_below in H
    | H : axis_pos _ _ _ = Above |- _ => apply axis_pos_above in H
    | H : axis_pos _ _ _ = Within |- _ => apply axis_pos_within in H
    end; (split; [lra|]); try (right; split; reflexivity);
    try (left; split; [right; lra | cbn; lia]); try (exfalso; lra).
Qed.

Lemma has_bit_LEFT px py pz : has_bit (code_of_pos px py pz) LEFT = is_below px.
Proof. destruct px, py, pz; reflexivity. Qed.
Lemma has_bit_RIGHT px py pz : has_bit (code_of_pos px py pz) RIGHT = is_above px.
Proof. destruct px, py, pz; reflexivity. Qed.
Lemma has_bit_BOTTOM px py pz : has_bit (code_of_pos px py pz) BOTTOM = is_below py.
Proof. destruct px, py, pz; reflexivity. Qed.
Lemma has_bit_TOP px py pz : has_bit (code_of_pos px py pz) TOP = is_above py.
Proof. destruct px, py, pz; reflexivity. Qed.
Lemma has_bit_FRONT px py pz : has_bit (code_of_pos px py pz) FRONT = is_below pz.
Proof. destruct px, py, pz; reflexivity. Qed.
Lemma has_bit_BACK px py pz : has_bit (code_of_pos px py pz) BACK = is_above pz.
Proof. destruct px, py, pz; reflexivity. Qed.

Lemma code_of_pos_eqb_zero px py pz :
  (code_of_pos px py pz =? 0)%Z = is_within px && is_within py && is_within pz.
Proof. destruct px, py, pz; reflexivity. Qed.

Lemma code_of_pos_lor px py pz qx qy qz :
  (Z.lor (code_of_pos px py pz) (code_of_pos qx qy qz) =? 0)%Z =
  (code_of_pos px py pz =? 0)%Z && (code_of_pos qx qy qz =? 0)%Z.
Proof. destruct px, py, pz, qx, qy, qz; reflexivity. Qed.

Lemma code_of_pos_land px py pz qx qy qz :
  (Z.land (code_of_pos px py pz) (code_of_pos qx qy qz) =? 0)%Z =
  negb (common_side px qx || common_side py qy || common_side pz qz).
Proof. destruct px, py, pz, qx, qy, qz; reflexivity. Qed.

Lemma code_of_pos_eqb px py pz qx qy qz :
  (code_of_pos px py pz =? 0)%Z = false ->
  (code_of_pos qx qy qz =? 0)%Z = true ->
  (code_of_pos px py pz =? code_of_pos qx qy qz)%Z = false.
Proof.
  intros H1 H2. apply Z.eqb_eq in H2. rewrite H2. exact H1.
Qed.

Lemma pos_z_open_l box hasz z1 z2 n :
  (hasz = true -> between z1 z2 n) ->
  (axis_open (pos_z box hasz n) (pos_z box hasz z2)
   <= axis_open (pos_z box hasz z1) (pos_z box hasz z2))%nat.
Proof.
  unfold pos_z. destruct hasz; [|cbn; lia].
  intros H. apply between_open_l. apply H. reflexivity.
Qed.

Lemma pos_z_open_r box hasz z1 z2 n :
  (hasz = true -> between z1 z2 n) ->
  (axis_open (pos_z box hasz z1) (pos_z box hasz n)
   <= axis_open (pos_z box hasz z1) (pos_z box hasz z2))%nat.
Proof.
  unfold pos_z. destruct hasz; [|cbn; lia].
  intros H. apply between_open_r. apply H. reflexivity.
Qed.

Lemma is_below_eq p : is_below p = true <-> p = Below.
Proof. destruct p; cbn; split; congruence. Qed.
Lemma is_above_eq p : is_above p = true <-> p = Above.
Proof. destruct p; cbn; split; congruence. Qed.

Lemma common_side_below p q : p = Below -> common_side p q = false -> q <> Below.
Proof. intros -> H E. subst q. discriminate. Qed.
Lemma common_side_above p q : p = Above -> common_side p q = false -> q <> Above.
Proof. intros -> H E. subst q. discriminate. Qed.
Lemma common_side_below_r p q : q = Below -> common_side p q = false -> p <> Below.
Proof. intros -> H E. subst p. discriminate. Qed.
Lemma common_side_above_r p q : q = Above -> common_side p q = false -> p <> Above.
Proof. intros -> H E. subst p. discriminate. Qed.

Lemma low_clip_first (lo hi c1 c2 : Q) :
  axis_pos lo hi c1 = Below ->
  common_side (axis_pos lo hi c1) (axis_pos lo hi c2) = false ->
  between c1 c2 lo /\ ~ c1 == c2
  /\ (axis_open (axis_pos lo hi lo) (axis_pos lo hi c2)
      < axis_open (axis_pos lo hi c1) (axis_pos lo hi c2))%nat.
Proof.
  intros H Hc. apply clip_low_axis; [exact H|].
  eapply common_side_below; eassumption.
Qed.

Lemma low_clip_second (lo hi c1 c2 : Q) :
  axis_pos lo hi c2 = Below ->
  common_side (axis_pos lo hi c1) (axis_pos lo hi c2) = false ->
  between c1 c2 lo /\ ~ c1 == c2
  /\ (axis_open (axis_pos lo hi c1) (axis_pos lo hi lo)
      < axis_open (axis_pos lo hi c1) (axis_pos lo hi c2))%nat.
Proof.
  intros H Hc.
  destruct (clip_low_axis lo hi c2 c1 H) as (Hb & Hne & Hlt).
  { eapply common_side_below_r; eassumption. }
  split; [apply between_sym; exact Hb|]. split; [intros E; apply Hne; lra|].
  rewrite (axis_open_comm _ (axis_pos lo hi lo)),
    (axis_open_comm _ (axis_pos lo hi c2)). exact Hlt.
Qed.

Lemma high_clip_first (lo hi c1 c2 : Q) :
  axis_pos lo hi c1 = Above ->
  common_side (axis_pos lo hi c1) (axis_pos lo hi c2) = false ->
  ~ c1 == c2
  /\ ((between c1 c2 hi
       /\ (axis_open (axis_pos lo hi hi) (axis_pos lo hi c2)
           < axis_open (axis_pos lo hi c1) (axis_pos lo hi c2))%nat)
      \/ (axis_pos lo hi hi = Below /\ axis_pos lo hi c2 = Below)).
Proof.
  intros H Hc. apply clip_high_axis; [exact H|].
  eapply common_side_above; eassumption.
Qed.

Lemma high_clip_second (lo hi c1 c2 : Q) :
  axis_pos lo hi c2 = Above ->
  common_side (axis_pos lo hi c1) (axis_pos lo hi c2) = false ->
  ~ c1 == c2
  /\ ((between c1 c2 hi
       /\ (axis_open (axis_pos lo hi c1) (axis_pos lo hi hi)
           < axis_open (axis_pos lo hi c1) (axis_pos lo hi c2))%nat)
      \/ (axis_pos lo hi c1 = Below /\ axis_pos lo hi hi = Below)).
Proof.
  intros H Hc.
  destruct (clip_high_axis lo hi c2 c1 H) as (Hne & Hd).
  { eapply common_side_above_r; eassumption. }
  split; [intros E; apply Hne; lra|].
  destruct Hd as [[Hb Hlt]|[Hb1 Hb2]].
  - left. split; [apply between_sym; exact Hb|].
    rewrite (axis_open_comm _ (axis_pos lo hi hi)),
      (axis_open_comm _ (axis_pos lo hi c2)). exact Hlt.
  - right. split; assumption.
Qed.

(** The end of a step that gained a face: the measure decreases. *)
Ltac measure_decreases :=
  right; unfold clip_measure, pos_x, pos_y, pos_z;
  cbn [cs_x1 cs_y1 cs_z1 cs_x2 cs_y2 cs_z2];
  repeat match goal with
  | Hne : ~ ?c1 == ?c2, Hb : between ?c1 ?c2 ?bd
    |- context [axis_pos ?lo ?hi (?b1 + (?b2 - ?b1) * (?bd - ?c1) / (?c2 - ?c1))] =>
      let n := constr:(b1 + (b2 - b1) * (bd - c1) / (c2 - c1)) in
      lazymatch goal with
      | _ : between b1 b2 n |- _ => fail
      | _ => pose proof (interp_between b1 b2 c1 c2 bd Hne Hb)
      end
  end;
  repeat match goal with
  | H : between ?b1 ?b2 ?n |- context [axis_open (axis_pos ?lo ?hi ?n) (axis_pos ?lo ?hi ?b2)] =>
      lazymatch goal with
      | _ : (axis_open (axis_pos lo hi n) (axis_pos lo hi b2) <= _)%nat |- _ => fail
      | _ => pose proof (between_open_l lo hi b1 b2 n H)
      end
  | H : between ?b1 ?b2 ?n |- context [axis_open (axis_pos ?lo ?hi ?b1) (axis_pos ?lo ?hi ?n)] =>
      lazymatch goal with
      | _ : (axis_open (axis_pos lo hi b1) (axis_pos lo hi n) <= _)%nat |- _ => fail
      | _ => pose proof (between_open_r lo hi b1 b2 n H)
      end
  end;
  cbn [axis_open] in *; lia.

(** The end of a step that moved a point below the minimum where the
    other end point already is: the codes share a bit. *)
Ltac both_below :=
  left; unfold clip_terminal;
  cbn [cs_x1 cs_y1 cs_z1 cs_code1 cs_x2 cs_y2 cs_z2 cs_code2];
  rewrite ?computeCode_pos, code_of_pos_land;
  unfold pos_x, pos_y, pos_z in *;
  repeat match goal with
  | H : axis_pos _ _ _ = Below |- _ => rewrite H
  end;
  cbn [common_side is_below andb orb negb];
  rewrite ?orb_true_r; reflexivity.

(** The codes of the new state are those of its points. *)
Ltac state_ok :=
  split; cbn [cs_x1 cs_y1 cs_z1 cs_code1 cs_x2 cs_y2 cs_z2 cs_code2];
  rewrite ?computeCode_pos; reflexivity.

Lemma clip_step_progress hasz box st :
  clip_state_ok hasz box st -> clip_terminal st = false ->
  exists st', clip_step hasz box st = inl st'
    /\ clip_state_ok hasz box st'
    /\ (clip_terminal st' = true
        \/ (clip_measure hasz box st' < clip_measure hasz box st)%nat).
Proof.
  destruct st as [x1 y1 z1 c1 x2 y2 z2 c2].
  unfold clip_state_ok, clip_terminal.
  cbn [cs_x1 cs_y1 cs_z1 cs_code1 cs_x2 cs_y2 cs_z2 cs_code2].
  intros [E1 E2] Ht. subst c1 c2.
  unfold clip_step.
  cbn [cs_x1 cs_y1 cs_z1 cs_code1 cs_x2 cs_y2 cs_z2 cs_code2].
  rewrite !computeCode_pos in *.
  rewrite code_of_pos_lor, code_of_pos_land in Ht |- *.
  apply orb_false_iff in Ht as [Hacc Hrej]. rewrite Hacc.
  rewrite negb_involutive in Hrej |- *. rewrite Hrej.
  apply orb_false_iff in Hrej as [Hrej Hcz].
  apply orb_false_iff in Hrej as [Hcx Hcy].
  unfold clip_intersection.
  destruct (code_of_pos (pos_x box x1) (pos_y box y1) (pos_z box hasz z1) =? 0)%Z
    eqn:W1; cbn [negb andb] in *.
  - (* the first end point is inside, the second is picked *)
    rewrite (code_of_pos_eqb _ _ _ _ _ _ Hacc W1).
    rewrite has_bit_LEFT, has_bit_RIGHT, has_bit_BOTTOM, has_bit_TOP,
      has_bit_FRONT, has_bit_BACK.
    rewrite code_of_pos_eqb_zero in Hacc.
    unfold pos_x, pos_y in *.
    destruct (axis_pos (xmin box) (xmax box) x2) eqn:PX2;
      cbn [is_below is_above is_within andb] in *.
    + rewrite <- PX2 in Hcx.
      destruct (low_clip_second _ _ _ _ PX2 Hcx) as (Hb & Hne & Hlt).
      eexists. split; [reflexivity|]. split; [state_ok|].
      destruct hasz; measure_decreases.
    + destruct (axis_pos (ymin box) (ymax box) y2) eqn:PY2;
        cbn [is_below is_above is_within andb] in *.
      * rewrite <- PY2 in Hcy.
        destruct (low_clip_second _ _ _ _ PY2 Hcy) as (Hb & Hne & Hlt).
        eexists. split; [reflexivity|]. split; [state_ok|].
        
        destruct hasz; measure_decreases.
      * unfold pos_z in *. destruct hasz; [|discriminate].
        cbn [andb] in *.
        destruct (axis_pos (zmin box) (zmax box) z2) eqn:PZ2;
          cbn [is_below is_above is_within] in *; [|discriminate|].
        -- rewrite <- PZ2 in Hcz.
           destruct (low_clip_second _ _ _ _ PZ2 Hcz) as (Hb & Hne & Hlt).
           eexists. split; [reflexivity|]. split; [state_ok|].
            measure_decreases.
        -- rewrite <- PZ2 in Hcz.
           destruct (high_clip_second _ _ _ _ PZ2 Hcz) as (Hne & [[Hb Hlt]|[Hb1 Hb2]]);
             (eexists; split; [reflexivity|]; split; [state_ok|]).
           ++  measure_decreases.
           ++ both_below.
      * rewrite <- PY2 in Hcy.
        destruct (high_clip_second _ _ _ _ PY2 Hcy) as (Hne & [[Hb Hlt]|[Hb1 Hb2]]);
          (eexists; split; [reflexivity|]; split; [state_ok|]).
        --  destruct hasz; measure_decreases.
        -- both_below.
    + rewrite <- PX2 in Hcx.
      destruct (high_clip_second _ _ _ _ PX2 Hcx) as (Hne & [[Hb Hlt]|[Hb1 Hb2]]);
        (eexists; split; [reflexivity|]; split; [state_ok|]).
      * destruct hasz; measure_decreases.
      * both_below.
  - (* the first end point is outside and is picked *)
    rewrite Z.eqb_refl.
    rewrite has_bit_LEFT, has_bit_RIGHT, has_bit_BOTTOM, has_bit_TOP,
      has_bit_FRONT, has_bit_BACK.
    rewrite code_of_pos_eqb_zero in W1.
    unfold pos_x, pos_y in *.
    destruct (axis_pos (xmin box) (xmax box) x1) eqn:PX1;
      cbn [is_below is_above is_within andb] in *.
    + rewrite <- PX1 in Hcx.
      destruct (low_clip_first _ _ _ _ PX1 Hcx) as (Hb & Hne & Hlt).
      eexists. split; [reflexivity|]. split; [state_ok|].
      destruct hasz; measure_decreases.
    + destruct (axis_pos (ymin box) (ymax box) y1) eqn:PY1;
        cbn [is_below is_above is_within andb] in *.
      * rewrite <- PY1 in Hcy.
        destruct (low_clip_first _ _ _ _ PY1 Hcy) as (Hb & Hne & Hlt).
        eexists. split; [reflexivity|]. split; [state_ok|].
        
        destruct hasz; measure_decreases.
      * unfold pos_z in *. destruct hasz; [|discriminate].
        cbn [andb] in *.
        destruct (axis_pos (zmin box) (zmax box) z1) eqn:PZ1;
          cbn [is_below is_above is_within] in *; [|discriminate|].
        -- rewrite <- PZ1 in Hcz.
           destruct (low_clip_first _ _ _ _ PZ1 Hcz) as (Hb & Hne & Hlt).
           eexists. split; [reflexivity|]. split; [state_ok|].
            measure_decreases.
        -- rewrite <- PZ1 in Hcz.
           destruct (high_clip_first _ _ _ _ PZ1 Hcz) as (Hne & [[Hb Hlt]|[Hb1 Hb2]]);
             (eexists; split; [reflexivity|]; split; [state_ok|]).
           ++  measure_decreases.
           ++ both_below.
      * rewrite <- PY1 in Hcy.
        destruct (high_clip_first _ _ _ _ PY1 Hcy) as (Hne & [[Hb Hlt]|[Hb1 Hb2]]);
          (eexists; split; [reflexivity|]; split; [state_ok|]).
        --  destruct hasz; measure_decreases.
        -- both_below.
    + rewrite <- PX1 in Hcx.
      destruct (high_clip_first _ _ _ _ PX1 Hcx) as (Hne & [[Hb Hlt]|[Hb1 Hb2]]);
        (eexists; split; [reflexivity|]; split; [state_ok|]).
      * destruct hasz; measure_decreases.
      * both_below.
Qed.

Lemma clip_step_terminal hasz box st :
  clip_terminal st = true ->
  exists found, clip_step hasz box st = inr (ClipEnd found st).
Proof.
  unfold clip_terminal, clip_step. intros H.
  destruct (Z.lor (cs_code1 st) (cs_code2 st) =? 0)%Z.
  - exists true. reflexivity.
  - cbn [orb] in H. rewrite H. exists false. reflexivity.
Qed.

Lemma clip_loop_ends hasz box (n : nat) :
  forall st, clip_state_ok hasz box st ->
  (clip_measure hasz box st <= n)%nat ->
  exists found st', clip_loop (S n) hasz box st = ClipEnd found st'.
Proof.
  induction n as [|n IH]; intros st Hok Hm.
  - destruct (clip_terminal st) eqn:T.
    + destruct (clip_step_terminal hasz box st T) as [f Hs].
      exists f, st. cbn [clip_loop]. rewrite Hs. reflexivity.
    + destruct (clip_step_progress hasz box st Hok T) as (st' & Hs & Hok' & [T'|Hlt]);
        [|lia].
      exfalso.
      (* a state that does not stop violates a face *)
      revert T. unfold clip_terminal. destruct Hok as [E1 E2].
      rewrite E1, E2, !computeCode_pos, code_of_pos_lor, !code_of_pos_eqb_zero.
      unfold clip_measure in Hm.
      destruct (pos_x box (cs_x1 st)), (pos_x box (cs_x2 st)),
        (pos_y box (cs_y1 st)), (pos_y box (cs_y2 st)),
        (pos_z box hasz (cs_z1 st)), (pos_z box hasz (cs_z2 st));
        cbn in Hm |- *; try lia; discriminate.
  - destruct (clip_terminal st) eqn:T.
    + destruct (clip_step_terminal hasz box st T) as [f Hs].
      exists f, st. cbn [clip_loop]. rewrite Hs. reflexivity.
    + destruct (clip_step_progress hasz box st Hok T) as (st' & Hs & Hok' & [T'|Hlt]).
      * destruct (clip_step_terminal hasz box st' T') as [f Hs'].
        exists f, st'. cbn [clip_loop]. rewrite Hs, Hs'. reflexivity.
      * destruct (IH st' Hok') as (f & s & Hl); [lia|].
        exists f, s. change (clip_loop (S (S n)) hasz box st)
          with (match clip_step hasz box st with
                | inr r => r
                | inl st' => clip_loop (S n) hasz box st'
                end).
        rewrite Hs. exact Hl.
Qed.

Lemma clip_measure_bound hasz box st : (clip_measure hasz box st <= 6)%nat.
Proof.
  unfold clip_measure.
  destruct (pos_x box (cs_x1 st)), (pos_x box (cs_x2 st)),
    (pos_y box (cs_y1 st)), (pos_y box (cs_y2 st)),
    (pos_z box hasz (cs_z1 st)), (pos_z box hasz (cs_z2 st)); cbn; lia.
Qed.

Lemma clip_init_ok p1 p2 box hasz :
  clip_state_ok hasz box (clip_init p1 p2 box hasz).
Proof. split; reflexivity. Qed.

(** More fuel does not change the end of the loop. *)
Lemma clip_loop_more_fuel hasz box (n : nat) :
  forall st found st',
  clip_loop n hasz box st = ClipEnd found st' ->
  forall m, (n <= m)%nat -> clip_loop m hasz box st = ClipEnd found st'.
Proof.
  induction n as [|n IH]; intros st found st' H m Hm; [discriminate|].
  destruct m as [|m]; [lia|]. cbn [clip_loop] in *.
  destruct (clip_step hasz box st) as [s|r]; [|exact H].
  apply IH; [exact H|lia].
Qed.

(** On exact rationals the loop of [cohenSutherlandClip] reaches a
    [break] within seven passes for every pair of end points and every
    box; more passes allowed give the same result.  The rounding of the
    doubles is not part of this statement. *)
Lemma cohenSutherlandClip_exact_terminates (p1 p2 : Point) (box : STBox)
  (hasz border_inc : bool) :
  exists r, cohenSutherlandClip p1 p2 box hasz border_inc = Some r
    /\ forall fuel, (clip_fuel <= fuel)%nat ->
       cohenSutherlandClip_fuel fuel p1 p2 box hasz border_inc = Some r.
Proof.
  destruct (clip_loop_ends hasz box 6 (clip_init p1 p2 box hasz)
              (clip_init_ok p1 p2 box hasz)
              (clip_measure_bound _ _ _)) as (found & st' & Hl).
  exists (clip_finish (pt_srid p1) box hasz border_inc found st'). split.
  - unfold cohenSutherlandClip, cohenSutherlandClip_fuel, clip_fuel.
    rewrite Hl. reflexivity.
  - intros fuel Hf. unfold cohenSutherlandClip_fuel.
    rewrite (clip_loop_more_fuel hasz box 7 _ _ _ Hl fuel Hf). reflexivity.
Qed.

(** ** The clipping on doubles *)

(** With no rounding the functions on doubles are the exact ones. *)
Lemma cohenSutherlandClip_rounded_exact (p1 p2 : Point) (box : STBox)
  (hasz border_inc : bool) :
  cohenSutherlandClip_rounded (fun q => q) clip_fuel p1 p2 box hasz border_inc
  = cohenSutherlandClip p1 p2 box hasz border_inc.
Proof. reflexivity. Qed.

(** The doubles of the run, and the coordinate that the first pass
    computes: one unit in the last place above the face. *)
Lemma b64_constants :
  b64_three_tenths = 5404319552844595 # 18014398509481984
  /\ b64_nine_tenths = 8106479329266893 # 9007199254740992
  /\ round_b64 b64_above_nine_tenths = b64_above_nine_tenths
  /\ b64_nine_tenths < b64_above_nine_tenths
  /\ clip_coordinate round_b64 b64_three_tenths 1 b64_three_tenths 1
       b64_nine_tenths = b64_above_nine_tenths.
Proof. repeat split; vm_compute; reflexivity. Qed.

(** The run that does not stop. *)

Lemma clip_first_pass :
  clip_step_rounded round_b64 false nine_tenths_box
    (clip_init three_tenths_point unit_point nine_tenths_box false)
  = inl clip_state_above.
Proof. vm_compute. reflexivity. Qed.

Lemma clip_pass_above :
  clip_step_rounded round_b64 false nine_tenths_box clip_state_above
  = inl clip_state_right.
Proof. vm_compute. reflexivity. Qed.

Lemma clip_pass_right :
  clip_step_rounded round_b64 false nine_tenths_box clip_state_right
  = inl clip_state_above.
Proof. vm_compute. reflexivity. Qed.

Lemma clip_cycle (fuel : nat) :
  clip_loop_rounded round_b64 fuel false nine_tenths_box clip_state_above
  = ClipOutOfFuel
  /\ clip_loop_rounded round_b64 fuel false nine_tenths_box clip_state_right
     = ClipOutOfFuel.
Proof.
  induction fuel as [|fuel [IHa IHr]]; [split; reflexivity|].
  cbn [clip_loop_rounded]. rewrite clip_pass_above, clip_pass_right.
  split; assumption.
Qed.

(** C10 (the code at the failing input).  On doubles the loop of
    [cohenSutherlandClip] does not stop for the segment from
    [(0.3, 0.3)] to [(1, 1)] and the box [[0, 0.9] x [0, 0.9]]: after
    the first pass the second point is in turn above the box and to its
    right by one unit in the last place, so that no number of passes
    reaches a [break] and the function returns no result.  On exact
    rationals the same call returns true after two passes. *)
Theorem cohenSutherlandClip_binary64_loops (fuel : nat) (border_inc : bool) :
  clip_loop_rounded round_b64 fuel false nine_tenths_box
    (clip_init three_tenths_point unit_point nine_tenths_box false)
  = ClipOutOfFuel
  /\ cohenSutherlandClip_rounded round_b64 fuel three_tenths_point unit_point
       nine_tenths_box false border_inc = None
  /\ exists r,
       cohenSutherlandClip three_tenths_point unit_point nine_tenths_box false
         border_inc = Some r
       /\ clip_found r = true.
Proof.
  assert (clip_loop_rounded round_b64 fuel false nine_tenths_box
            (clip_init three_tenths_point unit_point nine_tenths_box false)
          = ClipOutOfFuel) as Hl.
  { destruct fuel as [|fuel]; [reflexivity|].
    cbn [clip_loop_rounded]. rewrite clip_first_pass.
    apply (clip_cycle fuel). }
  split; [exact Hl|]. split.
  - unfold cohenSutherlandClip_rounded. rewrite Hl. reflexivity.
  - destruct border_inc; eexists; (split; [vm_compute; reflexivity|reflexivity]).
Qed.

(** ** Short sequences *)

Lemma datum_point_eq_sym (p q : Point) :
  datum_point_eq p q = datum_point_eq q p.
Proof.
  unfold datum_point_eq, Qeqb.
  rewrite (Z.eqb_sym (pt_srid p)).
  assert (forall a b, Qeq_bool a b = Qeq_bool b a) as Hq.
  { intros a b. destruct (Qeq_bool a b) eqn:E1; destruct (Qeq_bool b a) eqn:E2;
      try reflexivity.
    - apply Qeq_bool_iff in E1. symmetry in E1. apply Qeq_bool_iff in E1. congruence.
    - apply Qeq_bool_iff in E2. symmetry in E2. apply Qeq_bool_iff in E2. congruence. }
  rewrite (Hq (pt_x p)), (Hq (pt_y p)), (Hq (pt_z p)).
  destruct (pt_hasz p), (pt_hasz q), (pt_geodetic p), (pt_geodetic q); cbn;
    rewrite ?andb_false_r; reflexivity.
Qed.

Lemma count_one (seq : TSequence) :
  seq_count seq = 1%nat -> exists i, seq_instants seq = [i].
Proof.
  unfold seq_count. destruct (seq_instants seq) as [|i [|j l]];
    try discriminate. intros _. exists i. reflexivity.
Qed.

Lemma count_two (seq : TSequence) :
  seq_count seq = 2%nat -> exists i j, seq_instants seq = [i; j].
Proof.
  unfold seq_count. destruct (seq_instants seq) as [|i [|j [|k l]]];
    try discriminate. intros _. exists i, j. reflexivity.
Qed.

Lemma make_simple_short (seq : TSequence) :
  (seq_count seq = 1%nat
   \/ (seq_count seq = 2%nat /\ seq_interp seq <> DISCRETE)) ->
  tpointseq_make_simple seq = Some [seq].
Proof.
  unfold tpointseq_make_simple, tsequence_copy.
  intros [H|[H Hi]]; rewrite H; cbn.
  - destruct (seq_interp seq); reflexivity.
  - destruct (seq_interp seq); try reflexivity. congruence.
Qed.

Lemma is_simple_linear_two (seq : TSequence) :
  seq_count seq = 2%nat -> seq_interp seq = LINEAR ->
  tpointseq_is_simple seq = Some true.
Proof.
  intros Hc Hi. destruct (count_two seq Hc) as (i & j & Hl).
  unfold tpointseq_is_simple, MEOS_FLAGS_GET_LINEAR,
    tpointseq_linear_find_splits, seq_values.
  rewrite Hc, Hi, Hl. cbn.
  destruct (Qeqb (pt_x (tinstant_value i)) (pt_x (tinstant_value j))
            && Qeqb (pt_y (tinstant_value i)) (pt_y (tinstant_value j)));
    reflexivity.
Qed.

Lemma is_simple_step_two (seq : TSequence) :
  seq_count seq = 2%nat -> seq_interp seq = STEP ->
  tpointseq_is_simple seq =
  Some (negb (datum_point_eq (inst_value (TSEQUENCE_INST_N seq 0))
                (inst_value (TSEQUENCE_INST_N seq 1)))).
Proof.
  intros Hc Hi. destruct (count_two seq Hc) as (i & j & Hl).
  unfold tpointseq_is_simple, MEOS_FLAGS_GET_LINEAR,
    tpointseq_discstep_is_simple, seq_values, TSEQUENCE_INST_N.
  rewrite Hc, Hi, Hl. cbn.
  unfold tinstant_value.
  destruct (point_leb (inst_value i) (inst_value j)); cbn;
    rewrite ?orb_false_r; [reflexivity|].
  rewrite datum_point_eq_sym. reflexivity.
Qed.

(** Every sequence of one instant is simple; every sequence of two
    instants with linear interpolation is simple; a sequence of two
    instants with step interpolation is simple when its two values
    differ.  [tpointseq_make_simple] returns every sequence of one
    instant, and every sequence of two instants with step or linear
    interpolation, as exactly one fragment, a copy of the sequence. *)
Lemma short_sequences_simple (seq : TSequence) :
  (seq_count seq = 1%nat ->
   tpointseq_is_simple seq = Some true
   /\ tpointseq_make_simple seq = Some [seq])
  /\ (seq_count seq = 2%nat -> seq_interp seq = LINEAR ->
      tpointseq_is_simple seq = Some true
      /\ tpointseq_make_simple seq = Some [seq])
  /\ (seq_count seq = 2%nat -> seq_interp seq = STEP ->
      tpointseq_make_simple seq = Some [seq]
      /\ (datum_point_eq (inst_value (TSEQUENCE_INST_N seq 0))
            (inst_value (TSEQUENCE_INST_N seq 1)) = false ->
          tpointseq_is_simple seq = Some true)).
Proof.
  split; [|split].
  - intros Hc. split.
    + unfold tpointseq_is_simple. rewrite Hc. reflexivity.
    + apply make_simple_short. left. exact Hc.
  - intros Hc Hi. split.
    + apply is_simple_linear_two; assumption.
    + apply make_simple_short. right. split; [exact Hc|]. congruence.
  - intros Hc Hi. split.
    + apply make_simple_short. right. split; [exact Hc|]. congruence.
    + intros Hne. rewrite (is_simple_step_two seq Hc Hi), Hne. reflexivity.
Qed.

(** C9 (the code at the failing input).  For the step sequence
    [[Point(0 0)@1, Point(0 0)@2)] [tpointseq_is_simple] returns false,
    while [tpointseq_make_simple] returns the sequence as its only
    fragment, as one that is simple already; for the same two instants
    with linear interpolation [tpointseq_is_simple] returns true. *)
Theorem step_equal_pair_not_simple :
  seq_count step_equal_pair = 2%nat /\ seq_interp step_equal_pair = STEP
  /\ tpointseq_is_simple step_equal_pair = Some false
  /\ tpointseq_make_simple step_equal_pair = Some [step_equal_pair]
  /\ tpointseq_is_simple linear_still_pair = Some true.
Proof.
  destruct (short_sequences_simple step_equal_pair) as (_ & _ & Hs).
  destruct (Hs eq_refl eq_refl) as [Hm _].
  destruct (short_sequences_simple linear_still_pair) as (_ & Hl & _).
  destruct (Hl eq_refl eq_refl) as [Hsl _].
  repeat split; assumption.
Qed.

(** ** Fragments of a step sequence *)

(** C2 (the code at the failing input).  [tpointseq_make_simple] splits
    the step sequence at its third instant; the first fragment ends with
    a copy of the value of the second instant, and [tpointseq_is_simple]
    returns false on it. *)
Theorem make_simple_step_fragment_not_simple :
  tpointseq_make_simple step_revisit =
    Some [step_revisit_head; step_revisit_tail]
  /\ tpointseq_is_simple step_revisit_head = Some false.
Proof. split; vm_compute; reflexivity. Qed.

(** ** The entry points *)

(** C3 (amended).  With an empty geometry [tpoint_restrict_geom_time]
    raises no error, whatever the other arguments: in "at" mode it
    returns no value and in "minus" mode a copy of the temporal point,
    before the checks of the reference system and of the dimensions and
    before any bounding-box work. *)
Theorem empty_geometry_restriction (E : Collaborators) (temp : Temporal)
  (gs : GSERIALIZED E) (zspan : option (Span Q)) (period : option Period)
  (atfunc : bool) :
  gserialized_is_empty E gs = true ->
  tpoint_restrict_geom_time E temp gs zspan period atfunc =
  Ok (if atfunc then None else Some temp).
Proof.
  intros He. unfold tpoint_restrict_geom_time. rewrite He. reflexivity.
Qed.

Lemma empty_geometry_counterexample :
  gserialized_is_empty rect_collaborators empty_rect = true
  /\ tpoint_restrict_geom_time rect_collaborators origin_instant empty_rect
       None None REST_AT <> Error InvalidArgument
  /\ tpoint_restrict_geom_time rect_collaborators origin_instant empty_rect
       None None REST_MINUS <> Error InvalidArgument.
Proof. repeat split; discriminate. Qed.

Lemma empty_geometry_restriction_witness :
  tpoint_restrict_geom_time rect_collaborators origin_instant empty_rect
    None None REST_AT = Ok None
  /\ tpoint_restrict_geom_time rect_collaborators origin_instant empty_rect
       None None REST_MINUS = Ok (Some origin_instant).
Proof.
  split.
  - apply (empty_geometry_restriction rect_collaborators origin_instant
             empty_rect None None REST_AT). reflexivity.
  - apply (empty_geometry_restriction rect_collaborators origin_instant
             empty_rect None None REST_MINUS). reflexivity.
Defined.

(** C4 (amended).  For a call that passes the parameter checks of the
    entry point (same reference system; a geometry without Z, and a
    temporal point with Z when a Z span is given; for a box, same
    geodetic flag and a box with an X dimension), when the bounding box
    of the temporal point does not overlap that of the restriction, the
    restriction does not fail: "at" returns no value and "minus" returns
    the temporal point unchanged. *)
Theorem disjoint_boxes_restriction (E : Collaborators) (temp : Temporal)
  (atfunc : bool) :
  (forall (gs : GSERIALIZED E) (zspan : option (Span Q))
          (period : option Period),
     tpoint_srid temp = gserialized_get_srid E gs ->
     gserialized_has_z E gs = false ->
     (zspan <> None -> temporal_hasz temp = true) ->
     overlaps_stbox_stbox E (temporal_set_bbox E temp)
       (restriction_box E gs zspan period) = false ->
     tpoint_restrict_geom_time E temp gs zspan period atfunc =
     Ok (if atfunc then None else Some temp))
  /\ (forall (box : STBox) (border_inc : bool),
        box_hasx box = true ->
        tpoint_srid temp = box_srid box ->
        temporal_geodetic temp = box_geodetic box ->
        overlaps_stbox_stbox E (temporal_set_bbox E temp) box = false ->
        tpoint_restrict_stbox E temp box border_inc atfunc =
        Ok (if atfunc then None else Some temp)).
Proof.
  split.
  - intros gs zspan period Hsrid Hz Hzs Hov.
    unfold tpoint_restrict_geom_time.
    destruct (gserialized_is_empty E gs); [reflexivity|].
    unfold ensure_same_srid, ensure_has_not_Z_gs, ensure_has_Z.
    rewrite Hsrid, Z.eqb_refl, Hz. cbn [bind].
    destruct zspan as [zs|].
    + rewrite Hzs by discriminate. cbn [bind]. rewrite Hov. reflexivity.
    + cbn [bind]. rewrite Hov. reflexivity.
  - intros box border_inc Hx Hsrid Hg Hov.
    unfold tpoint_restrict_stbox. rewrite Hx. cbn [negb andb].
    rewrite andb_false_r.
    unfold ensure_same_srid, ensure_same_geodetic.
    rewrite Hsrid, Z.eqb_refl, Hg, eqb_reflx. cbn [bind].
    rewrite Hov. reflexivity.
Qed.

Lemma disjoint_boxes_counterexample :
  overlaps_stbox_stbox rect_collaborators
    (temporal_set_bbox rect_collaborators origin_instant)
    (restriction_box rect_collaborators far_rect_other_srid None None) = false
  /\ tpoint_restrict_geom_time rect_collaborators origin_instant
       far_rect_other_srid None None REST_AT = Error InvalidArgument
  /\ tpoint_restrict_geom_time rect_collaborators origin_instant
       far_rect_other_srid None None REST_MINUS = Error InvalidArgument.
Proof. repeat split. Qed.

Lemma disjoint_boxes_restriction_witness :
  tpoint_restrict_geom_time rect_collaborators origin_instant
    (rect_of_Z 100 200 100 200) None None REST_MINUS = Ok (Some origin_instant)
  /\ tpoint_restrict_stbox rect_collaborators origin_instant
       (stbox_of_Z 100 200 100 200) true REST_AT = Ok None.
Proof.
  split.
  - apply (proj1 (disjoint_boxes_restriction rect_collaborators origin_instant
                    REST_MINUS)
             (rect_of_Z 100 200 100 200) None None);
      try reflexivity. intros H. exfalso. apply H. reflexivity.
  - apply (proj2 (disjoint_boxes_restriction rect_collaborators origin_instant
                    REST_AT)
             (stbox_of_Z 100 200 100 200) true); reflexivity.
Defined.

(** ** Step sequences and geometries *)

(** C8.  A step sequence that holds [v1] on [[t1, t2)] and [v2] on
    [[t2, t3)], restricted "at" a geometry that contains [v1] and not
    [v2], without Z span and period, gives exactly the sequence that holds
    [v1] from [t1], included, until [t2], excluded. *)
Theorem step_at_geometry_until_failing (E : Collaborators) (gs : GSERIALIZED E)
  (v1 v2 : Point) (t1 t2 t3 : TimestampTz) :
  geom_intersects2d E v1 gs = true ->
  geom_intersects2d E v2 gs = false ->
  tpointseq_step_restrict_geom_time E (step_two_values v1 v2 t1 t2 t3) gs
    None None REST_AT =
  Some (mkTSequenceSet
          [tsequence_make [mkTInstant v1 t1; mkTInstant v1 t2] true false STEP]).
Proof.
  intros H1 H2.
  unfold tpointseq_step_restrict_geom_time, tpointseq_step_at_geom_time_iter,
    step_at_iter, step_two_values, tsequence_make, seq_count,
    step_iter_body, tpointinst_restrict_geom_time_iter, REST_AT.
  cbn. rewrite H1. cbn. rewrite H2. cbn.
  unfold step_close, step_iter_finish. cbn.
  rewrite Z.eqb_refl. reflexivity.
Qed.

Lemma step_at_geometry_until_failing_witness :
  tpointseq_step_restrict_geom_time rect_collaborators
    (step_two_values (point_of_Z 0 0) (point_of_Z 5 5) 1%Z 2%Z 3%Z)
    (rect_of_Z (-1) 1 (-1) 1) None None REST_AT =
  Some (mkTSequenceSet
          [tsequence_make
             [mkTInstant (point_of_Z 0 0) 1%Z; mkTInstant (point_of_Z 0 0) 2%Z]
             true false STEP]).
Proof.
  apply (step_at_geometry_until_failing rect_collaborators
           (rect_of_Z (-1) 1 (-1) 1) (point_of_Z 0 0) (point_of_Z 5 5)
           1%Z 2%Z 3%Z); reflexivity.
Defined.

(** ** A linear sequence open at its start and a box touching it there *)

(** C1 (the code at the failing input).  The linear sequence from
    [(0,0)] at time 1, excluded, to [(1,1)] at time 2 touches the box
    [[-1,0] x [-1,0]] at its start point only.  Restricted "at" the box,
    border inclusive, it gives the instantaneous sequence at time 1: a
    time that is in the time extent of the result and not in the time
    extent of the sequence. *)
Theorem linear_at_stbox_outside_time_extent :
  (forall E : Collaborators,
     tpointseq_linear_at_stbox_iter E open_start_segment corner_box true =
     Ok (Some [start_point_sequence]))
  /\ tpoint_restrict_stbox rect_collaborators (TSEQUENCE open_start_segment)
       corner_box true REST_AT =
     Ok (Some (TSEQUENCESET (mkTSequenceSet [start_point_sequence])))
  /\ tsequence_time_contains start_point_sequence 1%Z = true
  /\ tsequence_time_contains open_start_segment 1%Z = false.
Proof.
  split; [|split; [|split]].
  - intros E. vm_compute. reflexivity.
  - vm_compute. reflexivity.
  - reflexivity.
  - reflexivity.
Qed.

(* ================================================================== *)
(** * Further properties of the code *)
(* ================================================================== *)

(** ** The point stored by the segment classifier *)

Lemma parseg2d_intersection_point (a b c d : POINT2D) :
  match parseg2d_intersection a b c d with
  | (MEOS_SEG_TOUCH_END, Some p) =>
      (point2d_equiv p a \/ point2d_equiv p b)
      /\ (point2d_equiv p c \/ point2d_equiv p d)
  | (MEOS_SEG_TOUCH_END, None) => False
  | (_, Some _) => False
  | (_, None) => True
  end.
Proof.
  unfold parseg2d_intersection, point2d_equiv.
  destruct (_ || _); [exact I|].
  destruct (point2d_same b c) eqn:Ebc; [|destruct (point2d_same b d) eqn:Ebd];
    cbn [orb p2x p2y];
    try (apply point2d_same_eq in Ebc); try (apply point2d_same_eq in Ebd);
    try (split; [right; split; reflexivity|tauto]).
  destruct (point2d_same a c) eqn:Eac; [|destruct (point2d_same a d) eqn:Ead];
    cbn [orb p2x p2y];
    try (apply point2d_same_eq in Eac); try (apply point2d_same_eq in Ead);
    try (split; [left; split; reflexivity|tauto]).
  exact I.
Qed.

Lemma seg2d_intersection_point (a b c d : POINT2D) :
  match seg2d_intersection a b c d with
  | (MEOS_SEG_TOUCH_END, Some p) =>
      (point2d_equiv p a \/ point2d_equiv p b)
      /\ (point2d_equiv p c \/ point2d_equiv p d)
  | (MEOS_SEG_TOUCH_END, None) => False
  | (_, Some _) => False
  | (_, None) => True
  end.
Proof.
  unfold seg2d_intersection.
  destruct (lw_seg_interact a b c d); cbn [negb]; [|exact I].
  pose proof (parseg2d_intersection_point a b c d) as Hp.
  destruct (seg2d_side a b c) eqn:S1; destruct (seg2d_side a b d) eqn:S2;
    destruct (seg2d_side c d a) eqn:S3; destruct (seg2d_side c d b) eqn:S4;
    cbn [Z.gtb Z.ltb Z.eqb Z.compare andb orb];
    try exact I; try exact Hp;
    unfold point2d_equiv;
    (destruct (point2d_same b c) eqn:Ebc; [|destruct (point2d_same b d) eqn:Ebd];
     cbn [orb p2x p2y];
     try (apply point2d_same_eq in Ebc); try (apply point2d_same_eq in Ebd);
     try (split; [right; split; reflexivity|tauto]);
     destruct (point2d_same a c) eqn:Eac; [|destruct (point2d_same a d) eqn:Ead];
     cbn [orb p2x p2y];
     try (apply point2d_same_eq in Eac); try (apply point2d_same_eq in Ead);
     try (split; [left; split; reflexivity|tauto]);
     exact I).
Qed.

(** ** At and Minus on values defined at isolated timestamps *)

Lemma stbox_iter_minus (inst : TInstant) (box : STBox) (border_inc : bool) :
  tpointinst_restrict_stbox_iter inst box border_inc REST_MINUS =
  negb (tpointinst_restrict_stbox_iter inst box border_inc REST_AT).
Proof.
  unfold tpointinst_restrict_stbox_iter, REST_MINUS, REST_AT.
  repeat match goal with
  | |- context [if ?b then _ else _] => destruct b
  end; reflexivity.
Qed.

Lemma geom_iter_minus (E : Collaborators) (inst : TInstant)
  (gs : GSERIALIZED E) (zspan : option (Span Q)) (period : option Period) :
  tpointinst_restrict_geom_time_iter E inst gs zspan period REST_MINUS =
  negb (tpointinst_restrict_geom_time_iter E inst gs zspan period REST_AT).
Proof.
  unfold tpointinst_restrict_geom_time_iter, REST_MINUS, REST_AT.
  repeat match goal with
  | |- context [if ?b then _ else _] => destruct b
  end; reflexivity.
Qed.

Lemma filter_all_false {A : Type} (l : list A) :
  filter (fun _ => false) l = [].
Proof. induction l; [reflexivity|exact IHl]. Qed.

Lemma filter_all_true {A : Type} (l : list A) :
  filter (fun _ => true) l = l.
Proof. induction l; [reflexivity|cbn; f_equal; exact IHl]. Qed.

(** The shape shared by the two discrete restriction functions. *)
Lemma discrete_filter_instants (seq : TSequence) (keep : TInstant -> bool) :
  match
    (if (seq_count seq =? 1)%nat
     then if keep (TSEQUENCE_INST_N seq 0) then Some (tsequence_copy seq)
          else None
     else if (0 <? length (filter keep (seq_instants seq)))%nat
          then Some (tsequence_make (filter keep (seq_instants seq)) true
                       true DISCRETE)
          else None)
  with
  | Some s => seq_instants s
  | None => []
  end = filter keep (seq_instants seq).
Proof.
  unfold seq_count, TSEQUENCE_INST_N, tsequence_copy.
  destruct (seq_instants seq) as [|i [|j l]] eqn:El; cbn.
  - reflexivity.
  - destruct (keep i); [exact El|reflexivity].
  - destruct (keep i); cbn; [reflexivity|].
    destruct (keep j); cbn; [reflexivity|].
    destruct (filter keep l); reflexivity.
Qed.

Lemma disc_restrict_stbox_instants (seq : TSequence) (box : STBox)
  (border_inc atfunc : bool) :
  match tpointseq_disc_restrict_stbox seq box border_inc atfunc with
  | Some s => seq_instants s
  | None => []
  end =
  filter (fun inst => tpointinst_restrict_stbox_iter inst box border_inc atfunc)
    (seq_instants seq).
Proof.
  unfold tpointseq_disc_restrict_stbox.
  apply (discrete_filter_instants seq
           (fun inst => tpointinst_restrict_stbox_iter inst box border_inc atfunc)).
Qed.

Lemma disc_restrict_geom_instants (E : Collaborators) (seq : TSequence)
  (gs : GSERIALIZED E) (zspan : option (Span Q)) (period : option Period)
  (atfunc : bool) :
  match tpointseq_disc_restrict_geom_time E seq gs zspan period atfunc with
  | Some s => seq_instants s
  | None => []
  end =
  filter (fun inst =>
            tpointinst_restrict_geom_time_iter E inst gs zspan period atfunc)
    (seq_instants seq).
Proof.
  unfold tpointseq_disc_restrict_geom_time.
  apply (discrete_filter_instants seq
           (fun inst =>
              tpointinst_restrict_geom_time_iter E inst gs zspan period atfunc)).
Qed.

Lemma filter_ext_negb {A : Type} (f g : A -> bool) (l : list A) :
  (forall a, g a = negb (f a)) ->
  filter g l = filter (fun a => negb (f a)) l.
Proof. intros H. apply filter_ext. exact H. Qed.

(** ** Arrays *)

Lemma array_set_length {A : Type} (l : list A) (k : nat) (v : A) :
  length (array_set l k v) = length l.
Proof.
  revert k. induction l as [|h tl IH]; intros k; [destruct k; reflexivity|].
  destruct k; cbn; [reflexivity|]. rewrite IH. reflexivity.
Qed.

Lemma array_set_nth_same {A : Type} (l : list A) (k : nat) (v d : A) :
  (k < length l)%nat -> nth k (array_set l k v) d = v.
Proof.
  revert k. induction l as [|h tl IH]; intros k Hk; cbn in Hk; [lia|].
  destruct k; cbn; [reflexivity|]. apply IH. lia.
Qed.

Lemma array_set_nth_other {A : Type} (l : list A) (k i : nat) (v d : A) :
  i <> k -> nth i (array_set l k v) d = nth i l d.
Proof.
  revert k i. induction l as [|h tl IH]; intros k i Hn.
  - destruct k; reflexivity.
  - destruct k; destruct i; cbn; try reflexivity; try lia.
    apply IH. lia.
Qed.

Lemma count_set_array_set (l : list bool) (k : nat) :
  (k < length l)%nat -> nth k l false = false ->
  count_set (array_set l k true) = S (count_set l).
Proof.
  unfold count_set. revert k. induction l as [|h tl IH]; intros k Hk Hn;
    cbn in Hk; [lia|].
  destruct k; cbn in *.
  - subst h. reflexivity.
  - destruct h; cbn; rewrite IH; try lia; try assumption; reflexivity.
Qed.

Lemma count_set_repeat (n : nat) : count_set (repeat false n) = 0%nat.
Proof. unfold count_set. induction n; [reflexivity|exact IHn]. Qed.

Lemma nth_repeat_false (n i : nat) : nth i (repeat false n) false = false.
Proof.
  revert i. induction n; intros i; destruct i; cbn; try reflexivity.
  apply IHn.
Qed.

Lemma count_set_zero (l : list bool) :
  count_set l = 0%nat -> forall i, nth i l false = false.
Proof.
  unfold count_set. induction l as [|h tl IH]; intros H i.
  - destruct i; reflexivity.
  - destruct h; cbn in H; [discriminate|].
    destruct i; [reflexivity|]. apply IH. exact H.
Qed.

(** The cells set from a position on. *)
Lemma count_set_skipn_clear (l : list bool) (a : nat) :
  nth a l false = false ->
  count_set (skipn a l) = count_set (skipn (S a) l).
Proof.
  unfold count_set. revert a. induction l as [|h tl IH]; intros a Hn.
  - destruct a; reflexivity.
  - destruct a; cbn in *.
    + subst h. reflexivity.
    + apply IH. exact Hn.
Qed.

Lemma count_set_skipn_set (l : list bool) (a : nat) :
  nth a l false = true ->
  count_set (skipn a l) = S (count_set (skipn (S a) l)).
Proof.
  unfold count_set. revert a. induction l as [|h tl IH]; intros a Hn.
  - destruct a; discriminate.
  - destruct a; cbn in *.
    + subst h. reflexivity.
    + apply IH. exact Hn.
Qed.

Lemma count_set_skipn_all (l : list bool) (a : nat) :
  (length l <= a)%nat -> count_set (skipn a l) = 0%nat.
Proof.
  intros H. rewrite skipn_all2; [reflexivity|exact H].
Qed.

Lemma count_set_skipn_run (l : list bool) (a e : nat) :
  (a <= e)%nat ->
  (forall i, (a <= i)%nat -> (i < e)%nat -> nth i l false = false) ->
  count_set (skipn a l) = count_set (skipn e l).
Proof.
  intros Hae. induction Hae as [|e Hae IH]; intros H; [reflexivity|].
  rewrite IH by (intros i H1 H2; apply H; lia).
  apply count_set_skipn_clear. apply H; lia.
Qed.

(** ** The search for the next split *)

Lemma advance_end_spec (bitarr : list bool) (limit : nat) :
  forall fuel e, (limit - e <= fuel)%nat ->
  let e' := advance_end fuel bitarr limit e in
  (e <= e')%nat
  /\ (forall i, (e <= i)%nat -> (i < e')%nat -> nth i bitarr false = false)
  /\ ((e' < limit)%nat -> nth e' bitarr false = true)
  /\ ((e <= limit)%nat -> (e' <= limit)%nat).
Proof.
  induction fuel as [|fuel IH]; intros e Hf; cbn zeta; cbn [advance_end].
  - repeat split; intros; lia.
  - destruct (e <? limit)%nat eqn:El; cbn [andb].
    + apply Nat.ltb_lt in El.
      destruct (nth e bitarr false) eqn:Eb; cbn [negb].
      * repeat split; intros; try lia; assumption.
      * destruct (IH (S e)) as (H1 & H2 & H3 & H4); [lia|]. cbn zeta in *.
        repeat split; try lia.
        -- intros i Hi1 Hi2. destruct (Nat.eq_dec i e) as [->|Hne];
             [exact Eb|]. apply H2; lia.
        -- exact H3.
    + apply Nat.ltb_ge in El. repeat split; intros; lia.
Qed.

Lemma next_split_spec (splits : list bool) (limit start : nat) :
  (start < limit)%nat ->
  let e := next_split splits limit start in
  (start < e)%nat /\ (e <= limit)%nat
  /\ (forall i, (start < i)%nat -> (i < e)%nat -> nth i splits false = false)
  /\ ((e < limit)%nat -> nth e splits false = true).
Proof.
  intros Hs. unfold next_split.
  destruct (advance_end_spec splits limit limit (start + 1)) as (H1 & H2 & H3 & H4);
    [lia|].
  repeat split; try lia.
  - intros i Hi1 Hi2. apply H2; lia.
  - exact H3.
Qed.

(** ** Splits of a discrete or step sequence *)

(** The inner scan stops within its fuel; a split found at [k'] means
    that the values before [k'] are pairwise different and that the value
    at [k'] repeats one of them. *)
Lemma discstep_scan_spec (vals : list Point) (start end_ : nat) :
  forall fuel j k,
  (start <= j)%nat -> (j < k)%nat -> (k <= end_)%nat ->
  ((end_ - k) * S end_ + (k - j) < fuel)%nat ->
  (forall j' k', (start <= j')%nat -> (j' < k')%nat ->
     (k' < k \/ (k' = k /\ j' < j))%nat ->
     datum_point_eq (nth j' vals default_point) (nth k' vals default_point)
     = false) ->
  match discstep_scan fuel vals start end_ j k with
  | Some (Some k') =>
      (k <= k')%nat /\ (k' <= end_)%nat /\ values_distinct vals start k'
      /\ ~ values_distinct vals start (S k')
  | Some None => values_distinct vals start (S end_)
  | None => False
  end.
Proof.
  induction fuel as [|fuel IH]; intros j k Hsj Hjk Hke Hf Hd;
    [exfalso; exact (Nat.nlt_0_r _ Hf)|].
  cbn [discstep_scan].
  destruct (datum_point_eq (nth j vals default_point) (nth k vals default_point))
    eqn:E.
  - split; [lia|]. split; [lia|]. split.
    + intros j' k' H1 H2 H3. apply Hd; [lia|lia|left; lia].
    + intros Hv. rewrite (Hv j k) in E; [discriminate|lia|lia|lia].
  - destruct (j <? k - 1)%nat eqn:Ej.
    + apply Nat.ltb_lt in Ej. apply IH; try lia.
      intros j' k' H1 H2 [H3|[H3 H4]].
      * apply Hd; [lia|lia|left; lia].
      * destruct (Nat.eq_dec j' j) as [->|Hne]; [subst k'; exact E|].
        apply Hd; [lia|lia|right; lia].
    + apply Nat.ltb_ge in Ej.
      assert (forall j' k', (start <= j')%nat -> (j' < k')%nat ->
                (k' < S k)%nat ->
                datum_point_eq (nth j' vals default_point)
                  (nth k' vals default_point) = false) as Hall.
      { intros j' k' H1 H2 H3.
        destruct (Nat.eq_dec k' k) as [->|Hne].
        - destruct (Nat.eq_dec j' j) as [->|Hne']; [exact E|].
          apply Hd; [lia|lia|right; lia].
        - apply Hd; [lia|lia|left; lia]. }
      destruct (end_ <? S k)%nat eqn:Ee.
      * apply Nat.ltb_lt in Ee. assert (end_ = k) as -> by lia.
        intros j' k' H1 H2 H3. apply Hall; lia.
      * apply Nat.ltb_ge in Ee.
        assert (match discstep_scan fuel vals start end_ start (S k) with
                | Some (Some k') =>
                    (S k <= k')%nat /\ (k' <= end_)%nat
                    /\ values_distinct vals start k'
                    /\ ~ values_distinct vals start (S k')
                | Some None => values_distinct vals start (S end_)
                | None => False
                end) as Hr.
        { apply IH; try lia.
          - nia.
          - intros j' k' H1 H2 [H3|[H3 H4]]; [|lia]. apply Hall; lia. }
        destruct (discstep_scan fuel vals start end_ start (S k)) as [[k'|]|];
          [|exact Hr|exact Hr].
        destruct Hr as (A & B & C & D). repeat split; try lia; assumption.
Qed.

(** The fuel given to the scan by the outer loop is enough. *)
Lemma discstep_scan_fuel (n start end_ : nat) :
  (start < end_)%nat -> (end_ < n)%nat ->
  ((end_ - S start) * S end_ + (S start - start) < S (n * n))%nat.
Proof. intros. nia. Qed.

Lemma values_distinct_sub (vals : list Point) (s e s' e' : nat) :
  (s <= s')%nat -> (e' <= e)%nat ->
  values_distinct vals s e -> values_distinct vals s' e'.
Proof. intros H1 H2 H j k A B C. apply H; lia. Qed.

Lemma discstep_loop_spec (vals : list Point) (end_ : nat) :
  (end_ < length vals \/ end_ = 0)%nat ->
  forall fuel bitarr numsplits start,
  (end_ - start < fuel)%nat -> (start <= end_)%nat ->
  length bitarr = length vals ->
  count_set bitarr = numsplits ->
  nth 0 bitarr false = false ->
  (forall i, (start < i)%nat -> nth i bitarr false = false) ->
  ((0 < start)%nat -> nth start bitarr false = true) ->
  pieces_distinct vals bitarr start ->
  exists bitarr' n',
    discstep_loop fuel vals bitarr numsplits start end_ = Some (bitarr', n')
    /\ length bitarr' = length vals
    /\ count_set bitarr' = n'
    /\ nth 0 bitarr' false = false
    /\ pieces_distinct vals bitarr' (S end_).
Proof.
  intros Hend.
  induction fuel as [|fuel IH];
    intros bitarr numsplits start Hf Hse Hlen Hcnt H0 Hafter Hat Hpieces; [lia|].
  cbn [discstep_loop].
  assert (forall s e, (s < e)%nat -> (e <= S end_)%nat ->
            (forall i, (s < i)%nat -> (i < e)%nat -> nth i bitarr false = false) ->
            values_distinct vals start (S end_) ->
            values_distinct vals s e) as Hfinal.
  { intros s e Hs He Hb Hd.
    destruct (Nat.le_gt_cases e start) as [L|L].
    - apply Hpieces; assumption.
    - destruct (Nat.le_gt_cases start s) as [L'|L'].
      + eapply values_distinct_sub; [| |exact Hd]; lia.
      + exfalso. rewrite Hb in Hat by lia. specialize (Hat ltac:(lia)).
        discriminate. }
  destruct (start <? end_)%nat eqn:Es.
  - apply Nat.ltb_lt in Es.
    assert (end_ < length vals)%nat as Hend' by lia.
    pose proof (discstep_scan_spec vals start end_ (S (length vals * length vals))
                  start (S start) (Nat.le_refl _) (Nat.lt_succ_diag_r _) Es
                  (discstep_scan_fuel _ _ _ Es Hend')) as Hscan.
    destruct (discstep_scan (S (length vals * length vals)) vals start end_ start
                (S start)) as [[k|]|].
    + destruct Hscan as (Hk1 & Hk2 & Hd & _); [intros; lia|].
      apply IH; try lia.
      * rewrite array_set_length. exact Hlen.
      * rewrite count_set_array_set; [lia|lia|]. apply Hafter. lia.
      * rewrite array_set_nth_other by lia. exact H0.
      * intros i Hi. rewrite array_set_nth_other by lia. apply Hafter. lia.
      * intros _. apply array_set_nth_same. lia.
      * intros s e Hs He Hb.
        assert (forall i, (s < i)%nat -> (i < e)%nat -> nth i bitarr false = false)
          as Hb'.
        { intros i A B.
          rewrite <- (array_set_nth_other bitarr k i true false) by lia.
          apply Hb; assumption. }
        destruct (Nat.le_gt_cases e start) as [L|L];
          [apply Hpieces; assumption|].
        destruct (Nat.le_gt_cases start s) as [L'|L'].
        -- eapply values_distinct_sub; [| |exact Hd]; lia.
        -- exfalso. rewrite Hb' in Hat by lia. specialize (Hat ltac:(lia)).
           discriminate.
    + specialize (Hscan ltac:(intros; lia)).
      exists bitarr, numsplits. repeat split; try assumption.
      intros s e Hs He Hb. apply Hfinal; assumption.
    + exfalso. apply Hscan. intros; lia.
  - apply Nat.ltb_ge in Es. assert (start = end_) as -> by lia.
    exists bitarr, numsplits. repeat split; try assumption.
    intros s e Hs He Hb. apply Hfinal; try assumption.
    intros j k A B C. lia.
Qed.

Lemma seq_values_length (seq : TSequence) :
  length (seq_values seq) = seq_count seq.
Proof. unfold seq_values, seq_count. apply length_map. Qed.

Lemma discstep_find_splits_spec (seq : TSequence) :
  exists bitarr n,
    tpointseq_discstep_find_splits seq = Some (bitarr, n)
    /\ length bitarr = seq_count seq
    /\ count_set bitarr = n
    /\ nth 0 bitarr false = false
    /\ pieces_distinct (seq_values seq) bitarr (seq_count seq).
Proof.
  unfold tpointseq_discstep_find_splits.
  destruct (discstep_loop_spec (seq_values seq) (seq_count seq - 1))
    with (fuel := S (seq_count seq)) (bitarr := repeat false (seq_count seq))
         (numsplits := 0%nat) (start := 0%nat)
    as (bitarr' & n' & H1 & H2 & H3 & H4 & H5).
  - rewrite seq_values_length. lia.
  - lia.
  - lia.
  - rewrite repeat_length, seq_values_length. reflexivity.
  - apply count_set_repeat.
  - apply nth_repeat_false.
  - intros. apply nth_repeat_false.
  - lia.
  - intros s e Hs He. lia.
  - exists bitarr', n'. rewrite seq_values_length in H2.
    repeat split; try assumption.
    intros s e Hs He Hb. apply H5; try assumption. lia.
Qed.

(** Pairwise different values give no split. *)
Lemma discstep_find_splits_distinct (seq : TSequence) :
  values_distinct (seq_values seq) 0 (seq_count seq) ->
  tpointseq_discstep_find_splits seq
  = Some (repeat false (seq_count seq), 0%nat).
Proof.
  intros Hd. unfold tpointseq_discstep_find_splits. cbn [discstep_loop].
  destruct (0 <? seq_count seq - 1)%nat eqn:Es; [|reflexivity].
  apply Nat.ltb_lt in Es.
  pose proof (discstep_scan_spec (seq_values seq) 0 (seq_count seq - 1)
                (S (length (seq_values seq) * length (seq_values seq)))
                0 1 (Nat.le_refl _) (Nat.lt_succ_diag_r _) Es) as Hscan.
  destruct (discstep_scan _ _ _ _ _ _) as [[k|]|].
  - exfalso. destruct Hscan as (A & B & C & D).
    + apply discstep_scan_fuel; [lia|]. rewrite seq_values_length. lia.
    + intros; lia.
    + apply D. eapply values_distinct_sub; [| |exact Hd]; lia.
  - reflexivity.
  - exfalso. apply Hscan.
    + apply discstep_scan_fuel; [lia|]. rewrite seq_values_length. lia.
    + intros; lia.
Qed.

(** ** Splits are put at repeated values only *)

Lemma discstep_scan_found (vals : list Point) (start end_ : nat) :
  forall fuel j k k',
  (start <= j)%nat -> (j < k)%nat ->
  discstep_scan fuel vals start end_ j k = Some (Some k') ->
  (k <= k')%nat
  /\ exists j', (start <= j')%nat /\ (j' < k')%nat
       /\ datum_point_eq (nth j' vals default_point)
            (nth k' vals default_point) = true.
Proof.
  induction fuel as [|fuel IH]; intros j k k' Hsj Hjk; cbn [discstep_scan];
    [intros H; discriminate H|].
  destruct (datum_point_eq (nth j vals default_point) (nth k vals default_point))
    eqn:E.
  - intros H. injection H as <-. split; [lia|]. exists j. repeat split; try lia.
    exact E.
  - destruct (j <? k - 1)%nat eqn:Ej.
    + apply Nat.ltb_lt in Ej. apply IH; lia.
    + destruct (end_ <? S k)%nat; [intros H; discriminate H|].
      intros H. apply Nat.ltb_ge in Ej.
      destruct (IH start (S k) k' (Nat.le_refl _) ltac:(lia) H) as [A B].
      split; [lia|exact B].
Qed.

Lemma discstep_loop_repeat (vals : list Point) (end_ : nat) :
  forall fuel bitarr numsplits start bitarr' n',
  (forall i, (start < i)%nat -> nth i bitarr false = false) ->
  splits_repeat vals bitarr ->
  discstep_loop fuel vals bitarr numsplits start end_ = Some (bitarr', n') ->
  splits_repeat vals bitarr'.
Proof.
  induction fuel as [|fuel IH]; intros bitarr numsplits start bitarr' n' Hafter Hr;
    cbn [discstep_loop]; [intros H; discriminate H|].
  destruct (start <? end_)%nat; [|intros H; injection H as <- _; exact Hr].
  destruct (discstep_scan _ vals start end_ start (S start)) as [[k|]|] eqn:Es;
    [|intros H; injection H as <- _; exact Hr|intros H; discriminate H].
  destruct (discstep_scan_found vals start end_ _ _ _ _ (Nat.le_refl _)
              (Nat.lt_succ_diag_r _) Es) as (Hk & j' & J1 & J2 & J3).
  apply IH.
  - intros i Hi. rewrite array_set_nth_other by lia. apply Hafter. lia.
  - intros k0 Hk0. destruct (Nat.eq_dec k0 k) as [->|Hne].
    + exists j'. split; [exact J2|]. split; [|exact J3].
      intros i A B. rewrite array_set_nth_other by lia. apply Hafter. lia.
    + rewrite array_set_nth_other in Hk0 by lia.
      destruct (Hr k0 Hk0) as (j & A & B & C).
      exists j. split; [exact A|]. split; [|exact C].
      intros i Hi1 Hi2.
      assert (k0 <= start)%nat as Hle.
      { destruct (Nat.le_gt_cases k0 start) as [L|L]; [exact L|].
        rewrite Hafter in Hk0 by lia. discriminate Hk0. }
      rewrite array_set_nth_other by lia. apply B; assumption.
Qed.

Lemma discstep_find_splits_repeat (seq : TSequence) (bitarr : list bool)
  (n : nat) :
  tpointseq_discstep_find_splits seq = Some (bitarr, n) ->
  splits_repeat (seq_values seq) bitarr.
Proof.
  unfold tpointseq_discstep_find_splits.
  apply discstep_loop_repeat.
  - intros i _. apply nth_repeat_false.
  - intros k Hk. rewrite nth_repeat_false in Hk. discriminate Hk.
Qed.

(** ** Fragments of a discrete sequence *)

Lemma subarray_nth {A : Type} (l : list A) (s n j : nat) (d : A) :
  (j < n)%nat -> nth j (subarray l s n) d = nth (s + j) l d.
Proof.
  intros Hj. unfold subarray. rewrite nth_firstn.
  apply Nat.ltb_lt in Hj. rewrite Hj. apply nth_skipn.
Qed.

Lemma subarray_length {A : Type} (l : list A) (s n : nat) :
  (s + n <= length l)%nat -> length (subarray l s n) = n.
Proof.
  intros H. unfold subarray. rewrite length_firstn, length_skipn. lia.
Qed.

Lemma skipn_subarray {A : Type} (l : list A) (s e : nat) :
  (s <= e)%nat -> skipn s l = subarray l s (e - s) ++ skipn e l.
Proof.
  intros H. unfold subarray.
  rewrite <- (firstn_skipn (e - s) (skipn s l)) at 1.
  rewrite skipn_skipn. replace (e - s + s)%nat with e by lia. reflexivity.
Qed.

Lemma datum_point_eq_symm (p q : Point) :
  datum_point_eq p q = datum_point_eq q p.
Proof.
  unfold datum_point_eq, Qeqb.
  rewrite (Z.eqb_sym (pt_srid p)).
  assert (forall a b, Qeq_bool a b = Qeq_bool b a) as Hq.
  { intros a b. destruct (Qeq_bool a b) eqn:E1; destruct (Qeq_bool b a) eqn:E2;
      try reflexivity.
    - apply Qeq_bool_iff in E1. symmetry in E1. apply Qeq_bool_iff in E1. congruence.
    - apply Qeq_bool_iff in E2. symmetry in E2. apply Qeq_bool_iff in E2. congruence. }
  rewrite (Hq (pt_x p)), (Hq (pt_y p)), (Hq (pt_z p)).
  destruct (pt_hasz p), (pt_hasz q), (pt_geodetic p), (pt_geodetic q); cbn;
    rewrite ?andb_false_r; reflexivity.
Qed.

Lemma all_differ_perm (l l' : list Point) :
  Permutation l l' -> all_differ l -> all_differ l'.
Proof.
  induction 1 as [|x l l' Hp IH|x y l|l l' l'' H1 IH1 H2 IH2]; cbn.
  - trivial.
  - intros [H1 H2]. split; [|apply IH; exact H2].
    intros q Hq. apply H1. apply Permutation_sym in Hp.
    eapply Permutation_in; eassumption.
  - intros [H1 [H2 H3]]. split; [|split].
    + intros q [<-|Hq]; [|apply H2; exact Hq].
      rewrite datum_point_eq_symm. apply H1. left. reflexivity.
    + intros q Hq. apply H1. right. exact Hq.
    + exact H3.
  - intros H. apply IH2, IH1, H.
Qed.

Lemma point_insert_perm (p : Point) (l : list Point) :
  Permutation (p :: l) (point_insert p l).
Proof.
  induction l as [|q tl IH]; cbn; [apply Permutation_refl|].
  destruct (point_leb p q); [apply Permutation_refl|].
  eapply Permutation_trans; [apply perm_swap|]. apply perm_skip. exact IH.
Qed.

Lemma datumarr_sort_perm (l : list Point) : Permutation l (datumarr_sort l).
Proof.
  unfold datumarr_sort. induction l as [|p tl IH]; cbn; [apply perm_nil|].
  eapply Permutation_trans; [|apply point_insert_perm].
  apply perm_skip. exact IH.
Qed.

Lemma adjacent_equal_differ (l : list Point) :
  all_differ l -> adjacent_equal l = false.
Proof.
  induction l as [|p [|q tl] IH]; cbn; try reflexivity.
  intros [H1 H2]. rewrite (H1 q) by (left; reflexivity).
  apply IH. exact H2.
Qed.

Lemma values_distinct_all_differ (l : list Point) :
  values_distinct l 0 (length l) -> all_differ l.
Proof.
  induction l as [|p tl IH]; cbn; [trivial|].
  intros H. split.
  - intros q Hq. destruct (In_nth _ _ default_point Hq) as (k & Hk & <-).
    apply (H 0%nat (S k)); lia.
  - apply IH. intros j k A B C. apply (H (S j) (S k)); lia.
Qed.

(** A sequence without linear interpolation whose values are pairwise
    different is simple. *)
Lemma is_simple_distinct (seq : TSequence) :
  MEOS_FLAGS_GET_LINEAR seq = false ->
  values_distinct (seq_values seq) 0 (seq_count seq) ->
  tpointseq_is_simple seq = Some true.
Proof.
  intros Hl Hd. unfold tpointseq_is_simple. rewrite Hl.
  destruct (seq_count seq =? 1)%nat; [reflexivity|]. cbn [negb].
  unfold tpointseq_discstep_is_simple.
  rewrite adjacent_equal_differ; [reflexivity|].
  eapply all_differ_perm; [apply datumarr_sort_perm|].
  apply values_distinct_all_differ. rewrite seq_values_length. exact Hd.
Qed.

Lemma nth_map_value (l : list TInstant) (j : nat) :
  nth j (map tinstant_value l) default_point
  = tinstant_value (nth j l default_instant).
Proof.
  change default_point with (tinstant_value default_instant). apply map_nth.
Qed.

(** The pieces of [tpointseq_disc_split]. *)
Lemma disc_split_loop_spec (seq : TSequence) (splits : list bool) :
  length splits = seq_count seq ->
  pieces_distinct (seq_values seq) splits (seq_count seq) ->
  forall fuel start,
  (seq_count seq - start < fuel)%nat -> (start <= seq_count seq)%nat ->
  exists frags,
    disc_split_loop fuel seq splits start = Some frags
    /\ concat (map seq_instants frags) = skipn start (seq_instants seq)
    /\ ((start < seq_count seq)%nat ->
        length frags = S (count_set (skipn (S start) splits)))
    /\ Forall (fun f => seq_interp f = DISCRETE /\ (0 < seq_count f)%nat
                        /\ values_distinct (seq_values f) 0 (seq_count f))
         frags.
Proof.
  intros Hlen Hp.
  induction fuel as [|fuel IH]; intros start Hf Hs; [lia|].
  cbn [disc_split_loop].
  destruct (start <? seq_count seq)%nat eqn:Es.
  - apply Nat.ltb_lt in Es.
    destruct (next_split_spec splits (seq_count seq) start Es)
      as (N1 & N2 & N3 & N4).
    set (e := next_split splits (seq_count seq) start) in *.
    destruct (IH e) as (rest & R1 & R2 & R3 & R4); [lia|lia|].
    rewrite R1. eexists. split; [reflexivity|].
    assert (length (subarray (seq_instants seq) start (e - start))
            = (e - start)%nat) as Hsl.
    { apply subarray_length. fold (seq_count seq). lia. }
    split; [|split].
    + cbn [map concat tsequence_make seq_instants]. rewrite R2.
      symmetry. apply skipn_subarray. lia.
    + intros _. cbn [length]. f_equal.
      rewrite (count_set_skipn_run splits (S start) e) by (try lia; intros; apply N3; lia).
      destruct (Nat.eq_dec e (seq_count seq)) as [E|E].
      * rewrite E in *. rewrite count_set_skipn_all by lia.
        destruct rest as [|f rest']; [reflexivity|].
        exfalso. rewrite skipn_all2 in R2 by (fold (seq_count seq); lia).
        inversion R4 as [|? ? (_ & Hc & _) _]. subst.
        cbn in R2. apply app_eq_nil in R2 as [R2 _].
        unfold seq_count in Hc. rewrite R2 in Hc. cbn in Hc. lia.
      * rewrite R3 by lia. symmetry. apply count_set_skipn_set. apply N4. lia.
    + constructor; [|exact R4].
      unfold seq_count, seq_values. cbn [tsequence_make seq_instants seq_interp].
      rewrite Hsl. split; [reflexivity|]. split; [lia|].
      intros j k A B C. rewrite !nth_map_value, !subarray_nth by lia.
      pose proof (Hp start e N1 N2 N3 (start + j) (start + k))%nat as Hd.
      unfold seq_values in Hd. rewrite !nth_map_value in Hd. apply Hd; lia.
  - apply Nat.ltb_ge in Es. exists []. split; [reflexivity|].
    split; [|split].
    + cbn. rewrite skipn_all2; [reflexivity|fold (seq_count seq); lia].
    + lia.
    + constructor.
Qed.

(** ** Splits of a sequence with linear interpolation *)

Lemma count_set_pos (l : list bool) (k : nat) :
  nth k l false = true -> (1 <= count_set l)%nat.
Proof.
  unfold count_set. revert k. induction l as [|h tl IH]; intros k H.
  - destruct k; discriminate.
  - destruct h; cbn; [lia|]. destruct k; [discriminate|].
    apply (IH k). exact H.
Qed.

Lemma nth_set_in_range (l : list bool) (k : nat) :
  nth k l false = true -> (k < length l)%nat.
Proof.
  intros H. destruct (Nat.lt_ge_cases k (length l)) as [L|L]; [exact L|].
  rewrite nth_overflow in H by exact L. discriminate.
Qed.

(** The first loop: one more stationary segment. *)
Lemma stationary_step_spec (points : list POINT2D) (count : nat)
  (bitarr : list bool) (numsplits i : nat) :
  (1 <= i)%nat -> (i < count)%nat ->
  length bitarr = count -> count_set bitarr = numsplits ->
  splits_inside bitarr count i ->
  forall bitarr' n',
  stationary_step points count (bitarr, numsplits) i = (bitarr', n') ->
  length bitarr' = count /\ count_set bitarr' = n'
  /\ splits_inside bitarr' count (S i)
  /\ (numsplits <= n')%nat
  /\ (stationary_at points i = true -> (3 <= count)%nat -> (1 <= n')%nat).
Proof.
  intros Hi1 Hi2 Hlen Hcnt Hin bitarr' n'.
  unfold stationary_step, stationary_at.
  destruct (Qeqb _ _ && Qeqb _ _).
  2:{ intros H. injection H as <- <-.
      split; [exact Hlen|]. split; [exact Hcnt|]. split; [|split].
      - intros k Hk. destruct (Hin k Hk). lia.
      - lia.
      - intros; discriminate. }
  destruct ((1 <? i)%nat && negb (nth (i - 1) bitarr false)) eqn:E1.
  - apply andb_true_iff in E1 as [E1 E2]. apply Nat.ltb_lt in E1.
    apply negb_true_iff in E2.
    assert (count_set (array_set bitarr (i - 1) true) = S numsplits) as C1.
    { rewrite count_set_array_set; [lia|lia|exact E2]. }
    assert (splits_inside (array_set bitarr (i - 1) true) count (S i)) as S1.
    { intros k Hk. destruct (Nat.eq_dec k (i - 1)) as [->|Hne]; [lia|].
      rewrite array_set_nth_other in Hk by exact Hne.
      destruct (Hin k Hk). lia. }
    destruct (i <? count - 1)%nat eqn:E3; intros H; injection H as <- <-.
    + apply Nat.ltb_lt in E3.
      rewrite array_set_length, array_set_length.
      split; [exact Hlen|]. split; [|split; [|split]].
      * rewrite count_set_array_set; [lia|rewrite array_set_length; lia|].
        rewrite array_set_nth_other by lia.
        destruct (nth i bitarr false) eqn:Eb; [|reflexivity].
        destruct (Hin i Eb). lia.
      * intros k Hk. destruct (Nat.eq_dec k i) as [->|Hne]; [lia|].
        rewrite array_set_nth_other in Hk by exact Hne. apply S1. exact Hk.
      * lia.
      * intros; lia.
    + rewrite array_set_length. split; [exact Hlen|].
      split; [exact C1|]. split; [exact S1|]. split; [lia|intros; lia].
  - assert (i = 1%nat \/ nth (i - 1) bitarr false = true) as Hcase.
    { apply andb_false_iff in E1 as [E1|E1].
      - apply Nat.ltb_ge in E1. left. lia.
      - apply negb_false_iff in E1. right. exact E1. }
    destruct (i <? count - 1)%nat eqn:E3; intros H; injection H as <- <-.
    + apply Nat.ltb_lt in E3. rewrite array_set_length.
      split; [exact Hlen|]. split; [|split; [|split]].
      * rewrite count_set_array_set; [lia|lia|].
        destruct (nth i bitarr false) eqn:Eb; [|reflexivity].
        destruct (Hin i Eb). lia.
      * intros k Hk. destruct (Nat.eq_dec k i) as [->|Hne]; [lia|].
        rewrite array_set_nth_other in Hk by exact Hne.
        destruct (Hin k Hk). lia.
      * lia.
      * intros; lia.
    + apply Nat.ltb_ge in E3.
      split; [exact Hlen|]. split; [exact Hcnt|]. split; [|split].
      * intros k Hk. destruct (Hin k Hk). lia.
      * lia.
      * intros _ H3. destruct Hcase as [->|Hb]; [lia|].
        rewrite <- Hcnt. eapply count_set_pos. exact Hb.
Qed.

Lemma stationary_fold_spec (points : list POINT2D) (count : nat) :
  forall len a bitarr numsplits,
  (1 <= a)%nat -> (a + len = count)%nat ->
  length bitarr = count -> count_set bitarr = numsplits ->
  splits_inside bitarr count a ->
  forall bitarr' n',
  fold_left (stationary_step points count) (List.seq a len)
    (bitarr, numsplits) = (bitarr', n') ->
  length bitarr' = count /\ count_set bitarr' = n'
  /\ splits_inside bitarr' count count
  /\ (numsplits <= n')%nat
  /\ (forall i, (a <= i)%nat -> (i < count)%nat ->
      stationary_at points i = true -> (3 <= count)%nat -> (1 <= n')%nat).
Proof.
  induction len as [|len IH];
    intros a bitarr numsplits Ha Hal Hlen Hcnt Hin bitarr' n' Hf.
  - cbn in Hf. injection Hf as <- <-.
    split; [exact Hlen|]. split; [exact Hcnt|]. split; [|split].
    + intros k Hk. destruct (Hin k Hk). lia.
    + lia.
    + intros; lia.
  - cbn [List.seq fold_left] in Hf.
    destruct (stationary_step points count (bitarr, numsplits) a)
      as [bitarr1 n1] eqn:Es.
    destruct (stationary_step_spec points count bitarr numsplits a Ha
                ltac:(lia) Hlen Hcnt Hin bitarr1 n1 Es)
      as (L1 & C1 & S1 & M1 & T1).
    destruct (IH (S a) bitarr1 n1 ltac:(lia) ltac:(lia) L1 C1 S1 bitarr' n' Hf)
      as (L2 & C2 & S2 & M2 & T2).
    split; [exact L2|]. split; [exact C2|]. split; [exact S2|].
    split; [lia|].
    + intros i Hi1 Hi2 Hst H3.
      destruct (Nat.eq_dec i a) as [->|Hne].
      * specialize (T1 Hst H3). lia.
      * apply (T2 i); try assumption. lia.
Qed.

(** The search for an intersection stops within its fuel; a split found
    lies strictly inside the piece. *)
Lemma linear_scan_spec (points : list POINT2D) (start end_ : nat) :
  forall fuel i j,
  (start <= i)%nat -> (i < j)%nat ->
  ((end_ - j) * S end_ + (j - i) < fuel)%nat ->
  match linear_scan fuel points start end_ i j with
  | Some (Some j') => (j <= j')%nat /\ (j' < end_)%nat
  | Some None => True
  | None => False
  end.
Proof.
  induction fuel as [|fuel IH]; intros i j Hsi Hij Hf;
    [exfalso; exact (Nat.nlt_0_r _ Hf)|].
  cbn [linear_scan].
  destruct (j <? end_)%nat eqn:Ej; [|exact I].
  apply Nat.ltb_lt in Ej.
  match goal with
  | |- context [if ?h then Some (Some j) else _] => destruct h
  end; [lia|].
  destruct (i <? j - 1)%nat eqn:Ei.
  - apply Nat.ltb_lt in Ei. apply IH; lia.
  - apply Nat.ltb_ge in Ei.
    assert (match linear_scan fuel points start end_ start (S j) with
            | Some (Some j') => (S j <= j')%nat /\ (j' < end_)%nat
            | Some None => True
            | None => False
            end) as Hr.
    { apply IH; try lia. nia. }
    destruct (linear_scan fuel points start end_ start (S j)) as [[j'|]|];
      [|exact I|exact Hr].
    destruct Hr. lia.
Qed.

Lemma linear_loop_spec (points : list POINT2D) (count : nat) :
  forall fuel bitarr numsplits start,
  (count - 2 - start < fuel)%nat ->
  length bitarr = count -> count_set bitarr = numsplits ->
  splits_inside bitarr count count ->
  exists bitarr' n',
    linear_loop fuel points count bitarr numsplits start = Some (bitarr', n')
    /\ length bitarr' = count /\ count_set bitarr' = n'
    /\ splits_inside bitarr' count count
    /\ (numsplits <= n')%nat.
Proof.
  induction fuel as [|fuel IH]; intros bitarr numsplits start Hf Hlen Hcnt Hin;
    [lia|].
  cbn [linear_loop].
  destruct (start <? count - 2)%nat eqn:Es.
  2:{ exists bitarr, numsplits. repeat split; try assumption; try lia;
        destruct (Hin k H); lia. }
  apply Nat.ltb_lt in Es.
  destruct (advance_end_spec bitarr (count - 1) count (start + 1))
    as (A1 & A2 & A3 & A4); [lia|].
  cbn zeta in *.
  set (e := advance_end count bitarr (count - 1) (start + 1)) in *.
  specialize (A4 ltac:(lia)).
  destruct (e =? start + 1)%nat eqn:Ee.
  - destruct (IH bitarr numsplits e) as (b' & n' & R); try assumption; [lia|].
    exists b', n'. exact R.
  - apply Nat.eqb_neq in Ee.
    pose proof (linear_scan_spec points start e (S (count * count)) start
                  (start + 1) (Nat.le_refl _) ltac:(lia) ltac:(nia)) as Hscan.
    destruct (linear_scan (S (count * count)) points start e start (start + 1))
      as [[j|]|]; [| |contradiction].
    + destruct Hscan as [J1 J2].
      destruct (IH (array_set bitarr j true) (S numsplits) j)
        as (b' & n' & R1 & R2 & R3 & R4 & R5).
      * lia.
      * rewrite array_set_length. exact Hlen.
      * rewrite count_set_array_set; [lia|lia|]. apply A2; lia.
      * intros k Hk. destruct (Nat.eq_dec k j) as [->|Hne]; [lia|].
        rewrite array_set_nth_other in Hk by exact Hne. apply Hin. exact Hk.
      * exists b', n'. repeat split; try assumption; try lia;
          destruct (R4 k H); lia.
    + destruct (IH bitarr numsplits e) as (b' & n' & R); try assumption; [lia|].
      exists b', n'. exact R.
Qed.

Lemma linear_find_splits_spec (seq : TSequence) :
  exists bitarr n,
    tpointseq_linear_find_splits seq = Some (bitarr, n)
    /\ length bitarr = seq_count seq
    /\ count_set bitarr = n
    /\ splits_inside bitarr (seq_count seq) (seq_count seq)
    /\ (forall i, (1 <= i)%nat -> (i < seq_count seq)%nat ->
        stationary_at (map datum_point2d (seq_values seq)) i = true ->
        (3 <= seq_count seq)%nat -> (1 <= n)%nat).
Proof.
  unfold tpointseq_linear_find_splits.
  destruct (fold_left _ _ _) as [bitarr1 n1] eqn:Ef.
  destruct (seq_count seq) as [|c] eqn:Ec.
  - cbn in Ef. injection Ef as <- <-. cbn.
    exists [], 0%nat. repeat split; try lia;
      destruct k; discriminate.
  - destruct (stationary_fold_spec (map datum_point2d (seq_values seq)) (S c)
                (S c - 1) 1 (repeat false (S c)) 0%nat)
      with (bitarr' := bitarr1) (n' := n1)
      as (L1 & C1 & S1 & M1 & T1).
    + lia.
    + lia.
    + apply repeat_length.
    + apply count_set_repeat.
    + intros k Hk. rewrite nth_repeat_false in Hk. discriminate.
    + exact Ef.
    + destruct (linear_loop_spec (map datum_point2d (seq_values seq)) (S c)
                  (S (S c)) bitarr1 n1 0%nat)
        as (b' & n' & R1 & R2 & R3 & R4 & R5); try assumption; [lia|].
      exists b', n'. repeat split; try assumption;
        try (destruct (R4 k H); lia).
      intros i Hi1 Hi2 Hst H3. specialize (T1 i Hi1 Hi2 Hst H3). lia.
Qed.

(** ** Fragments of a step or linear sequence *)

Lemma hd_nth {A : Type} (l : list A) (d : A) : hd d l = nth 0 l d.
Proof. destruct l; reflexivity. Qed.

Lemma last_nth_length {A : Type} (l : list A) (d : A) :
  last l d = nth (length l - 1) l d.
Proof.
  induction l as [|a [|b tl] IH]; try reflexivity.
  change (last (a :: b :: tl) d) with (last (b :: tl) d). rewrite IH.
  cbn [length]. replace (S (S (length tl)) - 1)%nat with (S (length tl)) by lia.
  cbn [nth]. replace (S (length tl) - 1)%nat with (length tl) by lia.
  reflexivity.
Qed.

Lemma array_blit_length {A : Type} (src dst : list A) :
  (length src <= length dst)%nat ->
  length (array_blit src dst) = length dst.
Proof.
  intros H. unfold array_blit. rewrite length_app, length_skipn. lia.
Qed.

Lemma array_blit_firstn {A : Type} (src dst : list A) :
  firstn (length src) (array_blit src dst) = src.
Proof.
  unfold array_blit. rewrite firstn_app, Nat.sub_diag, firstn_all. cbn.
  apply app_nil_r.
Qed.

Lemma array_blit_nth {A : Type} (src dst : list A) (i : nat) (d : A) :
  (i < length src)%nat -> nth i (array_blit src dst) d = nth i src d.
Proof. intros H. unfold array_blit. apply app_nth1. exact H. Qed.

Lemma array_set_app {A : Type} (l r : list A) (k : nat) (v : A) :
  (k < length l)%nat -> array_set (l ++ r) k v = array_set l k v ++ r.
Proof.
  revert k. induction l as [|h tl IH]; intros k Hk; cbn in Hk; [lia|].
  destruct k; cbn; [reflexivity|]. rewrite IH by lia. reflexivity.
Qed.

Lemma firstn_array_set_blit {A : Type} (src dst : list A) (k : nat) (v : A) :
  (k < length src)%nat ->
  firstn (length src) (array_set (array_blit src dst) k v) = array_set src k v.
Proof.
  intros Hk. unfold array_blit. rewrite array_set_app by exact Hk.
  rewrite <- (array_set_length src k v) at 1.
  rewrite firstn_app, Nat.sub_diag, firstn_all. cbn. apply app_nil_r.
Qed.

Lemma subarray_inst (seq : TSequence) (s n j : nat) :
  (j < n)%nat ->
  nth j (subarray (seq_instants seq) s n) default_instant
  = TSEQUENCE_INST_N seq (s + j).
Proof. intros H. unfold TSEQUENCE_INST_N. apply subarray_nth. exact H. Qed.

(** One fragment of [tpointseq_cont_split]. *)
Lemma cont_fragment_spec (seq : TSequence) (splits : list bool)
  (scratch : list TInstant) (start end_ : nat) :
  length scratch = seq_count seq ->
  (start < end_)%nat -> (end_ <= seq_count seq - 1)%nat ->
  forall frag scratch',
  cont_fragment seq splits scratch start end_ = (frag, scratch') ->
  length scratch' = seq_count seq
  /\ seq_interp frag = (if MEOS_FLAGS_GET_LINEAR seq then LINEAR else STEP)
  /\ seq_count frag = (end_ - start + 1)%nat
  /\ lower (seq_period frag) = inst_t (TSEQUENCE_INST_N seq start)
  /\ upper (seq_period frag) = inst_t (TSEQUENCE_INST_N seq end_)
  /\ lower_inc (seq_period frag)
     = (if (start =? 0)%nat then lower_inc (seq_period seq) else true)
  /\ upper_inc (seq_period frag)
     = (if (end_ =? seq_count seq - 1)%nat
        then upper_inc (seq_period seq)
             && negb (nth (seq_count seq - 1) splits false)
        else false)
  /\ (MEOS_FLAGS_GET_LINEAR seq = true ->
      seq_instants frag
      = subarray (seq_instants seq) start (end_ - start + 1))
  /\ map inst_t (seq_instants frag)
     = map inst_t (subarray (seq_instants seq) start (end_ - start + 1)).
Proof.
  intros Hlen Hse Hec frag scratch'.
  unfold cont_fragment.
  set (m := (end_ - start + 1)%nat).
  set (src := subarray (seq_instants seq) start m).
  assert (length src = m) as Hsrc.
  { apply subarray_length. fold (seq_count seq). lia. }
  assert (length (array_blit src scratch) = seq_count seq) as Hbl.
  { rewrite array_blit_length; [exact Hlen|lia]. }
  assert (nth (end_ - start) (array_blit src scratch) default_instant
          = TSEQUENCE_INST_N seq end_) as Hlast.
  { rewrite array_blit_nth by lia. unfold src.
    rewrite subarray_inst by lia. f_equal. lia. }
  assert (nth 0 src default_instant = TSEQUENCE_INST_N seq start) as Hfirst.
  { unfold src. rewrite subarray_inst by lia. f_equal. lia. }
  assert (nth (m - 1) src default_instant = TSEQUENCE_INST_N seq end_) as Hsl.
  { unfold src. rewrite subarray_inst by lia. f_equal. lia. }
  assert (forall v, firstn m (array_set (array_blit src scratch) (end_ - start) v)
                    = array_set src (end_ - start) v) as F1.
  { intros v. rewrite <- Hsrc. apply firstn_array_set_blit. lia. }
  assert (firstn m (array_blit src scratch) = src) as F2.
  { rewrite <- Hsrc. apply array_blit_firstn. }
  destruct (negb (MEOS_FLAGS_GET_LINEAR seq)
            && negb (if (end_ =? seq_count seq - 1)%nat
                     then upper_inc (seq_period seq)
                          && negb (nth (seq_count seq - 1) splits false)
                     else false)
            && negb (datum_point_eq _ _)) eqn:Emod;
    intros H; injection H as <- <-.
  - apply andb_true_iff in Emod as [Emod _].
    apply andb_true_iff in Emod as [El Eu].
    apply negb_true_iff in El, Eu. rewrite El, Eu.
    rewrite array_set_length, F1.
    unfold seq_count. cbn [tsequence_make seq_instants seq_interp seq_period
                             lower upper lower_inc upper_inc].
    rewrite array_set_length, hd_nth, last_nth_length, array_set_length.
    rewrite array_set_nth_other by lia.
    rewrite Hsrc. replace (m - 1)%nat with (end_ - start)%nat by lia.
    rewrite array_set_nth_same by lia.
    rewrite Hfirst. cbn [tinstant_make inst_t]. rewrite Hlast.
    split; [exact Hbl|]. repeat (split; [reflexivity|]).
    split; [intros Hf; discriminate Hf|].
    apply nth_ext with (d := 0%Z) (d' := 0%Z).
    + rewrite !length_map, array_set_length. reflexivity.
    + intros i Hi. rewrite length_map, array_set_length in Hi.
      change 0%Z with (inst_t default_instant). rewrite !map_nth.
      destruct (Nat.eq_dec i (end_ - start)) as [->|Hne].
      * rewrite array_set_nth_same by lia. cbn [inst_t].
        replace (end_ - start)%nat with (m - 1)%nat by lia.
        rewrite Hsl. reflexivity.
      * rewrite array_set_nth_other by exact Hne. reflexivity.
  - rewrite F2.
    unfold seq_count. cbn [tsequence_make seq_instants seq_interp seq_period
                             lower upper lower_inc upper_inc].
    rewrite hd_nth, last_nth_length, Hsrc, Hfirst, Hsl.
    split; [exact Hbl|]. repeat (split; [reflexivity|]).
    split; reflexivity.
Qed.

Lemma nth_firstn_lt {A : Type} (l : list A) (n i : nat) (d : A) :
  (i < n)%nat -> nth i (firstn n l) d = nth i l d.
Proof.
  intros H. rewrite nth_firstn. apply Nat.ltb_lt in H. rewrite H. reflexivity.
Qed.

Lemma subarray_succ {A : Type} (l : list A) (s n : nat) (d : A) :
  (s < length l)%nat ->
  subarray l s (S n) = nth s l d :: subarray l (S s) n.
Proof.
  unfold subarray. revert s. induction l as [|h tl IH]; intros s Hs;
    cbn in Hs; [lia|].
  destruct s; [reflexivity|]. cbn [skipn nth]. apply IH. lia.
Qed.

Lemma map_tl {A B : Type} (f : A -> B) (l : list A) :
  map f (tl l) = tl (map f l).
Proof. destruct l; reflexivity. Qed.

Lemma tl_subarray_skipn {A : Type} (l : list A) (s e : nat) :
  (s < e)%nat -> (e < length l)%nat ->
  tl (subarray l s (e - s + 1)) ++ skipn (S e) l = skipn (S s) l.
Proof.
  intros H1 H2. destruct l as [|d l']; [cbn in H2; lia|].
  replace (e - s + 1)%nat with (S (e - s)) by lia.
  rewrite (subarray_succ _ _ _ d) by lia. cbn [tl].
  rewrite (skipn_subarray (d :: l') (S s) (S e)) by lia.
  reflexivity.
Qed.

(** The loop of [tpointseq_cont_split]. *)
Lemma cont_split_loop_spec (seq : TSequence) (splits : list bool) :
  length splits = seq_count seq -> (2 <= seq_count seq)%nat ->
  forall fuel scratch start,
  (seq_count seq - 1 - start < fuel)%nat -> (start <= seq_count seq - 1)%nat ->
  length scratch = seq_count seq ->
  exists frags scratch',
    cont_split_loop fuel seq splits scratch start
    = Some (frags, scratch', (seq_count seq - 1)%nat)
    /\ length scratch' = seq_count seq
    /\ ((start < seq_count seq - 1)%nat ->
        length frags
        = S (count_set (skipn (S start) (firstn (seq_count seq - 1) splits)))
        /\ periods_chain (inst_t (TSEQUENCE_INST_N seq start))
             (if (start =? 0)%nat then lower_inc (seq_period seq) else true)
             (inst_t (TSEQUENCE_INST_N seq (seq_count seq - 1)))
             (upper_inc (seq_period seq)
              && negb (nth (seq_count seq - 1) splits false))
             (map seq_period frags))
    /\ (start = (seq_count seq - 1)%nat -> frags = [])
    /\ Forall (fun f =>
                 seq_interp f
                 = (if MEOS_FLAGS_GET_LINEAR seq then LINEAR else STEP)
                 /\ (2 <= seq_count f)%nat) frags
    /\ concat (map (fun f => tl (map inst_t (seq_instants f))) frags)
       = skipn (S start) (map inst_t (seq_instants seq))
    /\ (MEOS_FLAGS_GET_LINEAR seq = true ->
        concat (map (fun f => tl (seq_instants f)) frags)
        = skipn (S start) (seq_instants seq)).
Proof.
  intros Hlen Hc2.
  induction fuel as [|fuel IH]; intros scratch start Hf Hs Hsl; [lia|].
  cbn [cont_split_loop].
  destruct (start <? seq_count seq - 1)%nat eqn:Es.
  2:{ apply Nat.ltb_ge in Es. assert (start = seq_count seq - 1)%nat as -> by lia.
      exists [], scratch. split; [reflexivity|]. split; [exact Hsl|].
      split; [lia|]. split; [reflexivity|]. split; [constructor|].
      cbn [map concat]. rewrite !skipn_all2; [split; reflexivity| |].
      - fold (seq_count seq). lia.
      - rewrite length_map. fold (seq_count seq). lia. }
  apply Nat.ltb_lt in Es.
  destruct (next_split_spec splits (seq_count seq - 1) start Es)
    as (N1 & N2 & N3 & N4).
  set (e := next_split splits (seq_count seq - 1) start) in *.
  destruct (cont_fragment seq splits scratch start e) as [frag scratch1] eqn:Ef.
  destruct (cont_fragment_spec seq splits scratch start e Hsl N1 N2 frag
              scratch1 Ef)
    as (F1 & F2 & F3 & F4 & F5 & F6 & F7 & F8 & F9).
  destruct (IH scratch1 e) as (rest & scratch' & R1 & R2 & R3 & R4 & R5 & R6 & R7);
    [lia|lia|exact F1|].
  rewrite R1. exists (frag :: rest), scratch'.
  split; [reflexivity|]. split; [exact R2|].
  assert (start < length (seq_instants seq))%nat as Hsi
    by (fold (seq_count seq); lia).
  split; [|split; [|split; [|split]]].
  - intros _. split.
    + cbn [length]. f_equal.
      rewrite (count_set_skipn_run _ (S start) e).
      * destruct (Nat.eq_dec e (seq_count seq - 1)) as [E|E].
        -- rewrite (R4 E). cbn [length]. symmetry.
           apply count_set_skipn_all. rewrite length_firstn. lia.
        -- destruct R3 as [R3 _]; [lia|]. rewrite R3. symmetry.
           apply count_set_skipn_set. rewrite nth_firstn_lt by lia.
           apply N4. lia.
      * lia.
      * intros i Hi1 Hi2. rewrite nth_firstn_lt by lia. apply N3; lia.
    + cbn [map periods_chain]. split; [exact F4|]. split; [exact F6|].
      destruct (Nat.eq_dec e (seq_count seq - 1)) as [E|E].
      * rewrite (R4 E). cbn [map]. rewrite F5, F7, E, Nat.eqb_refl.
        split; reflexivity.
      * destruct R3 as [R3 R3']; [lia|].
        destruct rest as [|g rest']; [cbn in R3; lia|].
        cbn [map]. cbn [map] in R3'.
        apply Nat.eqb_neq in E. rewrite F7, E. split; [reflexivity|].
        rewrite F5. assert ((e =? 0)%nat = false) as E0 by (apply Nat.eqb_neq; lia).
        rewrite E0 in R3'. exact R3'.
  - lia.
  - constructor; [|exact R5]. split; [exact F2|]. lia.
  - cbn [map concat]. rewrite R6, F9, <- map_tl, !skipn_map, <- map_app.
    f_equal. apply tl_subarray_skipn; unfold seq_count in *; lia.
  - intros Hl. cbn [map concat]. rewrite (R7 Hl), (F8 Hl).
    apply tl_subarray_skipn; unfold seq_count in *; lia.
Qed.

Lemma count_set_app (l r : list bool) :
  count_set (l ++ r) = (count_set l + count_set r)%nat.
Proof. unfold count_set. rewrite filter_app, length_app. reflexivity. Qed.

Lemma count_set_last (l : list bool) (m : nat) :
  length l = S m ->
  count_set l
  = (count_set (firstn m l) + (if nth m l false then 1 else 0))%nat.
Proof.
  intros H. rewrite <- (firstn_skipn m l) at 1. rewrite count_set_app.
  f_equal. destruct (skipn m l) as [|b [|c tl]] eqn:E.
  - apply (f_equal (@length _)) in E. rewrite length_skipn in E. cbn in E. lia.
  - assert (nth m l false = b) as ->.
    { rewrite <- (firstn_skipn m l), app_nth2; rewrite length_firstn;
        [|lia]. replace (m - Nat.min m (length l))%nat with 0%nat by lia.
      rewrite E. reflexivity. }
    destruct b; reflexivity.
  - apply (f_equal (@length _)) in E. rewrite length_skipn in E. cbn in E. lia.
Qed.

Lemma periods_chain_app (l : list Period) (p : Period) :
  forall lo lo_inc hi hi_inc,
  periods_chain lo lo_inc hi false l ->
  lower p = hi -> lower_inc p = true ->
  periods_chain lo lo_inc (upper p) hi_inc
    (l ++ [mkSpan (lower p) (upper p) (lower_inc p) hi_inc]).
Proof.
  induction l as [|q rest IH]; intros lo lo_inc hi hi_inc Hc Hl Hi;
    [contradiction|].
  cbn [app periods_chain] in *.
  destruct Hc as (C1 & C2 & C3). split; [exact C1|]. split; [exact C2|].
  destruct rest as [|r rest'].
  - destruct C3 as [C3 C4]. cbn [app periods_chain lower lower_inc upper
                                   upper_inc].
    split; [exact C4|]. rewrite C3, Hl, Hi. repeat split; reflexivity.
  - destruct C3 as [C3 C4]. cbn [app]. split; [exact C3|].
    apply (IH _ _ _ _ C4 Hl Hi).
Qed.

Lemma firstn_one_array_set {A : Type} (l : list A) (v : A) :
  (1 <= length l)%nat -> firstn 1 (array_set l 0 v) = [v].
Proof. destruct l; cbn; [lia|reflexivity]. Qed.

(** For a linear sequence the fragments of the loop are linked: each
    one starts with the instant at which the one before ends. *)
Lemma cont_split_loop_linked (seq : TSequence) (splits : list bool) :
  MEOS_FLAGS_GET_LINEAR seq = true ->
  forall fuel scratch start frags scratch' k,
  length scratch = seq_count seq -> (start <= seq_count seq - 1)%nat ->
  cont_split_loop fuel seq splits scratch start = Some (frags, scratch', k) ->
  fragments_linked (TSEQUENCE_INST_N seq start) frags.
Proof.
  intros Hl.
  induction fuel as [|fuel IH]; intros scratch start frags scratch' k Hsl Hs;
    cbn [cont_split_loop]; [intros H; discriminate H|].
  destruct (start <? seq_count seq - 1)%nat eqn:Es.
  2:{ intros H. injection H as <- _ _. exact I. }
  apply Nat.ltb_lt in Es.
  destruct (next_split_spec splits (seq_count seq - 1) start Es)
    as (N1 & N2 & _).
  set (e := next_split splits (seq_count seq - 1) start) in *.
  destruct (cont_fragment seq splits scratch start e) as [frag scratch1] eqn:Ef.
  destruct (cont_fragment_spec seq splits scratch start e Hsl N1 N2 frag
              scratch1 Ef)
    as (F1 & _ & _ & _ & _ & _ & _ & F8 & _).
  destruct (cont_split_loop fuel seq splits scratch1 e) as [[[rest scr] ls]|]
    eqn:El; [|intros H; discriminate H].
  intros H. injection H as <- _ _.
  cbn [fragments_linked]. rewrite (F8 Hl). split.
  - rewrite hd_nth, subarray_inst by lia. f_equal. lia.
  - rewrite last_nth_length, subarray_length by (fold (seq_count seq); lia).
    rewrite subarray_inst by lia.
    replace (start + (e - start + 1 - 1))%nat with e by lia.
    exact (IH scratch1 e rest scr ls F1 N2 El).
Qed.

(** [tpointseq_cont_split] applied to the splits found. *)
Lemma cont_split_spec (seq : TSequence) (splits : list bool) (n : nat) :
  (2 <= seq_count seq)%nat ->
  length splits = seq_count seq -> count_set splits = n ->
  nth 0 splits false = false ->
  (MEOS_FLAGS_GET_LINEAR seq = true ->
   nth (seq_count seq - 1) splits false = false) ->
  exists frags,
    tpointseq_cont_split seq splits (n + 1) = Some frags
    /\ length frags = (n + 1)%nat
    /\ periods_chain (inst_t (TSEQUENCE_INST_N seq 0))
         (lower_inc (seq_period seq))
         (inst_t (TSEQUENCE_INST_N seq (seq_count seq - 1)))
         (upper_inc (seq_period seq)) (map seq_period frags)
    /\ concat (map (fun f => tl (map inst_t (seq_instants f))) frags)
       = tl (map inst_t (seq_instants seq))
    /\ (MEOS_FLAGS_GET_LINEAR seq = true ->
        concat (map (fun f => tl (seq_instants f)) frags)
        = tl (seq_instants seq)
        /\ Forall (fun f => seq_interp f = LINEAR /\ (2 <= seq_count f)%nat)
             frags
        /\ fragments_linked (TSEQUENCE_INST_N seq 0) frags).
Proof.
  intros Hc2 Hlen Hcnt H0 Hlast.
  unfold tpointseq_cont_split.
  destruct (cont_split_loop_spec seq splits Hlen Hc2 (S (seq_count seq))
              (repeat default_instant (seq_count seq)) 0%nat)
    as (frags & scratch & R1 & R2 & R3 & R4 & R5 & R6 & R7);
    [lia|lia|apply repeat_length|].
  rewrite R1. destruct R3 as [R3 R3']; [lia|]. cbn [Nat.eqb] in R3'.
  assert (count_set (skipn 1 (firstn (seq_count seq - 1) splits))
          = count_set (firstn (seq_count seq - 1) splits)) as Hin.
  { assert (nth 0 (firstn (seq_count seq - 1) splits) false = false) as H0'.
    { rewrite nth_firstn_lt by lia. exact H0. }
    symmetry. exact (count_set_skipn_clear _ 0 H0'). }
  rewrite Hin in R3.
  pose proof (count_set_last splits (seq_count seq - 1) ltac:(lia)) as Hl.
  rewrite Hcnt in Hl.
  change (skipn 1 ?l) with (tl l) in R6, R7.
  destruct (nth (seq_count seq - 1) splits false) eqn:Eb.
  - assert ((length frags <? n + 1)%nat = true) as -> by (apply Nat.ltb_lt; lia).
    assert (MEOS_FLAGS_GET_LINEAR seq = false) as Hnl.
    { destruct (MEOS_FLAGS_GET_LINEAR seq); [|reflexivity].
      specialize (Hlast eq_refl). discriminate. }
    eexists. split; [reflexivity|].
    replace (seq_count seq - (seq_count seq - 1))%nat with 1%nat by lia.
    rewrite firstn_one_array_set by lia.
    split; [rewrite length_app; cbn; lia|]. split; [|split].
    + rewrite map_app. cbn [map tsequence_make seq_period hd last].
      rewrite andb_false_r in R3'.
      apply (periods_chain_app _
               (mkSpan (inst_t (TSEQUENCE_INST_N seq (seq_count seq - 1)))
                       (inst_t (TSEQUENCE_INST_N seq (seq_count seq - 1)))
                       true (upper_inc (seq_period seq))) _ _ _ _ R3');
        reflexivity.
    + rewrite map_app, concat_app. cbn. rewrite !app_nil_r. exact R6.
    + intros Hl'. congruence.
  - assert ((length frags <? n + 1)%nat = false) as -> by (apply Nat.ltb_ge; lia).
    exists frags. split; [reflexivity|]. split; [lia|].
    rewrite andb_true_r in R3'. split; [exact R3'|]. split; [exact R6|].
    intros Hl'. split; [apply R7; exact Hl'|].
    split; [rewrite Hl' in R5; exact R5|].
    apply (cont_split_loop_linked seq splits Hl' _ _ _ _ _ _
             (repeat_length _ _) (Nat.le_0_l _) R1).
Qed.

(** ** The fragments returned by [tpointseq_make_simple] *)

Lemma pieces_distinct_whole (vals : list Point) (bitarr : list bool)
  (count : nat) :
  pieces_distinct vals bitarr count -> count_set bitarr = 0%nat ->
  values_distinct vals 0 count.
Proof.
  intros Hp Hc. destruct count as [|c]; [intros j k A B C; lia|].
  apply Hp; [lia|lia|]. intros i _ _. apply count_set_zero. exact Hc.
Qed.

Lemma make_simple_distinct (seq : TSequence) :
  MEOS_FLAGS_GET_LINEAR seq = false ->
  values_distinct (seq_values seq) 0 (seq_count seq) ->
  tpointseq_make_simple seq = Some [seq].
Proof.
  intros Hl Hd. unfold tpointseq_make_simple, tsequence_copy.
  rewrite Hl, (discstep_find_splits_distinct seq Hd). cbn [Nat.eqb].
  destruct (_ || _); reflexivity.
Qed.

Lemma discrete_not_linear (seq : TSequence) :
  seq_interp seq = DISCRETE -> MEOS_FLAGS_GET_LINEAR seq = false.
Proof. unfold MEOS_FLAGS_GET_LINEAR. intros ->. reflexivity. Qed.

(** The discrete case in full. *)
Lemma make_simple_discrete (seq : TSequence) :
  seq_interp seq = DISCRETE ->
  exists frags,
    tpointseq_make_simple seq = Some frags
    /\ concat (map seq_instants frags) = seq_instants seq
    /\ Forall (fun f => seq_interp f = DISCRETE
                        /\ values_distinct (seq_values f) 0 (seq_count f))
         frags.
Proof.
  intros Hi. pose proof (discrete_not_linear seq Hi) as Hl.
  unfold tpointseq_make_simple, tsequence_copy. rewrite Hi, Hl. cbn [negb andb orb].
  rewrite orb_false_r.
  destruct (discstep_find_splits_spec seq) as (splits & n & F1 & F2 & F3 & F4 & F5).
  destruct (seq_count seq =? 1)%nat eqn:E1.
  - exists [seq]. split; [reflexivity|]. split; [cbn; apply app_nil_r|].
    constructor; [|constructor]. split; [exact Hi|].
    apply Nat.eqb_eq in E1. rewrite E1. intros j k A B C. lia.
  - rewrite F1.
    destruct (n =? 0)%nat eqn:En.
    + apply Nat.eqb_eq in En. subst n.
      exists [seq]. split; [reflexivity|]. split; [cbn; apply app_nil_r|].
      constructor; [|constructor]. split; [exact Hi|].
      apply (pieces_distinct_whole _ splits); assumption.
    + unfold tpointseq_disc_split.
      destruct (disc_split_loop_spec seq splits F2 F5 (S (seq_count seq)) 0%nat)
        as (frags & R1 & R2 & R3 & R4); [lia|lia|].
      exists frags. split; [exact R1|]. split; [exact R2|].
      eapply Forall_impl; [|exact R4]. intros f (A & B & C). split; assumption.
Qed.

(** The number of fragments written. *)
Lemma make_simple_count (seq : TSequence) :
  exists frags,
    tpointseq_make_simple seq = Some frags
    /\ tpointseq_make_simple_count seq = Some (length frags).
Proof.
  unfold tpointseq_make_simple, tpointseq_make_simple_count, tsequence_copy.
  destruct (_ || _) eqn:Esp; [exists [seq]; split; reflexivity|].
  destruct (MEOS_FLAGS_GET_LINEAR seq) eqn:Hl.
  - destruct (linear_find_splits_spec seq) as (splits & n & F1 & F2 & F3 & F4 & _).
    rewrite F1. destruct (n =? 0)%nat eqn:En;
      [exists [seq]; split; reflexivity|].
    assert (seq_interp seq = LINEAR) as Hi.
    { unfold MEOS_FLAGS_GET_LINEAR in Hl. destruct (seq_interp seq);
        try discriminate. reflexivity. }
    rewrite Hi in Esp |- *. cbn [negb andb orb] in Esp.
    apply Nat.leb_gt in Esp.
    destruct (cont_split_spec seq splits n) as (frags & R1 & R2 & _);
      try assumption; try lia.
    + destruct (nth 0 splits false) eqn:E0; [|reflexivity].
      destruct (F4 0%nat E0). lia.
    + intros _. destruct (nth (seq_count seq - 1) splits false) eqn:E0;
        [|reflexivity]. destruct (F4 _ E0). lia.
    + exists frags. split; [exact R1|]. rewrite R2. reflexivity.
  - destruct (discstep_find_splits_spec seq)
      as (splits & n & F1 & F2 & F3 & F4 & F5).
    rewrite F1. destruct (n =? 0)%nat eqn:En;
      [exists [seq]; split; reflexivity|].
    apply Nat.eqb_neq in En.
    destruct (seq_interp seq) eqn:Hi; cbn [negb andb orb] in Esp |- *;
      try discriminate.
    + apply Nat.leb_gt in Esp.
      destruct (cont_split_spec seq splits n) as (frags & R1 & R2 & _);
        try assumption; try lia; [intros Hf; congruence|].
      exists frags. split; [exact R1|]. rewrite R2. reflexivity.
    + rewrite orb_false_r in Esp.
      unfold tpointseq_disc_split.
      destruct (disc_split_loop_spec seq splits F2 F5 (S (seq_count seq)) 0%nat)
        as (frags & R1 & R2 & R3 & R4); [lia|lia|].
      exists frags. split; [exact R1|].
      assert (0 < seq_count seq)%nat as Hpos.
      { destruct (seq_count seq); [|lia]. destruct splits; [|discriminate].
        cbn in F3. lia. }
      rewrite (R3 Hpos), <- (count_set_skipn_clear splits 0 F4).
      cbn [skipn]. rewrite F3. f_equal. f_equal. lia.
    + apply Nat.leb_gt in Esp.
      destruct (cont_split_spec seq splits n) as (frags & R1 & R2 & _);
        try assumption; try lia; [intros Hf; congruence|].
      exists frags. split; [exact R1|]. rewrite R2. reflexivity.
    + unfold MEOS_FLAGS_GET_LINEAR in Hl. rewrite Hi in Hl. discriminate.
Qed.

(** The splits found in a sequence that is not discrete leave the first
    cell clear, and the last one too on a linear sequence. *)
Lemma find_splits_continuous (seq : TSequence) :
  exists splits n,
    (if MEOS_FLAGS_GET_LINEAR seq
     then tpointseq_linear_find_splits seq
     else tpointseq_discstep_find_splits seq) = Some (splits, n)
    /\ length splits = seq_count seq /\ count_set splits = n
    /\ nth 0 splits false = false
    /\ (MEOS_FLAGS_GET_LINEAR seq = true ->
        nth (seq_count seq - 1) splits false = false).
Proof.
  destruct (MEOS_FLAGS_GET_LINEAR seq) eqn:Hl.
  - destruct (linear_find_splits_spec seq) as (splits & n & F1 & F2 & F3 & F4 & _).
    exists splits, n. repeat split; try assumption.
    + destruct (nth 0 splits false) eqn:E0; [|reflexivity].
      destruct (F4 0%nat E0). lia.
    + destruct (nth (seq_count seq - 1) splits false) eqn:E0; [|reflexivity].
      destruct (F4 _ E0). lia.
  - destruct (discstep_find_splits_spec seq)
      as (splits & n & F1 & F2 & F3 & F4 & F5).
    exists splits, n. repeat split; try assumption. intros Hf; discriminate Hf.
Qed.

Lemma make_simple_continuous (seq : TSequence) :
  seq_interp seq <> DISCRETE -> period_of_instants seq ->
  exists frags,
    tpointseq_make_simple seq = Some frags
    /\ periods_chain (lower (seq_period seq)) (lower_inc (seq_period seq))
         (upper (seq_period seq)) (upper_inc (seq_period seq))
         (map seq_period frags)
    /\ concat (map (fun f => tl (map inst_t (seq_instants f))) frags)
       = tl (map inst_t (seq_instants seq)).
Proof.
  intros Hi [P1 P2].
  assert (tpointseq_make_simple seq = Some [seq] ->
          exists frags,
            tpointseq_make_simple seq = Some frags
            /\ periods_chain (lower (seq_period seq)) (lower_inc (seq_period seq))
                 (upper (seq_period seq)) (upper_inc (seq_period seq))
                 (map seq_period frags)
            /\ concat (map (fun f => tl (map inst_t (seq_instants f))) frags)
               = tl (map inst_t (seq_instants seq))) as Hsingle.
  { intros H. exists [seq]. split; [exact H|]. split.
    - cbn. repeat split; reflexivity.
    - cbn. apply app_nil_r. }
  destruct (find_splits_continuous seq) as (splits & n & F1 & F2 & F3 & F4 & F5).
  unfold tpointseq_make_simple, tsequence_copy in *.
  destruct (_ || _) eqn:Esp; [apply Hsingle; reflexivity|].
  rewrite F1 in *.
  destruct (n =? 0)%nat eqn:En; [apply Hsingle; reflexivity|].
  assert (2 < seq_count seq)%nat as Hc.
  { destruct (seq_interp seq); cbn [negb andb orb] in Esp;
      try (apply Nat.leb_gt in Esp; exact Esp). congruence. }
  destruct (cont_split_spec seq splits n ltac:(lia) F2 F3 F4 F5)
    as (frags & R1 & R2 & R3 & R4 & _).
  exists frags.
  split; [destruct (seq_interp seq); try exact R1; congruence|].
  rewrite P1, P2. split; assumption.
Qed.

Lemma linear_interp (seq : TSequence) :
  seq_interp seq = LINEAR -> MEOS_FLAGS_GET_LINEAR seq = true.
Proof. unfold MEOS_FLAGS_GET_LINEAR. intros ->. reflexivity. Qed.

(** ** Membership of an instant in a box *)





(** ** The fragments of the step iteration *)

Lemma last_in_nonempty {A : Type} (l : list A) (d : A) :
  (0 < length l)%nat -> In (last l d) l.
Proof.
  induction l as [|a [|b tl] IH]; cbn [length]; intros H.
  - lia.
  - left. reflexivity.
  - right. apply IH. cbn. lia.
Qed.

Lemma step_fold_spec (seq : TSequence) (timespan : option Period)
  (test : TInstant -> bool) (l : list TInstant) :
  forall (instants : list TInstant) (sequences : list TSequence) (k : nat)
         (P : TInstant -> Prop),
  (forall inst, In inst l -> test inst = true -> P inst) ->
  (length instants + length sequences <= k)%nat ->
  Forall P instants ->
  Forall (fun f =>
            seq_interp f = STEP /\ (1 <= seq_count f)%nat
            /\ (seq_count f <= k)%nat
            /\ forall inst, In inst (seq_instants f) ->
               exists inst0, P inst0
                 /\ tinstant_value inst = tinstant_value inst0) sequences ->
  let '(instants', sequences') :=
    fold_left (step_iter_body seq timespan test) l (instants, sequences) in
  (length instants' + length sequences' <= k + length l)%nat
  /\ Forall P instants'
  /\ Forall (fun f =>
               seq_interp f = STEP /\ (1 <= seq_count f)%nat
               /\ (seq_count f <= k + length l)%nat
               /\ forall inst, In inst (seq_instants f) ->
                  exists inst0, P inst0
                    /\ tinstant_value inst = tinstant_value inst0) sequences'.
Proof.
  induction l as [|inst tl IH]; intros instants sequences k P HP Hk Hi Hs.
  - cbn [fold_left length]. rewrite Nat.add_0_r. repeat split; assumption.
  - cbn [fold_left length].
    assert (forall i, In i tl -> test i = true -> P i) as HP'
      by (intros i Hin; apply HP; right; exact Hin).
    unfold step_iter_body at 2.
    destruct (test inst) eqn:Et.
    + specialize (IH (instants ++ [inst]) sequences (S k) P HP').
      destruct (fold_left _ tl _) as [i' s'].
      replace (k + S (length tl))%nat with (S k + length tl)%nat by lia.
      apply IH.
      * rewrite length_app. cbn. lia.
      * apply Forall_app. split; [exact Hi|].
        constructor; [|constructor]. apply HP; [left; reflexivity|exact Et].
      * eapply Forall_impl; [|exact Hs].
        intros f (A & B & C & D). repeat split; try assumption. lia.
    + destruct (0 <? length instants)%nat eqn:El.
      * apply Nat.ltb_lt in El.
        specialize (IH [] (sequences ++ [step_close seq timespan instants inst])
                      (S k) P HP').
        destruct (fold_left _ tl _) as [i' s'].
        replace (k + S (length tl))%nat with (S k + length tl)%nat by lia.
        apply IH.
        -- rewrite length_app. cbn. lia.
        -- constructor.
        -- apply Forall_app. split.
           ++ eapply Forall_impl; [|exact Hs].
              intros f (A & B & C & D). repeat split; try assumption. lia.
           ++ constructor; [|constructor].
              assert (In (last instants default_instant) instants) as Hlast.
              { apply last_in_nonempty. exact El. }
              assert (forall i, In i instants ->
                        exists inst0, P inst0
                          /\ tinstant_value i = tinstant_value inst0) as Hin.
              { intros i Hi'. exists i. split; [|reflexivity].
                rewrite Forall_forall in Hi. apply Hi. exact Hi'. }
              assert (forall t i,
                        In i (instants ++
                              [tinstant_make
                                 (tinstant_value (last instants default_instant))
                                 t]) ->
                        exists inst0, P inst0
                          /\ tinstant_value i = tinstant_value inst0) as Hin'.
              { intros t i Hi'. apply in_app_or in Hi'.
                destruct Hi' as [Hi'|[<-|[]]]; [apply Hin; exact Hi'|].
                exists (last instants default_instant).
                split; [|reflexivity].
                rewrite Forall_forall in Hi. apply Hi. exact Hlast. }
              unfold step_close.
              destruct timespan as [ts|].
              ** destruct (inter_span_span ts _) as [inter|].
                 --- destruct (negb (lower inter =? upper inter)%Z).
                     +++ unfold tsequence_make, seq_count.
                         cbn [seq_interp seq_instants].
                         split; [reflexivity|]. rewrite length_app. cbn [length].
                         split; [lia|]. split; [lia|]. apply Hin'.
                     +++ unfold tsequence_make, seq_count.
                         cbn [seq_interp seq_instants].
                         split; [reflexivity|]. split; [lia|]. split; [lia|].
                         exact Hin.
                 --- unfold tsequence_make, seq_count.
                     cbn [seq_interp seq_instants].
                     split; [reflexivity|]. split; [lia|]. split; [lia|].
                     exact Hin.
              ** unfold tsequence_make, seq_count.
                 cbn [seq_interp seq_instants].
                 split; [reflexivity|]. rewrite length_app. cbn [length].
                 split; [lia|]. split; [lia|]. apply Hin'.
      * specialize (IH instants sequences (S k) P HP').
        destruct (fold_left _ tl _) as [i' s'].
        replace (k + S (length tl))%nat with (S k + length tl)%nat by lia.
        apply IH.
        -- lia.
        -- exact Hi.
        -- eapply Forall_impl; [|exact Hs].
           intros f (A & B & C & D). repeat split; try assumption. lia.
Qed.

Lemma step_run_spec (seq : TSequence) (timespan : option Period)
  (test : TInstant -> bool) :
  step_fragments_ok seq test
    (step_iter_finish seq
       (fold_left (step_iter_body seq timespan test) (seq_instants seq)
          ([], []))).
Proof.
  pose proof (step_fold_spec seq timespan test (seq_instants seq) [] [] 0
                (fun i => In i (seq_instants seq) /\ test i = true)) as H.
  destruct (fold_left _ _ _) as [instants sequences].
  destruct H as (H1 & H2 & H3).
  - intros inst Hin Ht. split; assumption.
  - cbn. lia.
  - constructor.
  - constructor.
  - cbn [plus] in H1, H3. fold (seq_count seq) in H1, H3.
    assert (Forall (fun f =>
              seq_interp f = STEP /\ (1 <= seq_count f)%nat
              /\ (seq_count f <= seq_count seq)%nat
              /\ forall inst, In inst (seq_instants f) ->
                 exists inst0, In inst0 (seq_instants seq)
                   /\ test inst0 = true
                   /\ tinstant_value inst = tinstant_value inst0) sequences)
      as H3'.
    { eapply Forall_impl; [|exact H3]. intros f (A & B & C & D).
      repeat split; try assumption.
      intros inst Hin. destruct (D inst Hin) as (i0 & [P1 P2] & P3).
      exists i0. repeat split; assumption. }
    unfold step_iter_finish, step_fragments_ok.
    destruct (0 <? length instants)%nat eqn:El.
    + apply Nat.ltb_lt in El. rewrite length_app. cbn [length].
      split; [lia|]. apply Forall_app. split; [exact H3'|].
      constructor; [|constructor].
      unfold tsequence_make, seq_count. cbn [seq_interp seq_instants].
      split; [reflexivity|]. split; [lia|].
      split; [unfold seq_count in H1; lia|].
      intros inst Hin. exists inst. rewrite Forall_forall in H2.
      destruct (H2 inst Hin) as [P1 P2]. repeat split; assumption.
    + split; [lia|exact H3'].
Qed.

Lemma step_at_iter_spec (seq : TSequence) (period : option Period)
  (test : TInstant -> bool) :
  step_fragments_ok seq test (step_at_iter seq period test).
Proof.
  unfold step_at_iter. destruct period as [p|]; [|apply step_run_spec].
  destruct (inter_span_span (seq_period seq) p); [apply step_run_spec|].
  split; [cbn; lia|constructor].
Qed.

(** ** The fragments of the linear restriction to a box *)

Lemma linear_segment_fragments (inst1 inst2 : TInstant) (box : STBox)
  (hasz_seq hasz border_inc linc uinc : bool)
  (frags : list TSequence) :
  linear_segment_at_stbox inst1 inst2 box hasz_seq hasz border_inc linc
    uinc = Ok frags ->
  (length frags <= 1)%nat /\ Forall linear_fragment_ok frags.
Proof.
  unfold linear_segment_at_stbox.
  destruct (cohenSutherlandClip _ _ _ _ _) as [clip|]; cbn [of_option bind];
    [|intros H; discriminate H].
  destruct (clip_found clip);
    [|intros H; injection H as <-; split; [cbn; lia|constructor]].
  destruct (clip_p3 clip) as [p3|]; cbn [of_option bind];
    [|intros H; discriminate H].
  destruct (clip_p4 clip) as [p4|]; cbn [of_option bind];
    [|intros H; discriminate H].
  destruct (if negb border_inc then _ else _) as [[li ui]|e]; cbn [bind];
    [|intros H; discriminate H].
  destruct (tpointsegm_timestamp_at_value1 _ inst2 p3) as [t1|];
    cbn [of_option bind]; [|intros H; discriminate H].
  destruct (tpointsegm_timestamp_at_value1 _ inst2 p4) as [t2|];
    cbn [of_option bind]; [|intros H; discriminate H].
  destruct (_ || _ || _);
    [|intros H; injection H as <-; split; [cbn; lia|constructor]].
  intros H. injection H as <-. split; [cbn; lia|].
  constructor; [|constructor].
  unfold linear_fragment_ok, tsequence_make, seq_count.
  cbn [seq_interp seq_instants seq_period lower_inc upper_inc].
  destruct (negb (datum_point_eq _ _)); cbn [length Nat.eqb];
    (split; [reflexivity|]); (split; [auto|]); intros H; try discriminate H;
    split; reflexivity.
Qed.

Lemma constant_segment_fragments (inst1 inst2 : TInstant) (box : STBox)
  (hasz border_inc linc uinc : bool) :
  (length (constant_segment_at_stbox inst1 inst2 box hasz border_inc linc
             uinc) <= 1)%nat
  /\ Forall linear_fragment_ok
       (constant_segment_at_stbox inst1 inst2 box hasz border_inc linc
          uinc).
Proof.
  unfold constant_segment_at_stbox.
  destruct (_ =? _)%Z; [|split; [cbn; lia|constructor]].
  split; [cbn; lia|]. constructor; [|constructor].
  unfold linear_fragment_ok, tsequence_make, seq_count.
  cbn [seq_interp seq_instants length].
  split; [reflexivity|]. split; [right; reflexivity|].
  intros H; discriminate H.
Qed.

Lemma linear_at_stbox_loop_spec (seq : TSequence) (box : STBox)
  (hasz_seq hasz border_inc : bool) (rest : list TInstant) :
  forall (inst1 : TInstant) (linc : bool) (frags : list TSequence),
  linear_at_stbox_loop seq box hasz_seq hasz border_inc inst1 linc rest
    = Ok frags ->
  (length frags <= length rest)%nat /\ Forall linear_fragment_ok frags.
Proof.
  induction rest as [|inst2 tl IH]; intros inst1 linc frags.
  - cbn. intros H. injection H as <-. split; [cbn; lia|constructor].
  - cbn [linear_at_stbox_loop].
    set (ui := match tl with [] => upper_inc (seq_period seq) | _ => false end).
    destruct (datum_point_eq _ _).
    + cbn [bind].
      destruct (constant_segment_fragments inst1 inst2 box hasz border_inc
                  linc ui) as [C1 C2].
      destruct (linear_at_stbox_loop seq box hasz_seq hasz border_inc inst2 true tl)
        as [more|e] eqn:Em; cbn [bind]; [|intros H; discriminate H].
      destruct (IH inst2 true more Em) as [M1 M2].
      intros H. injection H as <-. rewrite length_app. cbn [length].
      split; [lia|apply Forall_app; split; assumption].
    + destruct (linear_segment_at_stbox inst1 inst2 box hasz_seq hasz border_inc
                  linc ui) as [fr|e] eqn:Ef; cbn [bind];
        [|intros H; discriminate H].
      destruct (linear_segment_fragments _ _ _ _ _ _ _ _ _ Ef) as [C1 C2].
      destruct (linear_at_stbox_loop seq box hasz_seq hasz border_inc inst2 true tl)
        as [more|e] eqn:Em; cbn [bind]; [|intros H; discriminate H].
      destruct (IH inst2 true more Em) as [M1 M2].
      intros H. injection H as <-. rewrite length_app. cbn [length].
      split; [lia|apply Forall_app; split; assumption].
Qed.

(** ** The fragments of a temporal point *)

Lemma make_simple_nonempty (seq : TSequence) :
  exists frags,
    tpointseq_make_simple seq = Some frags /\ (1 <= length frags)%nat.
Proof.
  destruct (make_simple_count seq) as (frags & H1 & H2).
  exists frags. split; [exact H1|].
  revert H2. unfold tpointseq_make_simple_count.
  destruct (_ || _); [intros H; injection H as H; lia|].
  destruct (if MEOS_FLAGS_GET_LINEAR seq then _ else _) as [[s n]|];
    [|intros H; discriminate H].
  destruct (n =? 0)%nat; intros H; injection H as H; lia.
Qed.

Lemma seqs_make_simple_spec (l : list TSequence) :
  exists frags,
    seqs_make_simple l = Some frags /\ (length l <= length frags)%nat.
Proof.
  induction l as [|seq tl (rest & R1 & R2)].
  - exists []. split; [reflexivity|cbn; lia].
  - destruct (make_simple_nonempty seq) as (frags & F1 & F2).
    exists (frags ++ rest). cbn [seqs_make_simple]. rewrite F1, R1.
    split; [reflexivity|]. rewrite length_app. cbn [length]. lia.
Qed.

(** ** The states of the clipping on doubles *)






(* ================================================================== *)
(** ** The segment classifier *)
(* ================================================================== *)

(** X3.  [seg2d_intersection] stores an intersection point exactly when
    it returns [MEOS_SEG_TOUCH_END], and the point it stores is then an
    end point of the first segment and an end point of the second. *)
Theorem seg2d_touch_end_point (a b c d : POINT2D) :
  (fst (seg2d_intersection a b c d) = MEOS_SEG_TOUCH_END <->
   exists p, snd (seg2d_intersection a b c d) = Some p)
  /\ (forall p, snd (seg2d_intersection a b c d) = Some p ->
      (point2d_equiv p a \/ point2d_equiv p b)
      /\ (point2d_equiv p c \/ point2d_equiv p d)).
Proof.
  pose proof (seg2d_intersection_point a b c d) as H.
  destruct (seg2d_intersection a b c d) as [k [p|]]; cbn [fst snd].
  - destruct k; try contradiction.
    split; [split; [intros _; exists p; reflexivity|reflexivity]|].
    intros q Hq. injection Hq as <-. exact H.
  - split.
    + split; [intros ->; contradiction|intros [p Hp]; discriminate Hp].
    + intros p Hp. discriminate Hp.
Qed.

(* ================================================================== *)
(** ** Restriction of instants and discrete sequences *)
(* ================================================================== *)

(** X5.  For an instant or a discrete sequence, and a box with a spatial
    dimension, [tpoint_at_stbox] and [tpoint_minus_stbox] split the
    instants of the temporal point: whenever both return without error,
    there is a test on instants such that the first returns the instants
    that pass it and the second the instants that fail it, both in the
    order of the input.  Every instant is in exactly one of the two
    results. *)
Theorem restrict_stbox_discrete_partition (E : Collaborators)
  (temp : Temporal) (box : STBox) (border_inc : bool)
  (r_at r_minus : option Temporal) :
  is_discrete temp = true -> box_hasx box = true ->
  tpoint_at_stbox E temp box border_inc = Ok r_at ->
  tpoint_minus_stbox E temp box border_inc = Ok r_minus ->
  exists keep : TInstant -> bool,
    result_instants r_at = filter keep (temporal_instants temp)
    /\ result_instants r_minus =
       filter (fun inst => negb (keep inst)) (temporal_instants temp).
Proof.
  unfold tpoint_at_stbox, tpoint_minus_stbox.
  intros Hd Hx. unfold tpoint_restrict_stbox. rewrite Hx, andb_false_r.
  destruct (ensure_same_srid _ _); cbn [bind]; [|discriminate].
  destruct (ensure_same_geodetic _ _); cbn [bind]; [|discriminate].
  destruct (overlaps_stbox_stbox E _ _); cbn [negb].
  - destruct temp as [inst|seq|ss]; cbn in Hd; try discriminate.
    + intros H1 H2. injection H1 as <-. injection H2 as <-.
      exists (fun i => tpointinst_restrict_stbox_iter i box border_inc REST_AT).
      unfold tpointinst_restrict_stbox. rewrite stbox_iter_minus.
      cbn [temporal_instants filter].
      destruct (tpointinst_restrict_stbox_iter inst box border_inc REST_AT);
        split; reflexivity.
    + unfold tpointseq_restrict_stbox.
      destruct (seq_interp seq); try discriminate.
      intros H1 H2. injection H1 as <-. injection H2 as <-.
      exists (fun i => tpointinst_restrict_stbox_iter i box border_inc REST_AT).
      pose proof (disc_restrict_stbox_instants seq box border_inc REST_AT) as A.
      pose proof (disc_restrict_stbox_instants seq box border_inc REST_MINUS) as M.
      rewrite (filter_ext_negb _ _ _ (fun i => stbox_iter_minus i box border_inc))
        in M.
      cbn [temporal_instants].
      destruct (tpointseq_disc_restrict_stbox seq box border_inc REST_AT);
        destruct (tpointseq_disc_restrict_stbox seq box border_inc REST_MINUS);
        split; assumption.
  - intros H1 H2. injection H1 as <-. injection H2 as <-.
    exists (fun _ => false). cbn [REST_AT REST_MINUS result_instants negb].
    unfold temporal_copy. rewrite filter_all_false, filter_all_true.
    split; reflexivity.
Qed.

Lemma restrict_stbox_discrete_partition_witness :
  exists keep : TInstant -> bool,
    result_instants (Some (TSEQUENCE discrete_revisit_at_origin))
    = filter keep (temporal_instants (TSEQUENCE discrete_revisit))
    /\ result_instants (Some (TSEQUENCE discrete_revisit_away))
       = filter (fun inst => negb (keep inst))
           (temporal_instants (TSEQUENCE discrete_revisit)).
Proof.
  apply (restrict_stbox_discrete_partition rect_collaborators
           (TSEQUENCE discrete_revisit) origin_box true);
    vm_compute; reflexivity.
Defined.

(** X6.  For an instant or a discrete sequence, [tpoint_at_geom_time]
    and [tpoint_minus_geom_time] split the instants of the temporal
    point, whatever the geometry, the span of Z values and the period:
    whenever both return without error, there is a test on instants
    such that the first returns the instants that pass it and the second
    the instants that fail it, both in the order of the input. *)
Theorem restrict_geom_discrete_partition (E : Collaborators)
  (temp : Temporal) (gs : GSERIALIZED E) (zspan : option (Span Q))
  (period : option Period) (r_at r_minus : option Temporal) :
  is_discrete temp = true ->
  tpoint_at_geom_time E temp gs zspan period = Ok r_at ->
  tpoint_minus_geom_time E temp gs zspan period = Ok r_minus ->
  exists keep : TInstant -> bool,
    result_instants r_at = filter keep (temporal_instants temp)
    /\ result_instants r_minus =
       filter (fun inst => negb (keep inst)) (temporal_instants temp).
Proof.
  unfold tpoint_at_geom_time, tpoint_minus_geom_time.
  intros Hd. unfold tpoint_restrict_geom_time.
  destruct (gserialized_is_empty E gs).
  { intros H1 H2. injection H1 as <-. injection H2 as <-.
    exists (fun _ => false). cbn [REST_AT REST_MINUS result_instants negb].
    unfold temporal_copy. rewrite filter_all_false, filter_all_true.
    split; reflexivity. }
  destruct (ensure_same_srid _ _); cbn [bind]; [|discriminate].
  destruct (ensure_has_not_Z_gs _); cbn [bind]; [|discriminate].
  destruct (match zspan with Some _ => _ | None => _ end); cbn [bind];
    [|discriminate].
  destruct (overlaps_stbox_stbox E _ _); cbn [negb].
  - destruct temp as [inst|seq|ss]; cbn in Hd; try discriminate.
    + intros H1 H2. injection H1 as <-. injection H2 as <-.
      exists (fun i =>
                tpointinst_restrict_geom_time_iter E i gs zspan period REST_AT).
      unfold tpointinst_restrict_geom_time. rewrite geom_iter_minus.
      cbn [temporal_instants filter].
      destruct (tpointinst_restrict_geom_time_iter E inst gs zspan period REST_AT);
        split; reflexivity.
    + unfold tpointseq_restrict_geom_time.
      destruct (seq_interp seq); try discriminate.
      intros H1 H2. injection H1 as <-. injection H2 as <-.
      exists (fun i =>
                tpointinst_restrict_geom_time_iter E i gs zspan period REST_AT).
      pose proof (disc_restrict_geom_instants E seq gs zspan period REST_AT) as A.
      pose proof (disc_restrict_geom_instants E seq gs zspan period REST_MINUS)
        as M.
      rewrite (filter_ext_negb _ _ _
                 (fun i => geom_iter_minus E i gs zspan period)) in M.
      cbn [temporal_instants].
      destruct (tpointseq_disc_restrict_geom_time E seq gs zspan period REST_AT);
        destruct (tpointseq_disc_restrict_geom_time E seq gs zspan period
                    REST_MINUS);
        split; assumption.
  - intros H1 H2. injection H1 as <-. injection H2 as <-.
    exists (fun _ => false). cbn [REST_AT REST_MINUS result_instants negb].
    unfold temporal_copy. rewrite filter_all_false, filter_all_true.
    split; reflexivity.
Qed.

Lemma restrict_geom_discrete_partition_witness :
  exists keep : TInstant -> bool,
    result_instants (Some (TSEQUENCE discrete_revisit_at_origin))
    = filter keep (temporal_instants (TSEQUENCE discrete_revisit))
    /\ result_instants (Some (TSEQUENCE discrete_revisit_away))
       = filter (fun inst => negb (keep inst))
           (temporal_instants (TSEQUENCE discrete_revisit)).
Proof.
  apply (restrict_geom_discrete_partition rect_collaborators
           (TSEQUENCE discrete_revisit) origin_rect None None);
    vm_compute; reflexivity.
Defined.

(* ================================================================== *)
(** ** The fragments of a sequence *)
(* ================================================================== *)

(** X7.  [tpointseq_make_simple] returns for every sequence, of any
    interpolation: the searches for splits and the splitting loops stop.
    The number of fragments it builds is the number it stores in its
    output parameter [count]: one for a sequence returned whole,
    [numsplits + 1] otherwise, so that the array allocated for
    [numsplits + 1] fragments is filled exactly. *)
Theorem make_simple_count_exact (seq : TSequence) :
  exists frags,
    tpointseq_make_simple seq = Some frags
    /\ tpointseq_make_simple_count seq = Some (length frags).
Proof. apply make_simple_count. Qed.

(** X8.  The fragments that [tpointseq_make_simple] returns for a
    discrete sequence are discrete sequences whose instants, put end to
    end, are the instants of the input in order: every instant of the
    input is in exactly one fragment. *)
Theorem make_simple_discrete_partition (seq : TSequence) :
  is_discrete (TSEQUENCE seq) = true ->
  exists frags,
    tpointseq_make_simple seq = Some frags
    /\ concat (map seq_instants frags) = seq_instants seq
    /\ Forall (fun f => is_discrete (TSEQUENCE f) = true) frags.
Proof.
  intros Hd.
  assert (seq_interp seq = DISCRETE) as Hi.
  { cbn in Hd. destruct (seq_interp seq); try discriminate. reflexivity. }
  destruct (make_simple_discrete seq Hi) as (frags & R1 & R2 & R3).
  exists frags. split; [exact R1|]. split; [exact R2|].
  eapply Forall_impl; [|exact R3]. intros f [A _]. cbn. rewrite A. reflexivity.
Qed.

Lemma make_simple_discrete_partition_witness :
  exists frags,
    tpointseq_make_simple discrete_revisit = Some frags
    /\ concat (map seq_instants frags) = seq_instants discrete_revisit
    /\ Forall (fun f => is_discrete (TSEQUENCE f) = true) frags.
Proof. apply (make_simple_discrete_partition discrete_revisit). reflexivity. Defined.

(** X9.  Every fragment that [tpointseq_make_simple] returns for a
    discrete sequence is simple: [tpointseq_is_simple] returns true on
    it, its values are pairwise different, and [tpointseq_make_simple]
    applied to the fragment returns the fragment itself. *)
Theorem make_simple_discrete_simple (seq : TSequence) :
  is_discrete (TSEQUENCE seq) = true ->
  exists frags,
    tpointseq_make_simple seq = Some frags
    /\ Forall (fun f =>
                 tpointseq_is_simple f = Some true
                 /\ all_differ (seq_values f)
                 /\ tpointseq_make_simple f = Some [f]) frags.
Proof.
  intros Hd.
  assert (seq_interp seq = DISCRETE) as Hi.
  { cbn in Hd. destruct (seq_interp seq); try discriminate. reflexivity. }
  destruct (make_simple_discrete seq Hi) as (frags & R1 & R2 & R3).
  exists frags. split; [exact R1|].
  eapply Forall_impl; [|exact R3]. intros f [A B].
  pose proof (discrete_not_linear f A) as Hl.
  split; [apply is_simple_distinct; assumption|].
  split; [|apply make_simple_distinct; assumption].
  apply values_distinct_all_differ. rewrite seq_values_length. exact B.
Qed.

Lemma make_simple_discrete_simple_witness :
  exists frags,
    tpointseq_make_simple discrete_revisit = Some frags
    /\ Forall (fun f =>
                 tpointseq_is_simple f = Some true
                 /\ all_differ (seq_values f)
                 /\ tpointseq_make_simple f = Some [f]) frags.
Proof. apply (make_simple_discrete_simple discrete_revisit). reflexivity. Defined.

(** X10.  The fragments that [tpointseq_make_simple] returns for a step
    or linear sequence tile the time of the sequence.  Their periods
    follow one another from the lower bound of the period of the
    sequence to its upper bound, with the inclusion flags of the
    sequence at both ends, and each fragment starts at the timestamp
    where the previous one ends, that timestamp being excluded from the
    previous fragment and included in the next.  Apart from that shared
    first timestamp the timestamps of the fragments are, in order, the
    timestamps of the sequence. *)
Theorem make_simple_periods_chain (seq : TSequence) :
  is_discrete (TSEQUENCE seq) = false -> period_of_instants seq ->
  exists frags,
    tpointseq_make_simple seq = Some frags
    /\ periods_chain (lower (seq_period seq)) (lower_inc (seq_period seq))
         (upper (seq_period seq)) (upper_inc (seq_period seq))
         (map seq_period frags)
    /\ concat (map (fun f => tl (map inst_t (seq_instants f))) frags)
       = tl (map inst_t (seq_instants seq)).
Proof.
  intros Hd Hp. apply make_simple_continuous; [|exact Hp].
  intros Hi. cbn in Hd. rewrite Hi in Hd. discriminate Hd.
Qed.

Lemma make_simple_periods_chain_witness :
  exists frags,
    tpointseq_make_simple step_revisit = Some frags
    /\ periods_chain (lower (seq_period step_revisit))
         (lower_inc (seq_period step_revisit))
         (upper (seq_period step_revisit))
         (upper_inc (seq_period step_revisit))
         (map seq_period frags)
    /\ concat (map (fun f => tl (map inst_t (seq_instants f))) frags)
       = tl (map inst_t (seq_instants step_revisit)).
Proof.
  apply (make_simple_periods_chain step_revisit);
    [reflexivity|split; reflexivity].
Defined.

(** X11.  The fragments that [tpointseq_make_simple] returns for a
    linear sequence of two instants or more have linear interpolation
    and two instants or more each, as [tpointseq_interperiods] requires
    of them.  The first fragment starts with the first instant of the
    sequence and each of the others starts with the last instant of the
    one before; apart from that shared instant the instants of the
    fragments are, in order, the instants of the sequence, values
    included. *)
Theorem make_simple_linear_fragments (seq : TSequence) :
  seq_interp seq = LINEAR -> (2 <= seq_count seq)%nat ->
  exists frags,
    tpointseq_make_simple seq = Some frags
    /\ Forall (fun f => seq_interp f = LINEAR /\ (2 <= seq_count f)%nat) frags
    /\ fragments_linked (TSEQUENCE_INST_N seq 0) frags
    /\ concat (map (fun f => tl (seq_instants f)) frags)
       = tl (seq_instants seq).
Proof.
  intros Hi Hc. pose proof (linear_interp seq Hi) as Hl.
  assert (tpointseq_make_simple seq = Some [seq] ->
          exists frags,
            tpointseq_make_simple seq = Some frags
            /\ Forall (fun f => seq_interp f = LINEAR /\ (2 <= seq_count f)%nat)
                 frags
            /\ fragments_linked (TSEQUENCE_INST_N seq 0) frags
            /\ concat (map (fun f => tl (seq_instants f)) frags)
               = tl (seq_instants seq)) as Hsingle.
  { intros H. exists [seq]. split; [exact H|]. split; [|split].
    - constructor; [split; assumption|constructor].
    - cbn [fragments_linked]. split; [apply hd_nth|exact I].
    - cbn. apply app_nil_r. }
  destruct (find_splits_continuous seq) as (splits & n & F1 & F2 & F3 & F4 & F5).
  unfold tpointseq_make_simple, tsequence_copy in *.
  destruct (_ || _) eqn:Esp; [apply Hsingle; reflexivity|].
  rewrite F1 in *.
  destruct (n =? 0)%nat eqn:En; [apply Hsingle; reflexivity|].
  destruct (cont_split_spec seq splits n Hc F2 F3 F4 F5)
    as (frags & R1 & R2 & R3 & R4 & R5).
  destruct (R5 Hl) as (R6 & R7 & R8).
  exists frags. rewrite Hi. split; [exact R1|].
  split; [exact R7|]. split; [exact R8|exact R6].
Qed.

Lemma make_simple_linear_fragments_witness :
  exists frags,
    tpointseq_make_simple linear_revisit = Some frags
    /\ Forall (fun f => seq_interp f = LINEAR /\ (2 <= seq_count f)%nat) frags
    /\ fragments_linked (TSEQUENCE_INST_N linear_revisit 0) frags
    /\ concat (map (fun f => tl (seq_instants f)) frags)
       = tl (seq_instants linear_revisit).
Proof.
  apply (make_simple_linear_fragments linear_revisit);
    [reflexivity|unfold seq_count; cbn; lia].
Defined.

(** X12.  A linear sequence of three instants or more with a stationary
    segment (two consecutive instants with the same planar coordinates)
    is not simple: [tpointseq_is_simple] returns false. *)
Theorem linear_stationary_not_simple (seq : TSequence) (i : nat) :
  seq_interp seq = LINEAR -> (3 <= seq_count seq)%nat ->
  (1 <= i)%nat -> (i < seq_count seq)%nat ->
  stationary_at (map datum_point2d (seq_values seq)) i = true ->
  tpointseq_is_simple seq = Some false.
Proof.
  intros Hi Hc Hi1 Hi2 Hst. unfold tpointseq_is_simple.
  rewrite (linear_interp seq Hi). cbn [negb].
  destruct (seq_count seq =? 1)%nat eqn:E1; [apply Nat.eqb_eq in E1; lia|].
  destruct (linear_find_splits_spec seq) as (splits & n & F1 & _ & _ & _ & F5).
  rewrite F1. specialize (F5 i Hi1 Hi2 Hst Hc).
  destruct n; [lia|reflexivity].
Qed.

Lemma linear_stationary_not_simple_witness :
  tpointseq_is_simple linear_pause = Some false.
Proof.
  apply (linear_stationary_not_simple linear_pause 2);
    [reflexivity|unfold seq_count; cbn; lia|lia|unfold seq_count; cbn; lia
    |reflexivity].
Defined.

(** X13.  On a linear sequence [tpointseq_is_simple] and
    [tpointseq_make_simple] agree: when the first returns true the
    second returns the sequence itself as its only fragment, and when
    the first returns false the second returns two fragments or more. *)
Theorem is_simple_iff_single_fragment (seq : TSequence) :
  seq_interp seq = LINEAR ->
  exists b frags,
    tpointseq_is_simple seq = Some b
    /\ tpointseq_make_simple seq = Some frags
    /\ (b = true -> frags = [seq])
    /\ (b = false -> (2 <= length frags)%nat).
Proof.
  intros Hi. pose proof (linear_interp seq Hi) as Hl.
  unfold tpointseq_is_simple, tpointseq_make_simple, tsequence_copy.
  rewrite Hi, Hl. cbn [negb andb orb].
  destruct (find_splits_continuous seq) as (splits & n & F1 & F2 & F3 & F4 & F5).
  rewrite Hl in F1. rewrite F1.
  destruct (seq_count seq =? 1)%nat eqn:E1.
  - apply Nat.eqb_eq in E1. rewrite E1. cbn [Nat.leb].
    exists true, [seq]. repeat split; try reflexivity. intros Hf; discriminate Hf.
  - destruct (n =? 0)%nat eqn:En.
    + exists true, [seq]. split; [reflexivity|].
      split; [destruct (seq_count seq <=? 2)%nat; reflexivity|].
      split; [reflexivity|intros Hf; discriminate Hf].
    + apply Nat.eqb_neq in En.
      destruct (seq_count seq <=? 2)%nat eqn:E2.
      * exfalso. apply Nat.leb_le in E2. apply Nat.eqb_neq in E1.
        (* two instants at most: no split is possible *)
        destruct (linear_find_splits_spec seq)
          as (s' & n' & G1 & G2 & G3 & G4 & _).
        rewrite F1 in G1. injection G1 as <- <-.
        destruct n; [lia|].
        assert (exists k, nth k splits false = true) as [k Hk].
        { clear - F3. unfold count_set in F3.
          induction splits as [|h tl IH]; [discriminate|].
          destruct h; [exists 0%nat; reflexivity|].
          cbn in F3. destruct (IH F3) as [k Hk]. exists (S k). exact Hk. }
        destruct (G4 k Hk). lia.
      * apply Nat.leb_gt in E2.
        destruct (cont_split_spec seq splits n ltac:(lia) F2 F3 F4 F5)
          as (frags & R1 & R2 & _).
        exists false, frags. split; [reflexivity|]. split; [exact R1|].
        split; [intros Hf; discriminate Hf|]. intros _. lia.
Qed.

Lemma is_simple_iff_single_fragment_witness :
  exists b frags,
    tpointseq_is_simple linear_revisit = Some b
    /\ tpointseq_make_simple linear_revisit = Some frags
    /\ (b = true -> frags = [linear_revisit])
    /\ (b = false -> (2 <= length frags)%nat).
Proof. apply (is_simple_iff_single_fragment linear_revisit). reflexivity. Defined.

(* ================================================================== *)
(** ** The searches for splits *)
(* ================================================================== *)

(** X14.  [tpointseq_discstep_find_splits] returns for every sequence.
    The array it returns has one cell for each instant, the number it
    stores in [count] is the number of cells that are set, and the first
    cell is never set.  The splits are sufficient: the values of the
    instants between two consecutive splits are pairwise different
    (among the positions [s], ..., [e - 1] no value occurs twice
    whenever no cell strictly between [s] and [e] is set).  They are
    also necessary: the value at a split is the value of an earlier
    instant of the piece that the split closes. *)
Theorem discstep_find_splits_pieces (seq : TSequence) :
  exists bitarr n,
    tpointseq_discstep_find_splits seq = Some (bitarr, n)
    /\ length bitarr = seq_count seq
    /\ count_set bitarr = n
    /\ nth 0 bitarr false = false
    /\ pieces_distinct (seq_values seq) bitarr (seq_count seq)
    /\ splits_repeat (seq_values seq) bitarr.
Proof.
  destruct (discstep_find_splits_spec seq) as (bitarr & n & H1 & H2 & H3 & H4 & H5).
  exists bitarr, n. repeat (split; [assumption|]).
  exact (discstep_find_splits_repeat seq bitarr n H1).
Qed.

(** X15.  [tpointseq_linear_find_splits] returns for every sequence.
    The array it returns has one cell for each instant, the number it
    stores in [count] is the number of cells that are set, and a cell
    that is set is neither the first nor the last: a split is never put
    at an end of the sequence. *)
Theorem linear_find_splits_inside (seq : TSequence) :
  exists bitarr n,
    tpointseq_linear_find_splits seq = Some (bitarr, n)
    /\ length bitarr = seq_count seq
    /\ count_set bitarr = n
    /\ (forall k, nth k bitarr false = true ->
        (1 <= k)%nat /\ (k <= seq_count seq - 2)%nat).
Proof.
  destruct (linear_find_splits_spec seq) as (bitarr & n & H1 & H2 & H3 & H4 & _).
  exists bitarr, n. repeat split; try assumption; destruct (H4 k H); lia.
Qed.

(* ================================================================== *)
(** ** The clipping against a box *)
(* ================================================================== *)



(* ================================================================== *)
(** ** Instants, step and linear sequences against a box *)
(* ================================================================== *)


(** X19.  The step iteration functions stay within their arrays and
    return values of the input only.  For every step sequence,
    [tpointseq_step_at_stbox_iter] and [tpointseq_step_at_geom_time_iter]
    build at most [seq->count] fragments of at most [seq->count]
    instants each, the sizes of the arrays they allocate; every fragment
    has step interpolation and one instant at least, and the value of
    each of its instants is the value of an instant of the input that
    passes the membership test. *)
Theorem step_iter_fragments (E : Collaborators) (seq : TSequence)
  (box : STBox) (border_inc : bool) (gs : GSERIALIZED E)
  (zspan : option (Span Q)) (period : option Period) :
  step_fragments_ok seq
    (fun inst => tpointinst_restrict_stbox_iter inst box border_inc REST_AT)
    (tpointseq_step_at_stbox_iter seq box border_inc)
  /\ step_fragments_ok seq
       (fun inst =>
          tpointinst_restrict_geom_time_iter E inst gs zspan period REST_AT)
       (tpointseq_step_at_geom_time_iter E seq gs zspan period).
Proof. split; apply step_at_iter_spec. Qed.

(** X20.  For a linear sequence of two instants or more, the fragments
    that [tpointseq_linear_at_stbox_xyz] returns are at most
    [seq->count - 1], one for each segment at most, so that the array
    allocated for them is not overrun; each has linear interpolation
    and one or two instants, and a fragment reduced to one instant has
    both bounds inclusive. *)
Theorem linear_at_stbox_fragments (seq : TSequence) (box : STBox)
  (border_inc : bool) (frags : list TSequence) :
  (2 <= seq_count seq)%nat ->
  tpointseq_linear_at_stbox_xyz seq box border_inc = Ok (Some frags) ->
  (length frags <= seq_count seq - 1)%nat /\ Forall linear_fragment_ok frags.
Proof.
  intros Hc. unfold tpointseq_linear_at_stbox_xyz.
  destruct (seq_count seq =? 1)%nat eqn:E1; [apply Nat.eqb_eq in E1; lia|].
  destruct (linear_at_stbox_loop _ _ _ _ _ _ _ _) as [l|e] eqn:El; cbn [bind];
    [|intros H; discriminate H].
  intros H. injection H as <-.
  destruct (linear_at_stbox_loop_spec _ _ _ _ _ _ _ _ _ El) as [A B].
  split; [|exact B].
  unfold seq_count. destruct (seq_instants seq); cbn [tl length] in *; lia.
Qed.

Lemma linear_at_stbox_fragments_witness :
  (length [start_point_sequence] <= seq_count open_start_segment - 1)%nat
  /\ Forall linear_fragment_ok [start_point_sequence].
Proof.
  apply (linear_at_stbox_fragments open_start_segment corner_box true).
  - unfold seq_count. cbn. lia.
  - vm_compute. reflexivity.
Defined.

(* ================================================================== *)
(** ** The fragments of a temporal point *)
(* ================================================================== *)

(** X21.  [tpoint_make_simple] returns for every instant, every
    sequence and every sequence set with a sequence at least, and with
    one fragment at least for each sequence of the input (one for an
    instant).  In particular the total that [tpointseqset_make_simple]
    asserts to be positive is positive. *)
Theorem tpoint_make_simple_nonempty (temp : Temporal) :
  (1 <= num_sequences temp)%nat ->
  exists frags,
    tpoint_make_simple temp = Some frags
    /\ (1 <= length frags)%nat
    /\ (num_sequences temp <= length frags)%nat.
Proof.
  intros Hn.
  assert (exists frags,
            tpoint_make_simple temp = Some frags
            /\ (num_sequences temp <= length frags)%nat) as (frags & F1 & F2).
  { destruct temp as [inst|seq|ss]; cbn [tpoint_make_simple num_sequences].
    - eexists. split; [reflexivity|]. cbn. lia.
    - destruct (make_simple_nonempty seq) as (frags & F1 & F2).
      exists (map TSEQUENCE frags). rewrite F1. cbn [option_map].
      split; [reflexivity|]. rewrite length_map. exact F2.
    - unfold tpointseqset_make_simple.
      destruct (ss_sequences ss) as [|seq [|seq2 tl]] eqn:El.
      + exists []. split; [reflexivity|]. cbn. lia.
      + destruct (make_simple_nonempty seq) as (frags & F1 & F2).
        exists (map TSEQUENCE frags). rewrite F1. cbn [option_map].
        split; [reflexivity|]. rewrite length_map. exact F2.
      + destruct (seqs_make_simple_spec (seq :: seq2 :: tl))
          as (frags & F1 & F2).
        exists (map TSEQUENCE frags). rewrite F1. cbn [option_map].
        split; [reflexivity|]. rewrite length_map. exact F2. }
  exists frags. split; [exact F1|]. split; [lia|exact F2].
Qed.

Lemma tpoint_make_simple_nonempty_witness :
  exists frags,
    tpoint_make_simple (TSEQUENCESET two_sequences) = Some frags
    /\ (1 <= length frags)%nat
    /\ (num_sequences (TSEQUENCESET two_sequences) <= length frags)%nat.
Proof.
  apply (tpoint_make_simple_nonempty (TSEQUENCESET two_sequences)).
  cbn. lia.
Defined.
